(** * oh-my-codex: team coordination core

    A shallow embedding of the coordination code of oh-my-codex and the
    properties of it that the specification states.

    - [Orchestrator]: the staged team pipeline of [src/team/orchestrator.ts]
      ([TRANSITIONS], [isValidTransition], [createTeamState],
      [transitionPhase]).
    - [McpComm]: the mailbox communication layer of [team/mcp-comm.ts]
      ([queueInboxInstruction], [queueDirectMailboxMessage],
      [queueBroadcastMailboxMessage]) over a store of team documents.
    - [LeaderNudge]: the team leader nudge ([maybeNudgeTeamLeader] and its
      helpers; the module listed with [docs/hooks-extension.md]).
    - [Doctor]: the health check of [cli/doctor.ts] as [cli/index.ts] runs it.
    - [Generator]: the merge of the OMX block into [config.toml]
      ([src/config/generator.ts]: [getOmxConfigBlock], [mergeConfig]).
    - [Cli]: the mode commands of [src/cli/index.ts] ([showStatus],
      [cancelModes]).
    - [Setup]: the installer of [cli/setup.ts] ([setup], [installDirectory],
      [installSkills], [setupNotifyHook]).
    - [Update]: the launch-time update check of [cli/update.ts]
      ([parseSemver], [isNewerVersion], [shouldCheckForUpdates],
      [maybeCheckAndPromptUpdate]).

    The definitions come first, the properties after them, one module of
    facts per module of definitions.

    JavaScript objects are passed by reference.  Where a function assigns to
    a field of its argument, the embedding returns the content of the
    argument object after the call next to the function's own outcome, so
    that the effect on the caller's object is part of the model.  Code that
    reads or writes the outside world runs in [Eff]: explicit state passing
    with results that are values or thrown errors; clock readings are
    arguments. *)

From Stdlib Require Import ZArith List Bool Lia.
From Stdlib Require Import String Ascii.
From stdpp Require Import base option list strings pretty gmap.

Local Open Scope Z_scope.
Local Open Scope string_scope.

(** Outcome of a call that may throw: the value returned, or the message of
    the [Error] thrown. *)
Inductive Result (A : Type) : Type :=
| Ok (a : A)
| Throw (msg : string).
Arguments Ok {A} a.
Arguments Throw {A} msg.


(** Sequential code with effects (the awaited steps of an [async] function
    run one after the other): a step takes the state of the world to a new
    state and returns a value or throws. *)
Definition Eff (S A : Type) : Type := S -> S * Result A.

Definition ret {S A} (a : A) : Eff S A := fun s => (s, Ok a).

Definition bind {S A B} (m : Eff S A) (k : A -> Eff S B) : Eff S B :=
  fun s =>
    match m s with
    | (s', Ok a) => k a s'
    | (s', Throw e) => (s', Throw e)
    end.

(** [try { m } catch (err) { handler err }] *)
Definition try_catch {S A} (m : Eff S A) (handler : string -> Eff S A) : Eff S A :=
  fun s =>
    match m s with
    | (s', Ok a) => (s', Ok a)
    | (s', Throw e) => handler e s'
    end.

Notation "'await' x <- m ;; k" := (bind m (fun x => k))
  (at level 10, x name, m at level 99, k at level 200).

(* ===================================================================== *)
(** ** The phase state machine ([src/team/orchestrator.ts]) *)
(* ===================================================================== *)

Module Orchestrator.

(** [TeamPhase | TerminalPhase]: the first five constructors are the
    [TeamPhase] literals, the last three the [TerminalPhase] literals. *)
Inductive Phase : Type :=
| team_plan | team_prd | team_exec | team_verify | team_fix
| complete | failed | cancelled.

#[global] Instance Phase_eq_dec : EqDecision Phase.
Proof. solve_decision. Defined.

(** The string literal of each phase, as template literals print it. *)
Definition phase_name (p : Phase) : string :=
  match p with
  | team_plan => "team-plan"
  | team_prd => "team-prd"
  | team_exec => "team-exec"
  | team_verify => "team-verify"
  | team_fix => "team-fix"
  | complete => "complete"
  | failed => "failed"
  | cancelled => "cancelled"
  end.

Definition all_phases : list Phase :=
  [team_plan; team_prd; team_exec; team_verify; team_fix;
   complete; failed; cancelled].

Inductive TaskStatus : Type :=
| pending | in_progress | completed | blocked.

Record TeamTask : Type := {
  id : string;
  subject : string;
  description : string;
  status : TaskStatus;
  owner : option string;
  blockedBy : option (list string);
  createdAt : string;
  completedAt : option string
}.

(** One entry of [phase_transitions]: [{ from, to, at, reason? }].  The
    [from] and [to] strings the code stores are always phase literals, so
    they are kept as [Phase]. *)
Record Transition : Type := {
  tr_from : Phase;
  tr_to : Phase;
  tr_at : string;
  tr_reason : option string
}.

(** The two counters are JavaScript numbers; they are modelled as integers
    (the values the code itself produces: 0, the limit it is given, and
    increments by one). *)
Record TeamState : Type := {
  active : bool;
  phase : Phase;
  task_description : string;
  created_at : string;
  phase_transitions : list Transition;
  tasks : list TeamTask;
  max_fix_attempts : Z;
  current_fix_attempt : Z
}.

(** [TRANSITIONS]: a record keyed by the five [TeamPhase] literals only; a
    lookup with a terminal phase yields [undefined] ([None]). *)
Definition TRANSITIONS (from : Phase) : option (list Phase) :=
  match from with
  | team_plan => Some [team_prd]
  | team_prd => Some [team_exec]
  | team_exec => Some [team_verify]
  | team_verify => Some [team_fix; complete; failed]
  | team_fix => Some [team_exec; team_verify; complete; failed]
  | complete | failed | cancelled => None
  end.

(** [Array.prototype.includes] on phases. *)
Definition includes (l : list Phase) (p : Phase) : bool :=
  existsb (fun q => bool_decide (q = p)) l.

Definition isValidTransition (from to : Phase) : bool :=
  match TRANSITIONS from with
  | Some allowed => includes allowed to
  | None => false
  end.

(** [createTeamState(taskDescription, maxFixAttempts = 3)].  [None] is the
    omitted argument; [now] is the reading of [new Date().toISOString()]. *)
Definition createTeamState (taskDescription : string)
    (maxFixAttempts : option Z) (now : string) : TeamState :=
  {| active := true;
     phase := team_plan;
     task_description := taskDescription;
     created_at := now;
     phase_transitions := [];
     tasks := [];
     max_fix_attempts := default 3 maxFixAttempts;
     current_fix_attempt := 0 |}.

(** [['complete', 'failed', 'cancelled'].includes(to)] *)
Definition isTerminal (to : Phase) : bool :=
  includes [complete; failed; cancelled] to.

(** [state.current_fix_attempt++]: an assignment to a field of the object the
    caller passed in. *)
Definition bump_fix_attempt (state : TeamState) : TeamState :=
  {| active := active state;
     phase := phase state;
     task_description := task_description state;
     created_at := created_at state;
     phase_transitions := phase_transitions state;
     tasks := tasks state;
     max_fix_attempts := max_fix_attempts state;
     current_fix_attempt := current_fix_attempt state + 1 |}.

(** [{ ...state, phase, active, phase_transitions: [...state.phase_transitions, rec] }]:
    a fresh object and a fresh array. *)
Definition spread_with (state : TeamState) (p : Phase) (a : bool)
    (rec : Transition) : TeamState :=
  {| active := a;
     phase := p;
     task_description := task_description state;
     created_at := created_at state;
     phase_transitions := phase_transitions state ++ [rec];
     tasks := tasks state;
     max_fix_attempts := max_fix_attempts state;
     current_fix_attempt := current_fix_attempt state |}.

(** [transitionPhase(state, to, reason?)].  The first component is the
    content of the argument object [state] when the call ends, the second is
    what the call returns or throws.  [now] is the reading of
    [new Date().toISOString()]. *)
Definition transitionPhase (state : TeamState) (to : Phase)
    (reason : option string) (now : string) : TeamState * Result TeamState :=
  let from := phase state in
  if negb (isValidTransition from to) then
    (state,
     Throw ("Invalid transition: " ++ phase_name from ++ " -> " ++ phase_name to))
  else
    if bool_decide (to = team_fix) then
      if bool_decide (max_fix_attempts state <= current_fix_attempt state) then
        (state,
         Ok (spread_with state failed false
               {| tr_from := from; tr_to := failed; tr_at := now;
                  tr_reason := Some "Max fix attempts exceeded" |}))
      else
        let state' := bump_fix_attempt state in
        (state',
         Ok (spread_with state' to (negb (isTerminal to))
               {| tr_from := from; tr_to := to; tr_at := now;
                  tr_reason := reason |}))
    else
      (state,
       Ok (spread_with state to (negb (isTerminal to))
             {| tr_from := from; tr_to := to; tr_at := now;
                tr_reason := reason |})).

(** The argument object after the call, and the call's outcome. *)
Definition argument_after (state : TeamState) (to : Phase)
    (reason : option string) (now : string) : TeamState :=
  fst (transitionPhase state to reason now).

Definition outcome (state : TeamState) (to : Phase)
    (reason : option string) (now : string) : Result TeamState :=
  snd (transitionPhase state to reason now).

(** The helper of the test suite: plan -> prd -> exec -> verify, each call
    made on the object the previous call returned. *)
Definition moveToVerify (initial : TeamState) (now : string)
    : Result TeamState :=
  match outcome initial team_prd None now with
  | Throw e => Throw e
  | Ok prd =>
      match outcome prd team_exec None now with
      | Throw e => Throw e
      | Ok exec => outcome exec team_verify None now
      end
  end.

(** *** The transition table, in the words of the specification

    plan -> {prd}; prd -> {exec}; exec -> {verify};
    verify -> {fix, complete, failed};
    fix -> {exec, verify, complete, failed}. *)
Definition spec_table : list (Phase * Phase) :=
  [ (team_plan, team_prd);
    (team_prd, team_exec);
    (team_exec, team_verify);
    (team_verify, team_fix); (team_verify, complete); (team_verify, failed);
    (team_fix, team_exec); (team_fix, team_verify); (team_fix, complete);
    (team_fix, failed) ].

Definition in_spec_table (from to : Phase) : Prop := (from, to) ∈ spec_table.

#[global] Instance in_spec_table_dec from to : Decision (in_spec_table from to).
Proof. unfold in_spec_table. apply _. Defined.

Definition terminal (p : Phase) : Prop :=
  p = complete \/ p = failed \/ p = cancelled.

(** States obtained from [init] by calls of [transitionPhase]: the objects
    the successful calls return, and the argument objects as the calls leave
    them. *)
Inductive reachable_from (init : TeamState) : TeamState -> Prop :=
| reach_init : reachable_from init init
| reach_returned s to reason now s' :
    reachable_from init s ->
    outcome s to reason now = Ok s' ->
    reachable_from init s'
| reach_argument s to reason now :
    reachable_from init s ->
    reachable_from init (argument_after s to reason now).

(** The scenario of the test "enforces bounded team-fix loop": a team with
    [max_fix_attempts = 2] goes through verify -> fix -> verify twice and
    then asks for [team-fix] a third time. *)
Definition then_to (r : Result TeamState) (to : Phase)
    (reason : option string) (now : string) : Result TeamState :=
  match r with
  | Throw e => Throw e
  | Ok s => outcome s to reason now
  end.

Definition bounded_loop_verify3 (now : string) : Result TeamState :=
  let verify1 := moveToVerify (createTeamState "bounded loop" (Some 2) now) now in
  let fix1 := then_to verify1 team_fix (Some "attempt 1") now in
  let verify2 := then_to fix1 team_verify None now in
  let fix2 := then_to verify2 team_fix (Some "attempt 2") now in
  then_to fix2 team_verify None now.

Definition bounded_loop_overflow (now : string) : Result TeamState :=
  then_to (bounded_loop_verify3 now) team_fix (Some "attempt 3") now.

(** *** States used as concrete inputs *)

(** The scenario of the test "does not mutate input state when entering
    team-fix": a fresh team moved to [team-verify], then sent to [team-fix]. *)
Definition verify_of_fresh_team : TeamState :=
  {| active := true;
     phase := team_verify;
     task_description := "immutable";
     created_at := "t0";
     phase_transitions :=
       [ {| tr_from := team_plan; tr_to := team_prd; tr_at := "t1";
            tr_reason := None |};
         {| tr_from := team_prd; tr_to := team_exec; tr_at := "t1";
            tr_reason := None |};
         {| tr_from := team_exec; tr_to := team_verify; tr_at := "t1";
            tr_reason := None |} ];
     tasks := [];
     max_fix_attempts := 3;
     current_fix_attempt := 0 |}.

(** A state in [team-fix] whose counter has reached the limit. *)
Definition exhausted_in_fix : TeamState :=
  {| active := true;
     phase := team_fix;
     task_description := "bounded loop";
     created_at := "t0";
     phase_transitions := [];
     tasks := [];
     max_fix_attempts := 2;
     current_fix_attempt := 2 |}.

(** A team that has finished. *)
Definition completed_team : TeamState :=
  {| active := false;
     phase := complete;
     task_description := "terminal";
     created_at := "t0";
     phase_transitions := [];
     tasks := [];
     max_fix_attempts := 3;
     current_fix_attempt := 0 |}.

(** A state in [team-verify] whose counter has reached the limit. *)
Definition verify_at_limit : TeamState :=
  {| active := true;
     phase := team_verify;
     task_description := "bounded loop";
     created_at := "t0";
     phase_transitions := [];
     tasks := [];
     max_fix_attempts := 2;
     current_fix_attempt := 2 |}.

(** *** The rest of [orchestrator.ts] *)

(** [getPhaseAgents(phase)]: the [switch] has a case for each [TeamPhase];
    for another value the function returns [undefined] ([None]). *)
Definition getPhaseAgents (phase : Phase) : option (list string) :=
  match phase with
  | team_plan => Some ["analyst"; "planner"]
  | team_prd => Some ["product-manager"; "analyst"]
  | team_exec => Some ["executor"; "deep-executor"; "designer"; "test-engineer"]
  | team_verify => Some ["verifier"; "quality-reviewer"; "security-reviewer"]
  | team_fix => Some ["executor"; "build-fixer"; "debugger"]
  | complete | failed | cancelled => None
  end.

(** [getPhaseInstructions(phase)] *)
Definition getPhaseInstructions (phase : Phase) : option string :=
  match phase with
  | team_plan =>
      Some "PHASE: Planning. Use /analyst for requirements, /planner for task breakdown. Output: task list with dependencies."
  | team_prd =>
      Some "PHASE: Requirements. Use /product-manager for PRD, /analyst for acceptance criteria. Output: explicit scope and success metrics."
  | team_exec =>
      Some "PHASE: Execution. Use /executor for implementation, /test-engineer for tests. Output: working code with tests."
  | team_verify =>
      Some "PHASE: Verification. Use /verifier for evidence collection, /quality-reviewer for review. Output: pass/fail with evidence."
  | team_fix =>
      Some "PHASE: Fixing. Use /debugger for root cause, /executor for fixes. Output: fixed code, re-verify needed."
  | complete | failed | cancelled => None
  end.

(** *** Runs of the pipeline *)

(** [calls s n s']: [n] successful calls of [transitionPhase], the first on
    [s], each next one on the state the previous call returned, the last
    returning [s']. *)
Inductive calls : TeamState -> nat -> TeamState -> Prop :=
| calls_none s : calls s 0 s
| calls_more s n s1 s2 to reason now :
    calls s n s1 ->
    outcome s1 to reason now = Ok s2 ->
    calls s (S n) s2.

(** Reading a log as a walk through [TRANSITIONS]: where the walk that
    starts in [start] ends, when every record leaves the phase the walk is in
    and is a transition of the table. *)
Fixpoint walk (start : Phase) (log : list Transition) : option Phase :=
  match log with
  | [] => Some start
  | record :: rest =>
      if bool_decide (tr_from record = start)
         && isValidTransition (tr_from record) (tr_to record)
      then walk (tr_to record) rest
      else None
  end.

(** The number of records of a log that enter [team-fix]. *)
Definition fix_entries (log : list Transition) : nat :=
  length (filter (fun record => tr_to record = team_fix) log).

(** How far a phase is from the end of a round of the pipeline. *)
Definition rank (p : Phase) : Z :=
  match p with
  | team_plan => 4
  | team_prd => 3
  | team_exec => 2
  | team_verify => 1
  | team_fix => 3
  | complete | failed | cancelled => 0
  end.

(** A bound on the number of calls that can still succeed. *)
Definition calls_left (s : TeamState) : Z :=
  3 * (max_fix_attempts s - current_fix_attempt s) + rank (phase s).

(** The slash commands of a text: the words that follow a slash which
    begins a word ([ /executor] gives [executor]; the slash of [pass/fail]
    is inside a word). *)
Definition is_name_char (c : ascii) : bool :=
  let n := nat_of_ascii c in
  ((97 <=? n)%nat && (n <=? 122)%nat) || (n =? 45)%nat.

Fixpoint take_name (s : string) : string :=
  match s with
  | EmptyString => EmptyString
  | String c rest => if is_name_char c then String c (take_name rest) else EmptyString
  end.

Fixpoint slash_commands_after (previous : ascii) (s : string) : list string :=
  match s with
  | EmptyString => []
  | String c rest =>
      if Ascii.eqb c "/" && Ascii.eqb previous " "
      then take_name rest :: slash_commands_after c rest
      else slash_commands_after c rest
  end.

Definition slash_commands (s : string) : list string :=
  slash_commands_after " " s.

End Orchestrator.

(* ===================================================================== *)
(** ** The mailbox communication layer ([team/mcp-comm.ts]) *)
(* ===================================================================== *)

Module McpComm.

(** *** The store of team documents

    Documents kept under one state root (the root that [cwd] selects):
    [team/<name>/config.json] (of which the roster of worker names is used),
    [team/<name>/workers/<worker>/inbox.md] and
    [team/<name>/workers/<worker>/mailbox/*]. *)

Record MailboxMessage : Type := {
  message_id : N;
  from_worker : string;
  to_worker : string;
  body : string;
  created_at : string;
  notified_at : option string
}.

Record Store : Type := {
  rosters : gmap string (list string);
  inboxes : gmap (string * string) string;
  mailboxes : gmap (string * string) (list MailboxMessage);
  next_message_id : N
}.

Record TeamNotifierTarget : Type := {
  workerName : string;
  workerIndex : option Z;
  paneId : option string
}.

(** What the awaited notifier call comes back with: the boolean it resolves
    to, or the error it rejects with. *)
Inductive NotifyOutcome : Type :=
| Resolved (b : bool)
| Rejected (err : string).

(** [TeamNotifier]: an outside port; its answer is a function of the target
    and the message. *)
Definition TeamNotifier : Type := TeamNotifierTarget -> string -> NotifyOutcome.

(** What happened, in order. *)
Inductive Event : Type :=
| EvInboxWritten (team worker text : string)
| EvMessageStored (team worker : string) (id : N)
| EvNotify (target : TeamNotifierTarget) (message : string)
| EvMarkedNotified (team worker : string) (id : N).

Record World : Type := {
  store : Store;
  events : list Event
}.

(** The asynchronous functions of this layer act on the world. *)
Definition M (A : Type) : Type := Eff World A.

Definition mailbox_of (s : Store) (team worker : string) : list MailboxMessage :=
  mailboxes s !!! (team, worker).

Definition roster_of (s : Store) (team : string) : list string :=
  rosters s !!! team.

(** Modelled from the spec: [teamWriteWorkerInbox] of [team/team-ops.ts],
    which is not among the sources.  "an inbox (freeform instruction text,
    overwritten in place)". *)
Definition teamWriteWorkerInbox (teamName workerName inbox cwd : string) : M unit :=
  fun w =>
    ({| store :=
          {| rosters := rosters (store w);
             inboxes := <[(teamName, workerName) := inbox]> (inboxes (store w));
             mailboxes := mailboxes (store w);
             next_message_id := next_message_id (store w) |};
        events := (events w ++ [EvInboxWritten teamName workerName inbox])%list |},
     Ok tt).

(** Modelled from the spec: [teamSendMessage] of [team/team-ops.ts], which is
    not among the sources.  "MailboxMessage: unique message id, from_worker,
    to_worker, body, creation time, and notified_at"; "created once by a
    sender"; the mailbox is an "ordered list of MailboxMessage".  The unique
    id is drawn from a counter of the store. *)
Definition teamSendMessage (teamName fromWorker toWorker text cwd : string)
    (now : string) : M MailboxMessage :=
  fun w =>
    let message :=
      {| message_id := next_message_id (store w);
         from_worker := fromWorker;
         to_worker := toWorker;
         body := text;
         created_at := now;
         notified_at := None |} in
    ({| store :=
          {| rosters := rosters (store w);
             inboxes := inboxes (store w);
             mailboxes :=
               <[(teamName, toWorker) :=
                   (mailbox_of (store w) teamName toWorker ++ [message])%list]>
                 (mailboxes (store w));
             next_message_id := N.succ (next_message_id (store w)) |};
        events :=
          (events w ++ [EvMessageStored teamName toWorker (message_id message)])%list |},
     Ok message).

Fixpoint send_each (teamName fromWorker text cwd now : string)
    (recipients : list string) : M (list MailboxMessage) :=
  match recipients with
  | [] => ret []
  | toWorker :: rest =>
      await message <- teamSendMessage teamName fromWorker toWorker text cwd now ;;
      await others <- send_each teamName fromWorker text cwd now rest ;;
      ret (message :: others)
  end.

(** Modelled from the spec: [teamBroadcast] of [team/team-ops.ts], which is
    not among the sources.  "a broadcast fans out into one message per
    recipient"; "one stored message per recipient (excluding the sender)".
    The recipients are the workers of the team's roster. *)
Definition teamBroadcast (teamName fromWorker text cwd : string) (now : string)
    : M (list MailboxMessage) :=
  fun w =>
    send_each teamName fromWorker text cwd now
      (filter (fun name => name <> fromWorker) (roster_of (store w) teamName)) w.

Definition stamp (now : string) (m : MailboxMessage) : MailboxMessage :=
  {| message_id := message_id m;
     from_worker := from_worker m;
     to_worker := to_worker m;
     body := body m;
     created_at := created_at m;
     notified_at := Some now |}.

Definition stamp_by_id (id : N) (now : string) (m : MailboxMessage)
    : MailboxMessage :=
  if bool_decide (message_id m = id) then stamp now m else m.

(** Modelled from the spec: [teamMarkMessageNotified] of [team/team-ops.ts],
    which is not among the sources.  A message is "immutable except for the
    notified_at stamp"; the stamp is set on the message of the given id in the
    mailbox of the given worker. *)
Definition teamMarkMessageNotified (teamName workerName : string) (id : N)
    (cwd : string) (now : string) : M unit :=
  fun w =>
    ({| store :=
          {| rosters := rosters (store w);
             inboxes := inboxes (store w);
             mailboxes :=
               <[(teamName, workerName) :=
                   stamp_by_id id now <$> mailbox_of (store w) teamName workerName]>
                 (mailboxes (store w));
             next_message_id := next_message_id (store w) |};
        events := (events w ++ [EvMarkedNotified teamName workerName id])%list |},
     Ok tt).

(** [await params.notify(target, message)] *)
Definition call_notify (notify : TeamNotifier) (target : TeamNotifierTarget)
    (message : string) : M bool :=
  fun w =>
    let w' := {| store := store w;
                 events := (events w ++ [EvNotify target message])%list |} in
    match notify target message with
    | Resolved b => (w', Ok b)
    | Rejected e => (w', Throw e)
    end.

(** *** [mcp-comm.ts] *)

Record QueueInboxParams : Type := {
  qi_teamName : string;
  qi_workerName : string;
  qi_workerIndex : Z;
  qi_paneId : option string;
  qi_inbox : string;
  qi_triggerMessage : string;
  qi_cwd : string;
  qi_notify : TeamNotifier
}.

Definition queueInboxInstruction (params : QueueInboxParams) : M bool :=
  await _ <- teamWriteWorkerInbox (qi_teamName params) (qi_workerName params)
               (qi_inbox params) (qi_cwd params) ;;
  call_notify (qi_notify params)
    {| workerName := qi_workerName params;
       workerIndex := Some (qi_workerIndex params);
       paneId := qi_paneId params |}
    (qi_triggerMessage params).

Record QueueDirectMessageParams : Type := {
  qd_teamName : string;
  qd_fromWorker : string;
  qd_toWorker : string;
  qd_toWorkerIndex : option Z;
  qd_toPaneId : option string;
  qd_body : string;
  qd_triggerMessage : string;
  qd_cwd : string;
  qd_notify : TeamNotifier
}.

Definition queueDirectMailboxMessage (params : QueueDirectMessageParams)
    (now : string) : M unit :=
  await message <- teamSendMessage (qd_teamName params) (qd_fromWorker params)
                     (qd_toWorker params) (qd_body params) (qd_cwd params) now ;;
  await notified <- call_notify (qd_notify params)
                      {| workerName := qd_toWorker params;
                         workerIndex := qd_toWorkerIndex params;
                         paneId := qd_toPaneId params |}
                      (qd_triggerMessage params) ;;
  if notified : bool then
    teamMarkMessageNotified (qd_teamName params) (qd_toWorker params)
      (message_id message) (qd_cwd params) now
  else ret tt.

Record Recipient : Type := {
  r_workerName : string;
  r_workerIndex : Z;
  r_paneId : option string
}.

Record QueueBroadcastParams : Type := {
  qb_teamName : string;
  qb_fromWorker : string;
  qb_recipients : list Recipient;
  qb_body : string;
  qb_cwd : string;
  qb_triggerFor : string -> string;
  qb_notify : TeamNotifier
}.

(** [new Map(params.recipients.map((r) => [r.workerName, r]))]: a later entry
    of the same name replaces an earlier one. *)
Definition recipientByName (recipients : list Recipient) : gmap string Recipient :=
  foldl (fun m r => <[r_workerName r := r]> m) ∅ recipients.

(** The body of [for (const message of messages)]. *)
Fixpoint notify_each (params : QueueBroadcastParams) (now : string)
    (byName : gmap string Recipient) (messages : list MailboxMessage) : M unit :=
  match messages with
  | [] => ret tt
  | message :: rest =>
      match byName !! to_worker message with
      | None => notify_each params now byName rest
      | Some recipient =>
          await notified <- call_notify (qb_notify params)
                              {| workerName := r_workerName recipient;
                                 workerIndex := Some (r_workerIndex recipient);
                                 paneId := r_paneId recipient |}
                              (qb_triggerFor params (r_workerName recipient)) ;;
          await _ <- (if notified : bool then
                        teamMarkMessageNotified (qb_teamName params)
                          (r_workerName recipient) (message_id message)
                          (qb_cwd params) now
                      else ret tt) ;;
          notify_each params now byName rest
      end
  end.

Definition queueBroadcastMailboxMessage (params : QueueBroadcastParams)
    (now : string) : M unit :=
  await messages <- teamBroadcast (qb_teamName params) (qb_fromWorker params)
                      (qb_body params) (qb_cwd params) now ;;
  notify_each params now (recipientByName (qb_recipients params)) messages.

(** *** Notions used to state the properties *)

(** Every stored message has an id below the counter: ids drawn from the
    counter are new. *)
Definition ids_below_counter (s : Store) : Prop :=
  map_Forall (fun _ box => Forall (fun m => (message_id m < next_message_id s)%N) box)
    (mailboxes s).

(** The notifier's answer for the worker [name], when [name] is among the
    recipients of the call. *)
Definition notify_answer (params : QueueBroadcastParams) (name : string)
    : option NotifyOutcome :=
  match recipientByName (qb_recipients params) !! name with
  | None => None
  | Some recipient =>
      Some (qb_notify params
              {| workerName := r_workerName recipient;
                 workerIndex := Some (r_workerIndex recipient);
                 paneId := r_paneId recipient |}
              (qb_triggerFor params (r_workerName recipient)))
  end.

Definition notified_ok (params : QueueBroadcastParams) (name : string) : bool :=
  match notify_answer params name with
  | Some (Resolved true) => true
  | _ => false
  end.

Definition never_rejects (params : QueueBroadcastParams) (name : string) : bool :=
  match notify_answer params name with
  | Some (Rejected _) => false
  | _ => true
  end.

(** The messages a broadcast draws for the recipients [names], in order, the
    first with id [next]. *)
Fixpoint fresh_messages (fromWorker text now : string) (next : N)
    (names : list string) : list MailboxMessage :=
  match names with
  | [] => []
  | toWorker :: rest =>
      {| message_id := next;
         from_worker := fromWorker;
         to_worker := toWorker;
         body := text;
         created_at := now;
         notified_at := None |}
      :: fresh_messages fromWorker text now (N.succ next) rest
  end.

(** A broadcast message as it is left in the mailbox: stamped when the
    notifier resolved true for its recipient. *)
Definition settle (params : QueueBroadcastParams) (now : string)
    (m : MailboxMessage) : MailboxMessage :=
  if notified_ok params (to_worker m) then stamp now m else m.

(** The ids of the messages of [messages] addressed to [worker] whose
    recipient the notifier reached. *)
Definition marked_ids (params : QueueBroadcastParams) (worker : string)
    (messages : list MailboxMessage) : list N :=
  message_id <$>
    filter (fun m => to_worker m = worker /\ notified_ok params (to_worker m) = true)
      messages.

Definition stamp_marked (ids : list N) (now : string)
    (box : list MailboxMessage) : list MailboxMessage :=
  (fun m => if bool_decide (message_id m ∈ ids) then stamp now m else m) <$> box.

(** The notifier calls made so far, in order. *)
Definition notify_log (w : World) : list (TeamNotifierTarget * string) :=
  omap (fun e => match e with
                 | EvNotify target message => Some (target, message)
                 | _ => None
                 end) (events w).

(** The notifier call a broadcast makes for the worker [name], when [name]
    is among the recipients of the call. *)
Definition notify_call (params : QueueBroadcastParams) (name : string)
    : option (TeamNotifierTarget * string) :=
  match recipientByName (qb_recipients params) !! name with
  | None => None
  | Some recipient =>
      Some ({| workerName := r_workerName recipient;
               workerIndex := Some (r_workerIndex recipient);
               paneId := r_paneId recipient |},
            qb_triggerFor params (r_workerName recipient))
  end.

(** The entry of [params.recipients] for the worker [name]: the last one
    listed under that name, none when the name is not listed. *)
Definition listed (params : QueueBroadcastParams) (name : string)
    : option Recipient :=
  last (filter (fun r => r_workerName r = name) (qb_recipients params)).

(** The call [params.notify(target, params.triggerFor(...))] that the loop
    makes for a listed recipient. *)
Definition call_for (params : QueueBroadcastParams) (name : string)
    : option (TeamNotifierTarget * string) :=
  match listed params name with
  | None => None
  | Some recipient =>
      Some ({| workerName := r_workerName recipient;
               workerIndex := Some (r_workerIndex recipient);
               paneId := r_paneId recipient |},
            qb_triggerFor params (r_workerName recipient))
  end.

(** What the notifier answers to that call. *)
Definition answer_for (params : QueueBroadcastParams) (name : string)
    : option NotifyOutcome :=
  match call_for params name with
  | None => None
  | Some (target, message) => Some (qb_notify params target message)
  end.

(** The workers of [names] whose turn in the loop ends without an error: all
    of them up to the first one for whom the notifier rejects. *)
Fixpoint reached (params : QueueBroadcastParams) (names : list string)
    : list string :=
  match names with
  | [] => []
  | name :: rest =>
      match answer_for params name with
      | Some (Rejected _) => []
      | _ => name :: reached params rest
      end
  end.

(** The error of the first rejection among [names], if the notifier rejects
    for one of them. *)
Fixpoint rejection (params : QueueBroadcastParams) (names : list string)
    : option string :=
  match names with
  | [] => None
  | name :: rest =>
      match answer_for params name with
      | Some (Rejected e) => Some e
      | _ => rejection params rest
      end
  end.

(** A broadcast message whose recipient had its turn, as it is left in the
    mailbox: stamped when the notifier resolved true. *)
Definition settle_listed (params : QueueBroadcastParams) (now : string)
    (m : MailboxMessage) : MailboxMessage :=
  match answer_for params (to_worker m) with
  | Some (Resolved true) => stamp now m
  | _ => m
  end.

(** *** Worlds and notifiers used as concrete inputs *)

(** Team [alpha] with two workers; [worker-2] already holds one message. *)
Definition alpha_store : Store :=
  {| rosters := {[ "alpha" := ["worker-1"; "worker-2"] ]};
     inboxes := ∅;
     mailboxes :=
       {[ ("alpha", "worker-2") :=
            [ {| message_id := 0;
                 from_worker := "leader-fixed";
                 to_worker := "worker-2";
                 body := "earlier";
                 created_at := "t0";
                 notified_at := None |} ] ]};
     next_message_id := 1 |}.

Definition alpha_world : World := {| store := alpha_store; events := [] |}.

(** Team [beta] with three workers and empty mailboxes. *)
Definition beta_store : Store :=
  {| rosters := {[ "beta" := ["worker-1"; "worker-2"; "worker-3"] ]};
     inboxes := ∅;
     mailboxes := ∅;
     next_message_id := 0 |}.

Definition beta_world : World := {| store := beta_store; events := [] |}.

Definition notify_always (b : bool) : TeamNotifier := fun _ _ => Resolved b.

(** A notifier that reaches every pane but the one of [worker-2]. *)
Definition notify_all_but_worker2 : TeamNotifier :=
  fun target _ =>
    Resolved (negb (bool_decide (workerName target = "worker-2"))).

(** A notifier whose promise rejects for [worker-2] and resolves true for
    everybody else. *)
Definition notify_rejecting_worker2 : TeamNotifier :=
  fun target _ =>
    if bool_decide (workerName target = "worker-2")
    then Rejected "pane gone" else Resolved true.

Definition direct_to_worker2 (notify : TeamNotifier) : QueueDirectMessageParams :=
  {| qd_teamName := "alpha";
     qd_fromWorker := "worker-1";
     qd_toWorker := "worker-2";
     qd_toWorkerIndex := Some 2;
     qd_toPaneId := None;
     qd_body := "hello";
     qd_triggerMessage := "check mailbox";
     qd_cwd := "/work";
     qd_notify := notify |}.

Definition broadcast_from_worker1 (team : string) (notify : TeamNotifier)
    : QueueBroadcastParams :=
  {| qb_teamName := team;
     qb_fromWorker := "worker-1";
     qb_recipients :=
       [ {| r_workerName := "worker-1"; r_workerIndex := 1; r_paneId := None |};
         {| r_workerName := "worker-2"; r_workerIndex := 2; r_paneId := None |};
         {| r_workerName := "worker-3"; r_workerIndex := 3; r_paneId := None |} ];
     qb_body := "broadcast-body";
     qb_cwd := "/work";
     qb_triggerFor := fun workerName => "check mailbox " ++ workerName;
     qb_notify := notify |}.

End McpComm.

(* ===================================================================== *)
(** ** The team leader nudge (listed with [docs/hooks-extension.md]) *)
(* ===================================================================== *)

Module LeaderNudge.

(** *** String helpers of the JavaScript runtime *)

Definition is_space (c : ascii) : bool :=
  let n := nat_of_ascii c in
  (n =? 32)%nat || ((9 <=? n)%nat && (n <=? 13)%nat).

Fixpoint trimStart (s : string) : string :=
  match s with
  | EmptyString => EmptyString
  | String c rest => if is_space c then trimStart rest else s
  end.

(** [String.prototype.trim] (on ASCII white space). *)
Definition trim (s : string) : string :=
  String.rev (trimStart (String.rev (trimStart s))).

(** [s.split(sep)[0]] *)
Fixpoint before_sep (sep : ascii) (s : string) : string :=
  match s with
  | EmptyString => EmptyString
  | String c rest =>
      if Ascii.eqb c sep then EmptyString else String c (before_sep sep rest)
  end.

(** [s.split(sep)] *)
Fixpoint split_on (sep : ascii) (s : string) : list string :=
  match s with
  | EmptyString => [EmptyString]
  | String c rest =>
      if Ascii.eqb c sep then EmptyString :: split_on sep rest
      else match split_on sep rest with
           | [] => [String c EmptyString]
           | first :: others => String c first :: others
           end
  end.

(** Truthiness of a string: [Boolean(s)]. *)
Definition truthy (s : string) : bool := negb (String.eqb s "").

(** [a || b] on strings. *)
Definition or_else (a b : string) : string := if truthy a then a else b.

(** *** Documents and the environment *)

(** An entry of [last_nudged_by_team]: [{ at, last_message_id }]; a field
    that is missing reads as the empty string. *)
Record NudgeRecord : Type := {
  nr_at : string;
  nr_last_message_id : string
}.

(** A message of the leader's mailbox; [None] when [message_id] is not a
    string. *)
Record LeaderMessage : Type := {
  lm_message_id : option string
}.

(** What [team-state.json] of a scoped state directory holds. *)
Inductive TeamStateFile : Type :=
| StateMissing
| StateUnreadable
| StateParsed (active_is_true : bool) (team_name : string).

(** An entry written by [logTmuxHookEvent]. *)
Record HookLogEntry : Type := {
  log_timestamp : string;
  log_team : string;
  log_tmux_target : string;
  log_reason : string;
  log_pane_count : option nat;
  log_leader_stale : option bool;
  log_message_count : option nat;
  log_error : option string
}.

(** What the function reads from outside: the clock, the environment
    variable, the documents on disk, the processes it runs, and whether its
    best-effort writes go through.  [runProcess], [logTmuxHookEvent],
    [readJsonIfExists], [asNumber], [getScopedStateDirsForCurrentSession] and
    [DEFAULT_MARKER] are imported by the source from modules that are not
    among the sources; they are taken from the environment.  What a process
    run answers ([Throw] when the promise of [runProcess] rejects) is a
    function of its command line; timestamps are ISO strings, which
    [Date_parse] reads ([None] for [NaN]). *)
Record Env : Type := {
  env_OMX_TEAM_LEADER_NUDGE_MS : option Z;
  nowMs : Z;
  nowIso : string;
  Date_parse : string -> option Z;
  nudge_state_doc : option (gmap string NudgeRecord);
  scoped_team_states : Result (list TeamStateFile);
  team_tmux_session : string -> Result (option string);
  leader_mailbox : string -> Result (option (list LeaderMessage));
  runProcess : string -> list string -> Result string;
  appendFile_ok : string -> bool;
  logTmuxHookEvent_ok : bool;
  writeFile_ok : bool;
  DEFAULT_MARKER : string;
  preComputedLeaderStale : option bool
}.

(** What the function does to the outside, in order. *)
Inductive Effect : Type :=
| Ran (command : string) (args : list string)
| TeamEventAppended (team reason created_at : string)
| HookLogged (entry : HookLogEntry)
| NudgeStateWritten (doc : gmap string NudgeRecord).

(** The state of a pass: the [nudgeState.last_nudged_by_team] object it
    holds and updates, and the effects so far. *)
Record Pass : Type := {
  last_nudged_by_team : gmap string NudgeRecord;
  effects : list Effect
}.

Definition emit (e : Effect) : Eff Pass unit :=
  fun st =>
    ({| last_nudged_by_team := last_nudged_by_team st;
        effects := (effects st ++ [e])%list |}, Ok tt).

(** [await runProcess(command, args, timeout)] *)
Definition run (env : Env) (command : string) (args : list string)
    : Eff Pass string :=
  fun st =>
    ({| last_nudged_by_team := last_nudged_by_team st;
        effects := (effects st ++ [Ran command args])%list |},
     runProcess env command args).

Definition resolveLeaderNudgeIntervalMs (env : Env) : Z :=
  match env_OMX_TEAM_LEADER_NUDGE_MS env with
  | Some parsed =>
      if (10000 <=? parsed)%Z && (parsed <=? 30 * 60000)%Z then parsed else 120000
  | None => 120000
  end.

Record PaneStatus : Type := {
  alive : bool;
  paneCount : nat
}.

Definition newline : ascii := ascii_of_nat 10.

Definition checkWorkerPanesAlive (env : Env) (tmuxTarget : string)
    : Eff Pass PaneStatus :=
  let sessionName := before_sep ":" tmuxTarget in
  try_catch
    (await stdout <- run env "tmux"
                       ["list-panes"; "-t"; sessionName; "-F";
                        "#{pane_id} #{pane_pid}"] ;;
     let lines := List.filter truthy (map trim (split_on newline stdout)) in
     ret {| alive := (0 <? length lines)%nat; paneCount := length lines |})
    (fun _ => ret {| alive := false; paneCount := 0 |}).

(** Best effort: a failure of [mkdir] or [appendFile] is swallowed. *)
Definition emitTeamNudgeEvent (env : Env) (teamName reason nowIso : string)
    : Eff Pass unit :=
  if appendFile_ok env teamName
  then emit (TeamEventAppended teamName reason nowIso)
  else ret tt.

Definition logTmuxHookEvent (env : Env) (entry : HookLogEntry) : Eff Pass unit :=
  if logTmuxHookEvent_ok env
  then emit (HookLogged entry)
  else fun st => (st, Throw "log write failed").

(** [activeTeamNames]: a [Set] filled while the state files are read; a
    file that cannot be read or parsed ends the reading. *)
Definition set_add (names : list string) (name : string) : list string :=
  if bool_decide (name ∈ names) then names else (names ++ [name])%list.

Fixpoint collect_active (files : list TeamStateFile) (names : list string)
    : list string :=
  match files with
  | [] => names
  | StateMissing :: rest => collect_active rest names
  | StateUnreadable :: _ => names
  | StateParsed active_is_true team_name :: rest =>
      if negb active_is_true then collect_active rest names
      else
        let teamName := trim team_name in
        if truthy teamName then collect_active rest (set_add names teamName)
        else collect_active rest names
  end.

Definition activeTeamNames (env : Env) : list string :=
  match scoped_team_states env with
  | Ok files => collect_active files []
  | Throw _ => []
  end.

(** [tmuxTarget] of a team: the trimmed [tmux_session] of its manifest or
    config, the empty string when there is none or reading fails. *)
Definition tmux_target_of (env : Env) (teamName : string) : string :=
  match team_tmux_session env teamName with
  | Ok (Some session) => trim session
  | Ok None => ""
  | Throw _ => ""
  end.

Definition leader_messages (env : Env) (teamName : string) : list LeaderMessage :=
  match leader_mailbox env teamName with
  | Ok (Some messages) => messages
  | Ok None => []
  | Throw _ => []
  end.

Definition newest_id (messages : list LeaderMessage) : string :=
  match last messages with
  | Some newest => default "" (lm_message_id newest)
  | None => ""
  end.

Definition prev_record (nudged : gmap string NudgeRecord) (teamName : string)
    : NudgeRecord :=
  default {| nr_at := ""; nr_last_message_id := "" |} (nudged !! teamName).

Definition hasNewMessage (newestId prevMsgId : string) : bool :=
  truthy newestId && negb (String.eqb newestId prevMsgId).

Definition dueByTime (env : Env) (intervalMs : Z) (prevAtIso : string) : bool :=
  match (if truthy prevAtIso then Date_parse env prevAtIso else None) with
  | None => true
  | Some prevAtMs => (intervalMs <=? nowMs env - prevAtMs)%Z
  end.

Definition nudge_reason (stalePanesNudge hasNew : bool) : string :=
  if stalePanesNudge && hasNew then "stale_leader_with_messages"
  else if stalePanesNudge then "stale_leader_panes_alive"
  else if hasNew then "new_mailbox_message"
  else "periodic_check".

Definition nudge_text (teamName : string) (paneStatus : PaneStatus)
    (message_count : nat) (stalePanesNudge hasNew : bool) : string :=
  if stalePanesNudge && hasNew then
    "Team " ++ teamName ++ ": leader stale, " ++ pretty (paneCount paneStatus)
      ++ " pane(s) active, " ++ pretty message_count
      ++ " msg(s) pending. Run: omx team status " ++ teamName
  else if stalePanesNudge then
    "Team " ++ teamName ++ ": leader stale, " ++ pretty (paneCount paneStatus)
      ++ " worker pane(s) still active. Run: omx team status " ++ teamName
  else if hasNew then
    "Team " ++ teamName ++ ": " ++ pretty message_count
      ++ " msg(s) for leader. Run: omx team status " ++ teamName
  else
    "Team " ++ teamName ++ " active. Run: omx team status " ++ teamName.

(** [text.length > 180 ? `${text.slice(0, 177)}...` : text].  [length] and
    [slice] count UTF-16 code units where the model counts bytes: the two
    agree on a text of ASCII characters. *)
Definition cap_text (text : string) : string :=
  if (180 <? String.length text)%nat
  then String.substring 0 177 text ++ "..."
  else text.

(** [nudgeState.last_nudged_by_team[teamName] = record].  The records are
    the properties of a plain object: the assignment sets the property of
    that name, for every name but [__proto__]. *)
Definition set_last_nudged (teamName : string) (record : NudgeRecord)
    : Eff Pass unit :=
  fun st =>
    ({| last_nudged_by_team := <[teamName := record]> (last_nudged_by_team st);
        effects := effects st |}, Ok tt).

(** The [try] block of the loop body: three [send-keys] calls, then the
    update of the team's record, the team event and the log entry. *)
Definition send_nudge (env : Env) (teamName tmuxTarget markedText nudgeReason : string)
    (record : NudgeRecord) (paneStatus : PaneStatus) (leaderStale : bool)
    (message_count : nat) : Eff Pass unit :=
  await _ <- run env "tmux" ["send-keys"; "-t"; tmuxTarget; "-l"; markedText] ;;
  await _ <- run env "tmux" ["send-keys"; "-t"; tmuxTarget; "C-m"] ;;
  await _ <- run env "tmux" ["send-keys"; "-t"; tmuxTarget; "C-m"] ;;
  await _ <- set_last_nudged teamName record ;;
  await _ <- emitTeamNudgeEvent env teamName nudgeReason (nowIso env) ;;
  try_catch
    (logTmuxHookEvent env
       {| log_timestamp := nowIso env;
          log_team := teamName;
          log_tmux_target := tmuxTarget;
          log_reason := nudgeReason;
          log_pane_count := Some (paneCount paneStatus);
          log_leader_stale := Some leaderStale;
          log_message_count := Some message_count;
          log_error := None |})
    (fun _ => ret tt).

(** The body of [for (const teamName of activeTeamNames)]. *)
Definition nudge_team (env : Env) (intervalMs : Z) (leaderStale : bool)
    (teamName : string) : Eff Pass unit :=
  let tmuxTarget := tmux_target_of env teamName in
  if negb (truthy tmuxTarget) then ret tt
  else
    await paneStatus <- checkWorkerPanesAlive env tmuxTarget ;;
    fun st =>
      let messages := leader_messages env teamName in
      let newestId := newest_id messages in
      let prev := prev_record (last_nudged_by_team st) teamName in
      let prevAtIso := nr_at prev in
      let prevMsgId := nr_last_message_id prev in
      let hasNew := hasNewMessage newestId prevMsgId in
      let due := dueByTime env intervalMs prevAtIso in
      let stalePanesNudge := alive paneStatus && leaderStale in
      if negb hasNew && negb due then (st, Ok tt)
      else
        let nudgeReason := nudge_reason stalePanesNudge hasNew in
        let text := nudge_text teamName paneStatus (length messages)
                      stalePanesNudge hasNew in
        let markedText := cap_text text ++ " " ++ DEFAULT_MARKER env in
        try_catch
          (send_nudge env teamName tmuxTarget markedText nudgeReason
             {| nr_at := nowIso env;
                nr_last_message_id := or_else newestId (or_else prevMsgId "") |}
             paneStatus leaderStale (length messages))
          (fun err =>
             try_catch
               (logTmuxHookEvent env
                  {| log_timestamp := nowIso env;
                     log_team := teamName;
                     log_tmux_target := tmuxTarget;
                     log_reason := nudgeReason;
                     log_pane_count := None;
                     log_leader_stale := None;
                     log_message_count := None;
                     log_error := Some err |})
               (fun _ => ret tt))
          st.

Fixpoint for_each (teams : list string) (body : string -> Eff Pass unit)
    : Eff Pass unit :=
  match teams with
  | [] => ret tt
  | teamName :: rest => await _ <- body teamName ;; for_each rest body
  end.

(** [await writeFile(nudgeStatePath, ...).catch(() => {})] *)
Definition write_nudge_state (env : Env) : Eff Pass unit :=
  fun st =>
    if writeFile_ok env
    then emit (NudgeStateWritten (last_nudged_by_team st)) st
    else (st, Ok tt).

Definition initial_pass (env : Env) : Pass :=
  {| last_nudged_by_team := default ∅ (nudge_state_doc env);
     effects := [] |}.

(** [maybeNudgeTeamLeader({ cwd, stateDir, logsDir, preComputedLeaderStale })]:
    the pass, run from the nudge state read from disk. *)
Definition maybeNudgeTeamLeader (env : Env) : Pass * Result unit :=
  let intervalMs := resolveLeaderNudgeIntervalMs env in
  let leaderStale := default false (preComputedLeaderStale env) in
  (await _ <- for_each (activeTeamNames env)
                (nudge_team env intervalMs leaderStale) ;;
   write_nudge_state env)
    (initial_pass env).



(** *** Notions used to state the properties *)

(** What [checkWorkerPanesAlive] answers in the environment. *)
Definition pane_status (env : Env) (tmuxTarget : string) : PaneStatus :=
  match runProcess env "tmux"
          ["list-panes"; "-t"; before_sep ":" tmuxTarget; "-F";
           "#{pane_id} #{pane_pid}"] with
  | Ok stdout =>
      let lines := List.filter truthy (map trim (split_on newline stdout)) in
      {| alive := (0 <? length lines)%nat; paneCount := length lines |}
  | Throw _ => {| alive := false; paneCount := 0 |}
  end.


(** The text typed into the leader's pane. *)
Definition marked_text (env : Env) (prev : NudgeRecord) (teamName : string)
    : string :=
  let paneStatus := pane_status env (tmux_target_of env teamName) in
  let hasNew := hasNewMessage (newest_id (leader_messages env teamName))
                  (nr_last_message_id prev) in
  let stalePanesNudge :=
    alive paneStatus && default false (preComputedLeaderStale env) in
  cap_text (nudge_text teamName paneStatus
              (length (leader_messages env teamName)) stalePanesNudge hasNew)
    ++ " " ++ DEFAULT_MARKER env.





(** *** Environments used as concrete inputs *)

(** One active team [alpha] in session [omx-team-alpha], one unread message
    for the leader, no nudge recorded yet.  [tmux_up] tells whether
    [send-keys] succeeds. *)
Definition alpha_env (tmux_up : bool) : Env :=
  {| env_OMX_TEAM_LEADER_NUDGE_MS := None;
     nowMs := 1767225600000;
     nowIso := "2026-01-01T00:00:00.000Z";
     Date_parse := fun iso =>
       if String.eqb iso "2026-01-01T00:00:00.000Z" then Some 1767225600000
       else None;
     nudge_state_doc := None;
     scoped_team_states := Ok [StateParsed true "alpha"];
     team_tmux_session := fun _ => Ok (Some "omx-team-alpha");
     leader_mailbox := fun _ => Ok (Some [ {| lm_message_id := Some "m1" |} ]);
     runProcess := fun _ args =>
       match args with
       | "list-panes" :: _ => Ok "%1 4242"
       | _ => if tmux_up then Ok "" else Throw "tmux exited with code 1"
       end;
     appendFile_ok := fun _ => true;
     logTmuxHookEvent_ok := true;
     writeFile_ok := true;
     DEFAULT_MARKER := "[OMX_TMUX_INJECT]";
     preComputedLeaderStale := Some false |}.


(** *** The rest of the module *)

(** [resolveLeaderStalenessThresholdMs()]; [parsed] is what [asNumber] makes
    of [OMX_TEAM_LEADER_STALE_MS] ([None] when it is unset or no number). *)
Definition resolveLeaderStalenessThresholdMs (parsed : option Z) : Z :=
  match parsed with
  | Some parsed =>
      if (10000 <=? parsed)%Z && (parsed <=? 30 * 60000)%Z then parsed else 180000
  | None => 180000
  end.

(** [isLeaderStale(stateDir, thresholdMs, nowMs)].  [hudState] is what
    [hud-state.json] holds: [None] when there is no such document (or it is
    no object), else its [last_turn_at], the empty string when that field is
    missing or no string.  [parse] is [Date.parse]. *)
Definition isLeaderStale (parse : string -> option Z) (hudState : option string)
    (thresholdMs nowMs : Z) : bool :=
  match hudState with
  | None => true
  | Some lastTurnAt =>
      if negb (truthy lastTurnAt) then true
      else match parse lastTurnAt with
           | None => true
           | Some lastMs => (thresholdMs <=? nowMs - lastMs)%Z
           end
  end.


(** Whether a text holds ASCII characters only.  A text is kept as its
    UTF-8 bytes; on an ASCII text a byte is a UTF-16 code unit, so that
    [length] and [slice] count the same in the source, and the white space
    of [trim] and [trimEnd] is the ASCII white space. *)
Definition is_ascii_text (s : string) : bool :=
  forallb (fun c => (nat_of_ascii c <? 128)%nat) (list_ascii_of_string s).

End LeaderNudge.

(* ===================================================================== *)
(** ** The health check ([cli/doctor.ts], [cli/index.ts]) *)
(* ===================================================================== *)

Module Doctor.

(** *** String helpers of the JavaScript runtime *)

(** [s.endsWith(suffix)] *)
Definition endsWith (s suffix : string) : bool :=
  String.prefix (String.rev suffix) (String.rev s).

(** [s.includes(needle)] *)
Fixpoint str_includes (s needle : string) : bool :=
  String.prefix needle s
  || match s with
     | EmptyString => false
     | String _ rest => str_includes rest needle
     end.

(** [(s.match(/\[mcp_servers\./g) || []).length]: the number of places where
    the literal occurs (two occurrences of it cannot overlap). *)
Fixpoint count_matches (s needle : string) : nat :=
  match s with
  | EmptyString => 0
  | String _ rest =>
      ((if String.prefix needle s then 1 else 0) + count_matches rest needle)%nat
  end.

Definition digit_of (c : ascii) : option Z :=
  let n := nat_of_ascii c in
  if (48 <=? n)%nat && (n <=? 57)%nat then Some (Z.of_nat n - 48) else None.

Fixpoint digits_value (s : string) (acc : option Z) : option Z :=
  match s with
  | EmptyString => acc
  | String c rest =>
      match digit_of c with
      | Some d => digits_value rest (Some (10 * default 0 acc + d))
      | None => acc
      end
  end.

(** [parseInt(s, 10)]: leading white space, an optional sign, then the
    longest run of digits; [None] is [NaN]. *)
Definition parseInt (s : string) : option Z :=
  match LeaderNudge.trimStart s with
  | String "-" rest => Z.opp <$> digits_value rest None
  | String "+" rest => digits_value rest None
  | rest => digits_value rest None
  end.

(** [path.join(dir, name)] for a directory and a plain file name. *)
Definition join (dir name : string) : string := dir ++ "/" ++ name.

(** *** The environment *)

(** The surroundings of a run.  The five path functions are imported by the
    source from [utils/paths.js], which is not among the sources; their
    values are taken from the environment.  [tmux_list_sessions] is what the
    live multiplexer reports ([Throw] when there is no [tmux] binary); no
    check of the source reads it. *)
Record Env : Type := {
  codex_version : Result string;
  node_version : string;
  existsSync : string -> bool;
  readFile : string -> Result string;
  readdir : string -> Result (list string);
  readdir_withFileTypes : string -> Result (list (string * bool));
  tmux_list_sessions : Result (list string);
  cwd : string;
  codexHome : string;
  codexConfigPath : string;
  codexPromptsDir : string;
  userSkillsDir : string;
  omxStateDir : string
}.

Record DoctorOptions : Type := {
  verbose : bool;
  force : bool;
  dryRun : bool
}.

Inductive CheckStatus : Type := pass | warn | fail.

Record Check : Type := {
  name : string;
  status : CheckStatus;
  message : string
}.

(** *** [doctor.ts] *)

Definition checkCodexCli (env : Env) : Check :=
  match codex_version env with
  | Ok stdout =>
      {| name := "Codex CLI"; status := pass;
         message := "installed (" ++ LeaderNudge.trim stdout ++ ")" |}
  | Throw _ =>
      {| name := "Codex CLI"; status := fail;
         message := "not found - install from https://github.com/openai/codex" |}
  end.

Definition checkNodeVersion (env : Env) : Check :=
  let major := parseInt (LeaderNudge.before_sep "." (node_version env)) in
  if match major with Some m => (20 <=? m)%Z | None => false end then
    {| name := "Node.js"; status := pass; message := "v" ++ node_version env |}
  else
    {| name := "Node.js"; status := fail;
       message := "v" ++ node_version env ++ " (need >= 20)" |}.

Definition checkDirectory (env : Env) (label path : string) : Check :=
  if existsSync env path then
    {| name := label; status := pass; message := path |}
  else
    {| name := label; status := warn; message := path ++ " (not created yet)" |}.

Definition checkConfig (env : Env) : Check :=
  let configPath := codexConfigPath env in
  if negb (existsSync env configPath) then
    {| name := "Config"; status := warn; message := "config.toml not found" |}
  else
    match readFile env configPath with
    | Ok content =>
        if str_includes content "omx_" || str_includes content "oh-my-codex" then
          {| name := "Config"; status := pass;
             message := "config.toml has OMX entries" |}
        else
          {| name := "Config"; status := warn;
             message := "config.toml exists but no OMX entries" |}
    | Throw _ =>
        {| name := "Config"; status := fail; message := "cannot read config.toml" |}
    end.

Definition checkPrompts (env : Env) : Check :=
  let dir := codexPromptsDir env in
  if negb (existsSync env dir) then
    {| name := "Prompts"; status := warn; message := "prompts directory not found" |}
  else
    match readdir env dir with
    | Ok files =>
        let mdFiles := List.filter (fun f => endsWith f ".md") files in
        if (25 <=? length mdFiles)%nat then
          {| name := "Prompts"; status := pass;
             message := pretty (length mdFiles) ++ " agent prompts installed" |}
        else
          {| name := "Prompts"; status := warn;
             message := pretty (length mdFiles) ++ " prompts (expected 30+)" |}
    | Throw _ =>
        {| name := "Prompts"; status := fail;
           message := "cannot read prompts directory" |}
    end.

Definition checkSkills (env : Env) : Check :=
  let dir := userSkillsDir env in
  if negb (existsSync env dir) then
    {| name := "Skills"; status := warn; message := "skills directory not found" |}
  else
    match readdir_withFileTypes env dir with
    | Ok entries =>
        let skillDirs := List.filter (fun e => snd e) entries in
        if (20 <=? length skillDirs)%nat then
          {| name := "Skills"; status := pass;
             message := pretty (length skillDirs) ++ " skills installed" |}
        else
          {| name := "Skills"; status := warn;
             message := pretty (length skillDirs) ++ " skills (expected 30+)" |}
    | Throw _ =>
        {| name := "Skills"; status := fail;
           message := "cannot read skills directory" |}
    end.

Definition checkAgentsMd (env : Env) : Check :=
  let agentsMd := join (cwd env) "AGENTS.md" in
  if existsSync env agentsMd then
    {| name := "AGENTS.md"; status := pass; message := "found in project root" |}
  else
    {| name := "AGENTS.md"; status := warn;
       message := "not found in project root (run omx setup)" |}.

Definition checkMcpServers (env : Env) : Check :=
  let configPath := codexConfigPath env in
  if negb (existsSync env configPath) then
    {| name := "MCP Servers"; status := warn; message := "config.toml not found" |}
  else
    match readFile env configPath with
    | Ok content =>
        let mcpCount := count_matches content "[mcp_servers." in
        if (0 <? mcpCount)%nat then
          if str_includes content "omx_state" || str_includes content "omx_memory" then
            {| name := "MCP Servers"; status := pass;
               message := pretty mcpCount ++ " servers configured (OMX present)" |}
          else
            {| name := "MCP Servers"; status := warn;
               message := pretty mcpCount ++ " servers but no OMX servers" |}
        else
          {| name := "MCP Servers"; status := warn;
             message := "no MCP servers configured" |}
    | Throw _ =>
        {| name := "MCP Servers"; status := fail;
           message := "cannot read config.toml" |}
    end.

Definition icon (s : CheckStatus) : string :=
  match s with
  | pass => "[OK]"
  | warn => "[!!]"
  | fail => "[XX]"
  end.

Definition count_status (s : CheckStatus) (checks : list Check) : nat :=
  length (List.filter
            (fun c => match status c, s with
                      | pass, pass | warn, warn | fail, fail => true
                      | _, _ => false
                      end) checks).

Definition eol : string := String LeaderNudge.newline EmptyString.

Definition quote : string := String (ascii_of_nat 34) EmptyString.

Definition check_line (check : Check) : string :=
  "  " ++ icon (status check) ++ " " ++ name check ++ ": " ++ message check.

Definition results_line (passCount warnCount failCount : nat) : string :=
  eol ++ "Results: " ++ pretty passCount ++ " passed, " ++ pretty warnCount
    ++ " warnings, " ++ pretty failCount ++ " failed".

Definition advice_line (warnCount failCount : nat) : string :=
  if (0 <? failCount)%nat then
    eol ++ "Run " ++ quote ++ "omx setup" ++ quote ++ " to fix installation issues."
  else if (0 <? warnCount)%nat then
    eol ++ "Run " ++ quote ++ "omx setup --force" ++ quote
      ++ " to refresh all components."
  else
    eol ++ "All checks passed! oh-my-codex is ready.".

(** [doctor(options)]: the lines it prints with [console.log].  It returns
    normally: every read that can throw is inside a [try] of its check. *)
Definition doctor (env : Env) (options : DoctorOptions) : list string :=
  let checks :=
    [ checkCodexCli env;
      checkNodeVersion env;
      checkDirectory env "Codex home" (codexHome env);
      checkConfig env;
      checkPrompts env;
      checkSkills env;
      checkAgentsMd env;
      checkDirectory env "State dir" (omxStateDir env);
      checkMcpServers env ] in
  let passCount := count_status pass checks in
  let warnCount := count_status warn checks in
  let failCount := count_status fail checks in
  "oh-my-codex doctor"
  :: ("==================" ++ eol)
  :: (map check_line checks
      ++ [ results_line passCount warnCount failCount;
           advice_line warnCount failCount ])%list.

(** *** [cli/index.ts] *)

(** What a run of the command line leaves behind: the lines on standard
    output and the exit status of the process. *)
Record Run : Type := {
  stdout : list string;
  exit_status : Z
}.

(** [main(args)] for [args[0] = 'doctor']: the flags of [args] give the
    options [force], [dryRun] and [verbose] (no other flag is read), then
    [await doctor(options)] runs inside [try]; the process ends with status 0
    unless the [catch] arm calls [process.exit(1)], which takes a throw.  The
    other commands are not modelled ([None]). *)
Definition main (env : Env) (args : list string) : option Run :=
  let flags := List.filter (fun a => String.prefix "--" a) args in
  let has flag := existsb (String.eqb flag) flags in
  let options := {| force := has "--force";
                    dryRun := has "--dry-run";
                    verbose := has "--verbose" |} in
  match args with
  | "doctor" :: _ => Some {| stdout := doctor env options; exit_status := 0 |}
  | _ => None
  end.

(** *** The environment of the test "exits non-zero and prints
    resume_blocker when team state references missing tmux session" *)

Definition alpha_config_path : string := "/wd/.omx/state/team/alpha/config.json".

Definition alpha_config_json : string :=
  "{" ++ quote ++ "name" ++ quote ++ ":" ++ quote ++ "alpha" ++ quote ++ ","
    ++ quote ++ "tmux_session" ++ quote ++ ":" ++ quote ++ "omx-team-alpha"
    ++ quote ++ "}".

(** The working directory holds the record of team [alpha], which names the
    session [omx-team-alpha]; the multiplexer runs and reports no session.
    Codex and its home are installed. *)
Definition stale_team_env : Env :=
  {| codex_version := Ok "codex-cli 0.98.0";
     node_version := "22.3.0";
     existsSync := fun path =>
       existsb (String.eqb path)
         [ "/home/u/.codex"; "/home/u/.codex/config.toml";
           "/wd/.omx/state"; "/wd/.omx/state/team/alpha";
           alpha_config_path ];
     readFile := fun path =>
       if String.eqb path "/home/u/.codex/config.toml"
       then Ok "[mcp_servers.omx_state]"
       else if String.eqb path alpha_config_path then Ok alpha_config_json
       else Throw "ENOENT";
     readdir := fun _ => Throw "ENOENT";
     readdir_withFileTypes := fun _ => Throw "ENOENT";
     tmux_list_sessions := Ok [];
     cwd := "/wd";
     codexHome := "/home/u/.codex";
     codexConfigPath := "/home/u/.codex/config.toml";
     codexPromptsDir := "/home/u/.codex/prompts";
     userSkillsDir := "/home/u/.agents/skills";
     omxStateDir := "/wd/.omx/state" |}.

(** The environment of the test "prints orphan_tmux_session when tmux
    session exists without matching team state": no team record, and the
    multiplexer reports the session [omx-team-orphan]. *)
Definition orphan_session_env : Env :=
  {| codex_version := Ok "codex-cli 0.98.0";
     node_version := "22.3.0";
     existsSync := fun path =>
       existsb (String.eqb path)
         [ "/home/u/.codex"; "/home/u/.codex/config.toml" ];
     readFile := fun path =>
       if String.eqb path "/home/u/.codex/config.toml"
       then Ok "[mcp_servers.omx_state]"
       else Throw "ENOENT";
     readdir := fun _ => Throw "ENOENT";
     readdir_withFileTypes := fun _ => Throw "ENOENT";
     tmux_list_sessions := Ok ["omx-team-orphan"];
     cwd := "/wd";
     codexHome := "/home/u/.codex";
     codexConfigPath := "/home/u/.codex/config.toml";
     codexPromptsDir := "/home/u/.codex/prompts";
     userSkillsDir := "/home/u/.agents/skills";
     omxStateDir := "/wd/.omx/state" |}.

(** Whether some printed line carries the tag. *)
Definition prints_tag (tag : string) (run : Run) : bool :=
  existsb (fun line => str_includes line tag) (stdout run).

(** Every character of the string is a decimal digit. *)
Definition all_digits (s : string) : Prop :=
  forall c, In c (list_ascii_of_string s) -> digit_of c <> None.

End Doctor.

(* ===================================================================== *)
(** ** The configuration merge ([src/config/generator.ts]) *)
(* ===================================================================== *)

Module Generator.

(** *** String methods of the JavaScript runtime *)

(** The first position at which [needle] occurs in [s]. *)
Fixpoint first_index (s needle : string) : option nat :=
  if String.prefix needle s then Some 0%nat
  else match s with
       | EmptyString => None
       | String _ rest => S <$> first_index rest needle
       end.

(** [s.indexOf(needle)] *)
Definition indexOf (s needle : string) : Z :=
  match first_index s needle with
  | Some i => Z.of_nat i
  | None => -1
  end.

(** [s.slice(start, end)] and [s.slice(start)] for [0 <= start] and
    [0 <= end] (the only way [mergeConfig] calls it). *)
Definition slice (s : string) (start : Z) (end_ : option Z) : string :=
  let stop := default (Z.of_nat (String.length s)) end_ in
  String.substring (Z.to_nat start) (Z.to_nat (stop - start)) s.

(** [s.trimEnd()] (on ASCII white space). *)
Definition trimEnd (s : string) : string :=
  String.rev (LeaderNudge.trimStart (String.rev s)).

(** *** The host *)

(** What the merge takes from Node: [path.join], and whether
    [writeFile(path, ...)] is rejected ([Some] error) or writes. *)
Record Host : Type := {
  path_join : string -> list string -> string;
  writeFile_error : string -> option string
}.

Record MergeOptions : Type := {
  verbose : bool
}.

(** The files, as the health check reads them, and the lines printed. *)
Record World : Type := {
  fs : Doctor.Env;
  console : list string
}.

Definition console_log (line : string) : Eff World unit :=
  fun w => ({| fs := fs w; console := (console w ++ [line])%list |}, Ok tt).

(** The files after [writeFile(path, content)] has written. *)
Definition written (env : Doctor.Env) (path content : string) : Doctor.Env :=
  {| Doctor.codex_version := Doctor.codex_version env;
     Doctor.node_version := Doctor.node_version env;
     Doctor.existsSync := fun p =>
       if String.eqb p path then true else Doctor.existsSync env p;
     Doctor.readFile := fun p =>
       if String.eqb p path then Ok content else Doctor.readFile env p;
     Doctor.readdir := Doctor.readdir env;
     Doctor.readdir_withFileTypes := Doctor.readdir_withFileTypes env;
     Doctor.tmux_list_sessions := Doctor.tmux_list_sessions env;
     Doctor.cwd := Doctor.cwd env;
     Doctor.codexHome := Doctor.codexHome env;
     Doctor.codexConfigPath := Doctor.codexConfigPath env;
     Doctor.codexPromptsDir := Doctor.codexPromptsDir env;
     Doctor.userSkillsDir := Doctor.userSkillsDir env;
     Doctor.omxStateDir := Doctor.omxStateDir env |}.

Definition readFile (path : string) : Eff World string :=
  fun w => (w, Doctor.readFile (fs w) path).

Definition writeFile (host : Host) (path content : string) : Eff World unit :=
  fun w =>
    match writeFile_error host path with
    | Some err => (w, Throw err)
    | None => ({| fs := written (fs w) path content; console := console w |}, Ok tt)
    end.

(** *** [generator.ts] *)

Definition eol : string := Doctor.eol.
Definition quote : string := Doctor.quote.

Definition getOmxConfigBlock (host : Host) (pkgRoot : string) : string :=
  let stateServerPath := path_join host pkgRoot ["dist"; "mcp"; "state-server.js"] in
  let memoryServerPath := path_join host pkgRoot ["dist"; "mcp"; "memory-server.js"] in
  let notifyHookPath := path_join host pkgRoot ["scripts"; "notify-hook.js"] in
  eol
  ++ "# ============================================================" ++ eol
  ++ "# oh-my-codex (OMX) Configuration" ++ eol
  ++ "# Managed by omx setup - manual edits preserved on next setup" ++ eol
  ++ "# ============================================================" ++ eol
  ++ eol
  ++ "# OMX Developer Instructions" ++ eol
  ++ "# developer_instructions = " ++ quote
  ++ "You have oh-my-codex installed. Use /architect, /executor, /planner as "
  ++ "slash commands for specialized agent roles. Skills are available via "
  ++ "/skills." ++ quote ++ eol
  ++ eol
  ++ "# Notification hook - fires after each agent turn" ++ eol
  ++ "# notify = [" ++ quote ++ "node" ++ quote ++ ", " ++ quote
  ++ notifyHookPath ++ quote ++ "]" ++ eol
  ++ eol
  ++ "# Feature flags for sub-agent orchestration" ++ eol
  ++ "[features]" ++ eol
  ++ "collab = true" ++ eol
  ++ "child_agents_md = true" ++ eol
  ++ eol
  ++ "# OMX State Management MCP Server" ++ eol
  ++ "[mcp_servers.omx_state]" ++ eol
  ++ "command = " ++ quote ++ "node" ++ quote ++ eol
  ++ "args = [" ++ quote ++ stateServerPath ++ quote ++ "]" ++ eol
  ++ "enabled = true" ++ eol
  ++ "startup_timeout_sec = 5" ++ eol
  ++ eol
  ++ "# OMX Project Memory MCP Server" ++ eol
  ++ "[mcp_servers.omx_memory]" ++ eol
  ++ "command = " ++ quote ++ "node" ++ quote ++ eol
  ++ "args = [" ++ quote ++ memoryServerPath ++ quote ++ "]" ++ eol
  ++ "enabled = true" ++ eol
  ++ "startup_timeout_sec = 5" ++ eol.

Definition startMarker : string :=
  "# ============================================================" ++ eol
  ++ "# oh-my-codex (OMX) Configuration".

Definition endMarker : string :=
  eol ++ "# ============================================================" ++ eol
  ++ "# End oh-my-codex".

(** The body of [if (existing.includes(...))]: [existing] after it. *)
Definition without_omx_block (existing : string) : string :=
  if Doctor.str_includes existing "oh-my-codex (OMX) Configuration" then
    let startIdx := indexOf existing startMarker in
    if (0 <=? startIdx)%Z then
      let endIdx := indexOf existing endMarker in
      if (0 <=? endIdx)%Z then
        slice existing 0 (Some startIdx)
        ++ slice existing (endIdx + Z.of_nat (String.length endMarker)) None
      else slice existing 0 (Some startIdx)
    else existing
  else existing.

(** [finalConfig] for the text read from the file. *)
Definition finalConfig (host : Host) (pkgRoot existing : string) : string :=
  trimEnd (without_omx_block existing) ++ eol ++ getOmxConfigBlock host pkgRoot.

Definition mergeConfig (host : Host) (configPath pkgRoot : string)
    (options : MergeOptions) : Eff World unit :=
  await existing <-
    (fun w => if Doctor.existsSync (fs w) configPath
              then readFile configPath w
              else ret "" w) ;;
  await _ <-
    (if Doctor.str_includes existing "oh-my-codex (OMX) Configuration"
        && verbose options
     then console_log "  Updating existing OMX config block."
     else ret tt) ;;
  await _ <- writeFile host configPath (finalConfig host pkgRoot existing) ;;
  if verbose options then console_log ("  Written to " ++ configPath) else ret tt.

(** *** Notions used by the properties *)

(** Whether a proper end of [rest] is a beginning of [needle]. *)
Fixpoint border_among (needle rest : string) : bool :=
  match rest with
  | EmptyString => false
  | String _ tail =>
      (negb (String.eqb tail "") && String.prefix tail needle)
      || border_among needle tail
  end.

(** No proper end of the needle is a beginning of it. *)
Definition unbordered (needle : string) : bool :=
  negb (border_among needle needle).

(** The last character of a string. *)
Fixpoint last_char (s : string) : option ascii :=
  match s with
  | EmptyString => None
  | String c EmptyString => Some c
  | String _ rest => last_char rest
  end.

(** The text a merge starts from: the content of the file, empty when the
    file does not exist. *)
Definition text_before (env : Doctor.Env) (configPath : string) : Result string :=
  if Doctor.existsSync env configPath then Doctor.readFile env configPath
  else Ok "".

(** [path.join] on a root without a trailing slash. *)
Definition join_plain (root : string) (parts : list string) : string :=
  foldl (fun acc part => acc ++ "/" ++ part) root parts.

Definition plain_host : Host :=
  {| path_join := join_plain; writeFile_error := fun _ => None |}.

End Generator.

(* ===================================================================== *)
(** ** The mode commands of the command line ([src/cli/index.ts]) *)
(* ===================================================================== *)

Module Cli.

(** A JSON value as far as the commands observe it: its truthiness and the
    string a template literal makes of it. *)
Record Json : Type := {
  js_truthy : bool;
  js_text : string
}.

Definition js_false : Json := {| js_truthy := false; js_text := "false" |}.

Definition js_string (s : string) : Json :=
  {| js_truthy := negb (String.eqb s ""); js_text := s |}.

(** What [JSON.parse(await readFile(path))] gives for a file of the state
    directory: [Unparsable] when reading or parsing throws or the value is
    [null] (reading a property of it throws); otherwise the properties of the
    value (none for a number, a string or a boolean). *)
Inductive Doc : Type :=
| Unparsable
| Parsed (properties : gmap string Json).

(** [readdir(stateDir)], and whether [writeFile] on a file of it succeeds. *)
Record Env : Type := {
  readdir_state : Result (list string);
  writeFile_ok : string -> bool
}.

(** The files of the state directory by name, and the lines printed. *)
Record World : Type := {
  docs : gmap string Doc;
  console : list string
}.

Definition console_log (line : string) : Eff World unit :=
  fun w => ({| docs := docs w; console := (console w ++ [line])%list |}, Ok tt).

Definition throw {A} (msg : string) : Eff World A := fun w => (w, Throw msg).

(** [JSON.parse(await readFile(join(stateDir, file), 'utf-8'))] *)
Definition read_state (file : string) : Eff World (gmap string Json) :=
  fun w =>
    match docs w !! file with
    | Some (Parsed state) => (w, Ok state)
    | _ => (w, Throw "cannot read state")
    end.

(** [await writeFile(path, JSON.stringify(state, null, 2))] *)
Definition write_state (env : Env) (file : string) (state : gmap string Json)
    : Eff World unit :=
  fun w =>
    if writeFile_ok env file
    then ({| docs := <[file := Parsed state]> (docs w); console := console w |}, Ok tt)
    else (w, Throw "cannot write state").

(** Truthiness of [state.key] ([undefined] when the property is absent). *)
Definition truthy_property (state : gmap string Json) (key : string) : bool :=
  match state !! key with
  | Some v => js_truthy v
  | None => false
  end.

(** [s.replace(needle, replacement)] with a string needle: the first
    occurrence only. *)
Definition replace_first (s needle replacement : string) : string :=
  match Generator.first_index s needle with
  | Some i =>
      String.substring 0 i s ++ replacement
      ++ String.substring (i + String.length needle)
           (String.length s - (i + String.length needle)) s
  | None => s
  end.

Definition is_state_file (file : string) : bool :=
  Doctor.endsWith file "-state.json".

Definition mode_of (file : string) : string :=
  replace_first file "-state.json" "".

(** The object after the three assignments of [cancelModes]. *)
Definition cancelled_state (state : gmap string Json) (now : string)
    : gmap string Json :=
  <["completed_at" := js_string now]>
    (<["current_phase" := js_string "cancelled"]>
       (<["active" := js_false]> state)).

(** The loop of [cancelModes]; [clock k] is what [new Date().toISOString()]
    gives when [k] modes have been cancelled. *)
Fixpoint cancel_each (env : Env) (clock : nat -> string) (states : list string)
    (cancelled : nat) : Eff World nat :=
  match states with
  | [] => ret cancelled
  | file :: rest =>
      await state <- read_state file ;;
      if truthy_property state "active" then
        await _ <- write_state env file (cancelled_state state (clock cancelled)) ;;
        await _ <- console_log ("Cancelled: " ++ mode_of file) ;;
        cancel_each env clock rest (S cancelled)
      else cancel_each env clock rest cancelled
  end.

Definition cancelModes (env : Env) (clock : nat -> string) : Eff World unit :=
  try_catch
    (await files <- (fun w => (w, readdir_state env)) ;;
     let states := List.filter is_state_file files in
     await cancelled <- cancel_each env clock states 0 ;;
     if (cancelled =? 0)%nat then console_log "No active modes to cancel."
     else ret tt)
    (fun _ => console_log "No active modes to cancel.").

(** [state.current_phase || 'n/a'] inside the template literal. *)
Definition phase_text (state : gmap string Json) : string :=
  if truthy_property state "current_phase"
  then default "" (js_text <$> state !! "current_phase")
  else "n/a".

Definition status_line (file : string) (state : gmap string Json) : string :=
  mode_of file ++ ": "
  ++ (if truthy_property state "active" then "ACTIVE" else "inactive")
  ++ " (phase: " ++ phase_text state ++ ")".

Fixpoint status_each (states : list string) : Eff World unit :=
  match states with
  | [] => ret tt
  | file :: rest =>
      await state <- read_state file ;;
      await _ <- console_log (status_line file state) ;;
      status_each rest
  end.

Definition showStatus (env : Env) : Eff World unit :=
  try_catch
    (await files <- (fun w => (w, readdir_state env)) ;;
     let states := List.filter is_state_file files in
     if (length states =? 0)%nat then console_log "No active modes."
     else status_each states)
    (fun _ => console_log "No active modes.").

(** *** Notions used by the properties *)

(** Whether the file holds a state whose [active] is truthy. *)
Definition is_active (files : gmap string Doc) (file : string) : bool :=
  match files !! file with
  | Some (Parsed state) => truthy_property state "active"
  | _ => false
  end.

Definition readable (files : gmap string Doc) (file : string) : Prop :=
  exists state, files !! file = Some (Parsed state).

(** The properties of the state in a file (none when it cannot be read). *)
Definition state_of (files : gmap string Doc) (file : string) : gmap string Json :=
  match files !! file with
  | Some (Parsed state) => state
  | _ => ∅
  end.

Definition cancel_line (file : string) : string := "Cancelled: " ++ mode_of file.

(** The line of [omx status] for an inactive mode. *)
Definition inactive_line (file phase : string) : string :=
  mode_of file ++ ": inactive (phase: " ++ phase ++ ")".

(** Two modes, [team] active and [ralph] finished, and a file that is not a
    state file. *)
Definition two_modes : World :=
  {| docs :=
       <["team-state.json" :=
           Parsed (<["active" := {| js_truthy := true; js_text := "true" |}]>
                     (<["current_phase" := js_string "team-exec"]> ∅))]>
         (<["ralph-state.json" :=
              Parsed (<["active" := js_false]>
                        (<["current_phase" := js_string "complete"]> ∅))]> ∅);
     console := [] |}.

Definition two_modes_env : Env :=
  {| readdir_state := Ok ["ralph-state.json"; "notes.txt"; "team-state.json"];
     writeFile_ok := fun _ => true |}.

End Cli.

(* ===================================================================== *)
(** ** The installer ([cli/setup.ts]) *)
(* ===================================================================== *)

Module Setup.

Inductive Node : Type :=
| File (content : string)
| Directory.

Definition isFile (node : Node) : bool :=
  match node with File _ => true | Directory => false end.

Record SetupOptions : Type := {
  force : bool;
  dryRun : bool;
  verbose : bool
}.

(** The listing of the source directory, read once before the loop, and the
    error with which [copyFile(src, dst)] is rejected, if it is. *)
Record Env : Type := {
  readdir : string -> Result (list string);
  copyFile_error : string -> string -> option string
}.

(** The file system by path, and the lines printed. *)
Record World : Type := {
  fs : gmap string Node;
  console : list string
}.

Definition existsSync (w : World) (path : string) : bool :=
  bool_decide (is_Some (fs w !! path)).

Definition console_log (line : string) : Eff World unit :=
  fun w => ({| fs := fs w; console := (console w ++ [line])%list |}, Ok tt).

(** [await stat(path)] *)
Definition stat (path : string) : Eff World Node :=
  fun w =>
    match fs w !! path with
    | Some node => (w, Ok node)
    | None => (w, Throw "ENOENT")
    end.

(** [await copyFile(src, dst)]: the content of the file [src] becomes the
    content of [dst]; a missing source or a directory on either side is an
    error. *)
Definition copyFile (env : Env) (src dst : string) : Eff World unit :=
  fun w =>
    match copyFile_error env src dst, fs w !! src, fs w !! dst with
    | Some err, _, _ => (w, Throw err)
    | None, Some (File content), (None | Some (File _)) =>
        ({| fs := <[dst := File content]> (fs w); console := console w |}, Ok tt)
    | None, _, _ => (w, Throw "cannot copy")
    end.

(** The loop of [installDirectory]. *)
Fixpoint install_each (env : Env) (srcDir dstDir ext : string)
    (options : SetupOptions) (files : list string) (count : nat)
    : Eff World nat :=
  match files with
  | [] => ret count
  | file :: rest =>
      if negb (Doctor.endsWith file ext)
      then install_each env srcDir dstDir ext options rest count
      else
        let src := Doctor.join srcDir file in
        let dst := Doctor.join dstDir file in
        await srcStat <- stat src ;;
        if negb (isFile srcStat)
        then install_each env srcDir dstDir ext options rest count
        else fun w =>
          if force options || negb (existsSync w dst) then
            (await _ <- (if negb (dryRun options) then copyFile env src dst
                         else ret tt) ;;
             await _ <- (if verbose options then console_log ("  " ++ file)
                         else ret tt) ;;
             install_each env srcDir dstDir ext options rest (S count)) w
          else install_each env srcDir dstDir ext options rest count w
  end.

Definition installDirectory (env : Env) (srcDir dstDir ext : string)
    (options : SetupOptions) : Eff World nat :=
  fun w =>
    if negb (existsSync w srcDir) then (w, Ok 0%nat)
    else
      (await files <- (fun w0 => (w0, readdir env srcDir)) ;;
       install_each env srcDir dstDir ext options files 0) w.

(** *** The rest of [setup.ts] *)

(** The surroundings of [setup]: the listings and copies of
    [installDirectory], the listings with file types, what
    [mkdir(dir, {recursive: true})] makes of the files, [path.join] and
    [writeFile] as [mergeConfig] uses them, the package root and the
    directories of [utils/paths.js]. *)
Record Machine : Type := {
  files_env : Env;
  readdir_withFileTypes : string -> Result (list (string * bool));
  mkdir : gmap string Node -> string -> Result (gmap string Node);
  host : Generator.Host;
  pkgRoot : string;
  codexHome : string;
  codexConfigPath : string;
  codexPromptsDir : string;
  userSkillsDir : string;
  omxStateDir : string;
  omxPlansDir : string;
  omxLogsDir : string;
  cwd : string
}.

(** [await mkdir(dir, { recursive: true })] *)
Definition mkdir_recursive (m : Machine) (dir : string) : Eff World unit :=
  fun w =>
    match mkdir m (fs w) dir with
    | Ok files => ({| fs := files; console := console w |}, Ok tt)
    | Throw err => (w, Throw err)
    end.

(** [await readFile(path, 'utf-8')] *)
Definition readFile (path : string) : Eff World string :=
  fun w =>
    match fs w !! path with
    | Some (File content) => (w, Ok content)
    | _ => (w, Throw "cannot read")
    end.

(** [await writeFile(path, content)] *)
Definition writeFile (m : Machine) (path content : string) : Eff World unit :=
  fun w =>
    match Generator.writeFile_error (host m) path, fs w !! path with
    | Some err, _ => (w, Throw err)
    | None, Some Directory => (w, Throw "EISDIR")
    | None, _ => ({| fs := <[path := File content]> (fs w); console := console w |},
                  Ok tt)
    end.

(** The first loop of [setup]. *)
Fixpoint make_dirs (m : Machine) (options : SetupOptions) (dirs : list string)
    : Eff World unit :=
  match dirs with
  | [] => ret tt
  | dir :: rest =>
      await _ <- (if negb (dryRun options) then mkdir_recursive m dir else ret tt) ;;
      await _ <- (if verbose options then console_log ("  mkdir " ++ dir)
                  else ret tt) ;;
      make_dirs m options rest
  end.

(** The inner loop of [installSkills]: the files of one skill. *)
Fixpoint copy_skill_files (m : Machine) (skillSrc skillDst : string)
    (skillFiles : list string) : Eff World unit :=
  match skillFiles with
  | [] => ret tt
  | sf :: rest =>
      let sfPath := Doctor.join skillSrc sf in
      await sfStat <- stat sfPath ;;
      await _ <- (if isFile sfStat
                  then copyFile (files_env m) sfPath (Doctor.join skillDst sf)
                  else ret tt) ;;
      copy_skill_files m skillSrc skillDst rest
  end.

(** The loop of [installSkills]. *)
Fixpoint install_skills_each (m : Machine) (srcDir dstDir : string)
    (options : SetupOptions) (entries : list (string * bool)) (count : nat)
    : Eff World nat :=
  match entries with
  | [] => ret count
  | (name, isDirectory) :: rest =>
      if negb isDirectory
      then install_skills_each m srcDir dstDir options rest count
      else
        let skillSrc := Doctor.join srcDir name in
        let skillDst := Doctor.join dstDir name in
        let skillMd := Doctor.join skillSrc "SKILL.md" in
        fun w =>
          if negb (existsSync w skillMd)
          then install_skills_each m srcDir dstDir options rest count w
          else
            (await _ <-
               (if negb (dryRun options) then
                  await _ <- mkdir_recursive m skillDst ;;
                  await skillFiles <- (fun w0 => (w0, readdir (files_env m) skillSrc)) ;;
                  copy_skill_files m skillSrc skillDst skillFiles
                else ret tt) ;;
             await _ <- (if verbose options then console_log ("  " ++ name ++ "/")
                         else ret tt) ;;
             install_skills_each m srcDir dstDir options rest (S count)) w
  end.

Definition installSkills (m : Machine) (srcDir dstDir : string)
    (options : SetupOptions) : Eff World nat :=
  fun w =>
    if negb (existsSync w srcDir) then (w, Ok 0%nat)
    else
      (await entries <- (fun w0 => (w0, readdir_withFileTypes m srcDir)) ;;
       install_skills_each m srcDir dstDir options entries 0) w.

(** [mergeConfig(configPath, pkgRoot, { verbose })] of [config/generator.ts]
    on these files. *)
Definition mergeConfig (m : Machine) (configPath : string) (verbose_ : bool)
    : Eff World unit :=
  await existing <-
    (fun w => if existsSync w configPath then readFile configPath w
              else ret "" w) ;;
  await _ <-
    (if Doctor.str_includes existing "oh-my-codex (OMX) Configuration" && verbose_
     then console_log "  Updating existing OMX config block."
     else ret tt) ;;
  await _ <- writeFile m configPath
               (Generator.finalConfig (host m) (pkgRoot m) existing) ;;
  if verbose_ then console_log ("  Written to " ++ configPath) else ret tt.

Definition setupNotifyHook (m : Machine) (options : SetupOptions)
    : Eff World unit :=
  let hookScript :=
    Generator.path_join (host m) (pkgRoot m) ["scripts"; "notify-hook.js"] in
  fun w =>
    if negb (existsSync w hookScript) then
      (if verbose options
       then console_log "  Notify hook script not found, skipping."
       else ret tt) w
    else
      (if verbose options then console_log ("  Notify hook: " ++ hookScript)
       else ret tt) w.

(** Step 5 of [setup]. *)
Definition generate_agents_md (m : Machine) (options : SetupOptions)
    : Eff World unit :=
  let agentsMdSrc :=
    Generator.path_join (host m) (pkgRoot m) ["templates"; "AGENTS.md"] in
  let agentsMdDst := Generator.path_join (host m) (cwd m) ["AGENTS.md"] in
  fun w =>
    if existsSync w agentsMdSrc then
      if force options || negb (existsSync w agentsMdDst) then
        (await _ <-
           (if negb (dryRun options) then
              await content <- readFile agentsMdSrc ;;
              writeFile m agentsMdDst content
            else ret tt) ;;
         console_log "  Generated AGENTS.md in project root.") w
      else console_log "  AGENTS.md already exists (use --force to overwrite)." w
    else console_log "  AGENTS.md template not found, skipping." w.

Definition setup (m : Machine) (options : SetupOptions) : Eff World unit :=
  await _ <- console_log "oh-my-codex setup" ;;
  await _ <- console_log ("=================" ++ Doctor.eol) ;;
  await _ <- console_log "[1/6] Creating directories..." ;;
  await _ <- make_dirs m options
               [codexHome m; codexPromptsDir m; userSkillsDir m;
                omxStateDir m; omxPlansDir m; omxLogsDir m] ;;
  await _ <- console_log ("  Done." ++ Doctor.eol) ;;
  await _ <- console_log "[2/6] Installing agent prompts..." ;;
  await promptCount <-
    installDirectory (files_env m)
      (Generator.path_join (host m) (pkgRoot m) ["prompts"])
      (codexPromptsDir m) ".md" options ;;
  await _ <- console_log ("  Installed " ++ pretty promptCount ++ " agent prompts."
                          ++ Doctor.eol) ;;
  await _ <- console_log "[3/6] Installing skills..." ;;
  await skillCount <-
    installSkills m (Generator.path_join (host m) (pkgRoot m) ["skills"])
      (userSkillsDir m) options ;;
  await _ <- console_log ("  Installed " ++ pretty skillCount ++ " skills."
                          ++ Doctor.eol) ;;
  await _ <- console_log "[4/6] Updating config.toml..." ;;
  await _ <- (if negb (dryRun options)
              then mergeConfig m (codexConfigPath m) (verbose options)
              else ret tt) ;;
  await _ <- console_log ("  Done." ++ Doctor.eol) ;;
  await _ <- console_log "[5/6] Generating AGENTS.md..." ;;
  await _ <- generate_agents_md m options ;;
  await _ <- console_log "" ;;
  await _ <- console_log "[6/6] Configuring notification hook..." ;;
  await _ <- setupNotifyHook m options ;;
  await _ <- console_log ("  Done." ++ Doctor.eol) ;;
  await _ <- console_log ("Setup complete! Run " ++ Doctor.quote ++ "omx doctor"
                          ++ Doctor.quote ++ " to verify installation.") ;;
  await _ <- console_log (Doctor.eol ++ "Next steps:") ;;
  await _ <- console_log "  1. Start Codex CLI in your project directory" ;;
  await _ <- console_log "  2. Use /architect, /executor, /planner as slash commands" ;;
  await _ <- console_log "  3. Skills are available via /skills or implicit matching" ;;
  console_log "  4. The AGENTS.md orchestration brain is loaded automatically".

(** A step that changes no file, whatever it prints or returns. *)
Definition keeps_files {A} (step : Eff World A) : Prop :=
  forall w, fs (fst (step w)) = fs w.

(** *** Notions used by the properties *)

(** What a run that returns leaves behind: every listed file with the
    extension has a source, and where the source is a file the destination
    exists. *)
Definition settled (srcDir dstDir ext : string) (files : list string)
    (w : World) : Prop :=
  forall file, file ∈ files -> Doctor.endsWith file ext = true ->
    exists node, fs w !! Doctor.join srcDir file = Some node
                 /\ (isFile node = true ->
                     is_Some (fs w !! Doctor.join dstDir file)).

(** Whether the loop installs the listed file, judged in the world [w]. *)
Definition wanted (srcDir dstDir ext : string) (options : SetupOptions)
    (w : World) (file : string) : bool :=
  Doctor.endsWith file ext
  && match fs w !! Doctor.join srcDir file with
     | Some (File _) => true
     | _ => false
     end
  && (force options || negb (existsSync w (Doctor.join dstDir file))).

(** The lines a run prints for the files it installs. *)
Definition install_lines (options : SetupOptions) (installed : list string)
    : list string :=
  if verbose options then map (fun file => "  " ++ file) installed else [].

Definition with_dryRun (options : SetupOptions) (dry : bool) : SetupOptions :=
  {| force := force options; dryRun := dry; verbose := verbose options |}.

(** *** A package with two prompts and a user who edited one of them *)

Definition prompts_env : Env :=
  {| readdir := fun _ => Ok ["architect.md"; "README.txt"; "planner.md"];
     copyFile_error := fun _ _ => None |}.

Definition edited_prompt_world : World :=
  {| fs :=
       <["/pkg/prompts" := Directory]>
         (<["/pkg/prompts/architect.md" := File "architect v2"]>
            (<["/pkg/prompts/README.txt" := File "notes"]>
               (<["/pkg/prompts/planner.md" := File "planner v2"]>
                  (<["/home/u/.codex/prompts/architect.md" := File "my own architect"]>
                     ∅))));
     console := [] |}.

Definition keep_options : SetupOptions :=
  {| force := false; dryRun := false; verbose := false |}.

(** A machine with that package installed under [/pkg]. *)
Definition package_machine : Machine :=
  {| files_env := prompts_env;
     readdir_withFileTypes := fun _ => Ok [("autopilot", true); ("README.md", false)];
     mkdir := fun files dir => Ok (<[dir := Directory]> files);
     host := Generator.plain_host;
     pkgRoot := "/pkg";
     codexHome := "/home/u/.codex";
     codexConfigPath := "/home/u/.codex/config.toml";
     codexPromptsDir := "/home/u/.codex/prompts";
     userSkillsDir := "/home/u/.agents/skills";
     omxStateDir := "/wd/.omx/state";
     omxPlansDir := "/wd/.omx/plans";
     omxLogsDir := "/wd/.omx/logs";
     cwd := "/wd" |}.

End Setup.

(* ===================================================================== *)
(** ** The update check ([cli/update.ts]) *)
(* ===================================================================== *)

Module Update.

(** [Number(digits)] for a run of decimal digits that reads as [n]: the
    double nearest to [n] (ties to even), as an integer; [Infinity] is
    [2 ^ 1024].  Numbers below [2 ^ 53] are exact. *)
Definition to_double (n : Z) : Z :=
  if (n <? 2 ^ 53)%Z then n
  else
    let e := Z.log2 n - 52 in
    let q := n / 2 ^ e in
    let r := n mod 2 ^ e in
    let half := 2 ^ (e - 1) in
    let q' := if (r <? half)%Z then q
              else if (half <? r)%Z then q + 1
              else if Z.even q then q else q + 1 in
    let v := q' * 2 ^ e in
    if (2 ^ 1024 <=? v)%Z then 2 ^ 1024 else v.

Definition Number (digits : string) : Z :=
  to_double (default 0 (Doctor.digits_value digits None)).

(** The longest run of decimal digits at the start, and what follows it. *)
Fixpoint take_digits (s : string) : string * string :=
  match s with
  | EmptyString => (EmptyString, EmptyString)
  | String c rest =>
      match Doctor.digit_of c with
      | Some _ => let (digits, after) := take_digits rest in (String c digits, after)
      | None => (EmptyString, s)
      end
  end.

(** [(\d+)\.] at the start of [s]: the digits and what follows the dot. *)
Definition digits_dot (s : string) : option (string * string) :=
  match take_digits s with
  | (String c digits, String "." after) => Some (String c digits, after)
  | _ => None
  end.

(** [version.trim().match(/^v?(\d+)\.(\d+)\.(\d+)$/)] and the three
    [Number]s. *)
Definition parseSemver (version : string) : option (Z * Z * Z) :=
  let s := LeaderNudge.trim version in
  let s := match s with String "v" rest => rest | _ => s end in
  match digits_dot s with
  | Some (major, s1) =>
      match digits_dot s1 with
      | Some (minor, s2) =>
          match take_digits s2 with
          | (String c patch, EmptyString) =>
              Some (Number major, Number minor, Number (String c patch))
          | _ => None
          end
      | None => None
      end
  | None => None
  end.

Definition isNewerVersion (current latest : string) : bool :=
  match parseSemver current, parseSemver latest with
  | Some (c0, c1, c2), Some (l0, l1, l2) =>
      if negb (l0 =? c0)%Z then (c0 <? l0)%Z
      else if negb (l1 =? c1)%Z then (c1 <? l1)%Z
      else (c2 <? l2)%Z
  | _, _ => false
  end.

Definition CHECK_INTERVAL_MS : Z := 12 * 60 * 60 * 1000.

(** [UpdateState] as the check reads it: a property is [None] when it is
    absent. *)
Record UpdateState : Type := {
  last_checked_at : option string;
  last_seen_latest : option string
}.

(** [Date_parse] gives [None] for a text that [Date.parse] maps to [NaN]. *)
Definition shouldCheckForUpdates (Date_parse : string -> option Z) (nowMs : Z)
    (state : option UpdateState) (intervalMs : Z) : bool :=
  match state with
  | Some {| last_checked_at := Some checked |} =>
      if negb (LeaderNudge.truthy checked) then true
      else
        match Date_parse checked with
        | Some last => (intervalMs <=? nowMs - last)%Z
        | None => true
        end
  | _ => true
  end.

(** The result of [runGlobalUpdate]. *)
Record InstallResult : Type := {
  ok : bool;
  stderr : string
}.

(** The surroundings of a launch: the two environment variables, the clock,
    the state file as [readUpdateState] returns it ([None] for a missing or
    unreadable file), the version of the installed package and the version
    the registry reports ([None] where the source has [null]), whether the
    state file can be written, the answer to the prompt and the outcome of
    [npm install -g]. *)
Record Env : Type := {
  OMX_AUTO_UPDATE : option string;
  OMX_AUTO_UPDATE_PROMPT : option string;
  nowMs : Z;
  toISOString : Z -> string;
  Date_parse : string -> option Z;
  readUpdateState : option UpdateState;
  getCurrentVersion : option string;
  fetchLatestVersion : option string;
  writeUpdateState_ok : bool;
  askYesNo : bool;
  runGlobalUpdate : InstallResult
}.

Inductive Effect : Type :=
| Fetched
| StateWritten (state : UpdateState)
| Logged (line : string)
| Asked
| Installed
| Notified (title message type : string).

Definition emit (e : Effect) : Eff (list Effect) unit :=
  fun effects => ((effects ++ [e])%list, Ok tt).

Definition writeUpdateState (env : Env) (state : UpdateState)
    : Eff (list Effect) unit :=
  if writeUpdateState_ok env then emit (StateWritten state)
  else fun effects => (effects, Throw "cannot write update state").

(** [value || fallback] for a string that may be [null]. *)
Definition or_else (value fallback : option string) : option string :=
  match value with
  | Some s => if LeaderNudge.truthy s then Some s else fallback
  | None => fallback
  end.

Definition is_truthy (value : option string) : bool :=
  match value with
  | Some s => LeaderNudge.truthy s
  | None => false
  end.

Definition maybeCheckAndPromptUpdate (env : Env) : Eff (list Effect) unit :=
  if bool_decide (OMX_AUTO_UPDATE env = Some "0") then ret tt
  else
    let promptForApproval := bool_decide (OMX_AUTO_UPDATE_PROMPT env = Some "1") in
    let now := nowMs env in
    let state := readUpdateState env in
    if negb (shouldCheckForUpdates (Date_parse env) now state CHECK_INTERVAL_MS)
    then ret tt
    else
      await _ <- emit Fetched ;;
      let current := getCurrentVersion env in
      let latest := fetchLatestVersion env in
      await _ <- writeUpdateState env
                   {| last_checked_at := Some (toISOString env now);
                      last_seen_latest :=
                        or_else latest
                          (match state with
                           | Some s => last_seen_latest s
                           | None => None
                           end) |} ;;
      if negb (is_truthy current) || negb (is_truthy latest)
         || negb (isNewerVersion (default "" current) (default "" latest))
      then ret tt
      else
        let current := default "" current in
        let latest := default "" latest in
        await _ <- emit (Logged ("[omx] Update available: v" ++ current ++ " -> v"
                                 ++ latest ++ ".")) ;;
        await approved <-
          (if promptForApproval
           then await _ <- emit Asked ;; ret (askYesNo env)
           else ret true) ;;
        if negb approved then
          emit (Notified "OMX Update Available"
                  ("New version available: v" ++ current ++ " -> v" ++ latest ++ ".")
                  "info")
        else
          await _ <- emit (Logged "[omx] Running: npm install -g oh-my-codex@latest") ;;
          await _ <- emit Installed ;;
          let result := runGlobalUpdate env in
          if ok result then
            await _ <- emit (Logged ("[omx] Auto-update complete: v" ++ latest)) ;;
            emit (Notified "OMX Updated"
                    ("Updated oh-my-codex from v" ++ current ++ " to v" ++ latest
                     ++ ". Restart sessions to use new code.")
                    "success")
          else
            await _ <- emit (Logged "[omx] Auto-update failed. Run manually: npm install -g oh-my-codex@latest") ;;
            emit (Notified "OMX Update Available"
                    ("v" ++ current ++ " -> v" ++ latest ++ ". Auto-update failed: "
                     ++ (if LeaderNudge.truthy (stderr result) then stderr result
                         else "unknown error"))
                    "warning").

(** *** Notions used by the properties *)

(** The surroundings of the next launch: the clock has moved on and the
    state file is the one the last launch wrote, if it wrote one. *)
Definition next_launch (env : Env) (effects : list Effect) (laterMs : Z) : Env :=
  {| OMX_AUTO_UPDATE := OMX_AUTO_UPDATE env;
     OMX_AUTO_UPDATE_PROMPT := OMX_AUTO_UPDATE_PROMPT env;
     nowMs := laterMs;
     toISOString := toISOString env;
     Date_parse := Date_parse env;
     readUpdateState :=
       default (readUpdateState env)
         (Some <$> last (omap (fun e => match e with
                                        | StateWritten s => Some s
                                        | _ => None
                                        end) effects));
     getCurrentVersion := getCurrentVersion env;
     fetchLatestVersion := fetchLatestVersion env;
     writeUpdateState_ok := writeUpdateState_ok env;
     askYesNo := askYesNo env;
     runGlobalUpdate := runGlobalUpdate env |}.

Definition is_installed (e : Effect) : bool :=
  match e with Installed => true | _ => false end.

(** A launch with version 0.9.12 installed while the registry has 0.10.0,
    twelve hours and more after the last check. *)
Definition outdated_env : Env :=
  {| OMX_AUTO_UPDATE := None;
     OMX_AUTO_UPDATE_PROMPT := None;
     nowMs := 1767225600000;
     toISOString := fun _ => "2026-01-01T00:00:00.000Z";
     Date_parse := fun s =>
       if String.eqb s "2026-01-01T00:00:00.000Z" then Some 1767225600000
       else if String.eqb s "2025-12-31T00:00:00.000Z" then Some 1767139200000
       else None;
     readUpdateState :=
       Some {| last_checked_at := Some "2025-12-31T00:00:00.000Z";
               last_seen_latest := Some "0.9.12" |};
     getCurrentVersion := Some "0.9.12";
     fetchLatestVersion := Some "0.10.0";
     writeUpdateState_ok := true;
     askYesNo := false;
     runGlobalUpdate := {| ok := true; stderr := "" |} |}.

(** The text of version [major.minor.patch]. *)
Definition version_text (major minor patch : nat) : string :=
  pretty major ++ "." ++ pretty minor ++ "." ++ pretty patch.

(** The order of versions: by major, then minor, then patch. *)
Definition older (a b : nat * nat * nat) : Prop :=
  let '(a0, a1, a2) := a in
  let '(b0, b1, b2) := b in
  (a0 < b0 \/ (a0 = b0 /\ (a1 < b1 \/ (a1 = b1 /\ a2 < b2))))%nat.

End Update.

(* ===================================================================== *)
(** * Properties *)
(* ===================================================================== *)

(** ** Properties of the phase state machine *)

Module OrchestratorFacts.
Import Orchestrator.

(** The table [TRANSITIONS] of the source is the table of the specification. *)
Lemma isValidTransition_decides_table (from to : Phase) :
  isValidTransition from to = bool_decide (in_spec_table from to).
Proof. destruct from, to; vm_compute; reflexivity. Qed.

Lemma isValidTransition_spec_table (from to : Phase) :
  isValidTransition from to = true <-> in_spec_table from to.
Proof.
  rewrite isValidTransition_decides_table. apply bool_decide_eq_true.
Qed.

Lemma isValidTransition_not_spec_table (from to : Phase) :
  isValidTransition from to = false <-> ~ in_spec_table from to.
Proof.
  rewrite isValidTransition_decides_table. apply bool_decide_eq_false.
Qed.

Lemma isValidTransition_terminal (from to : Phase) :
  terminal from -> isValidTransition from to = false.
Proof. by intros [-> | [-> | ->]]. Qed.

Lemma isValidTransition_same_phase (p : Phase) : isValidTransition p p = false.
Proof. by destruct p. Qed.

(** Off the entry into [team-fix], the argument object is left as it was. *)
Lemma argument_after_unchanged (state : TeamState) (to : Phase)
    (reason : option string) (now : string) :
  to <> team_fix \/ isValidTransition (phase state) to = false
    \/ max_fix_attempts state <= current_fix_attempt state ->
  argument_after state to reason now = state.
Proof.
  unfold argument_after, transitionPhase. intros H.
  destruct (isValidTransition (phase state) to) eqn:Hv; simpl; [| done].
  case_bool_decide as Hfix; [| done].
  case_bool_decide as Hover; [done |].
  destruct H as [H | [H | H]]; [done | done | lia].
Qed.

(** On the entry into [team-fix] the counter of the argument object itself
    is incremented. *)
Lemma argument_after_fix_entry (state : TeamState)
    (reason : option string) (now : string) :
  isValidTransition (phase state) team_fix = true ->
  current_fix_attempt state < max_fix_attempts state ->
  argument_after state team_fix reason now = bump_fix_attempt state.
Proof.
  unfold argument_after, transitionPhase. intros -> Hlt. simpl.
  case_bool_decide; [lia | done].
Qed.

Lemma moveToVerify_fresh_team :
  moveToVerify (createTeamState "immutable" None "t0") "t1"
  = Ok verify_of_fresh_team.
Proof. reflexivity. Qed.

(** C1 (evaluation of the code at the failing input).  On the state the test
    suite builds ([createTeamState('immutable')] moved to [team-verify]) the
    call [transitionPhase(verify, 'team-fix', 'needs fixes')] returns a state
    in [team-fix] with counter 1, and the argument object [verify] itself has
    [current_fix_attempt] equal to 1 after the call, where it was 0 before:
    the argument is not left unchanged. *)
Theorem transitionPhase_fix_entry_writes_argument :
  current_fix_attempt verify_of_fresh_team = 0
  /\ current_fix_attempt
       (argument_after verify_of_fresh_team team_fix (Some "needs fixes") "t2") = 1
  /\ argument_after verify_of_fresh_team team_fix (Some "needs fixes") "t2"
     <> verify_of_fresh_team
  /\ exists entered,
       outcome verify_of_fresh_team team_fix (Some "needs fixes") "t2" = Ok entered
       /\ phase entered = team_fix /\ current_fix_attempt entered = 1.
Proof.
  split; [reflexivity |]. split; [reflexivity |]. split.
  - intros H. apply (f_equal current_fix_attempt) in H. discriminate H.
  - eexists. split; [reflexivity |]. split; reflexivity.
Qed.

(** What a successful call returns, by cases. *)
Lemma outcome_valid (state : TeamState) (to : Phase)
    (reason : option string) (now : string) :
  isValidTransition (phase state) to = true ->
  outcome state to reason now =
    if bool_decide (to = team_fix) then
      if bool_decide (max_fix_attempts state <= current_fix_attempt state) then
        Ok (spread_with state failed false
              {| tr_from := phase state; tr_to := failed; tr_at := now;
                 tr_reason := Some "Max fix attempts exceeded" |})
      else
        Ok (spread_with (bump_fix_attempt state) team_fix true
              {| tr_from := phase state; tr_to := team_fix; tr_at := now;
                 tr_reason := reason |})
    else
      Ok (spread_with state to (negb (isTerminal to))
            {| tr_from := phase state; tr_to := to; tr_at := now;
               tr_reason := reason |}).
Proof.
  unfold outcome, transitionPhase. intros ->. simpl.
  case_bool_decide as Hfix; [| done].
  subst to. by case_bool_decide.
Qed.

Lemma outcome_invalid (state : TeamState) (to : Phase)
    (reason : option string) (now : string) :
  isValidTransition (phase state) to = false ->
  outcome state to reason now =
    Throw ("Invalid transition: " ++ phase_name (phase state) ++ " -> "
           ++ phase_name to).
Proof. unfold outcome, transitionPhase. by intros ->. Qed.

(** C2 (counterexample to the claim as stated).  A state in phase [team-fix]
    with [current_fix_attempt >= max_fix_attempts] that is asked for
    [team-fix] is not redirected to [failed]: [team-fix -> team-fix] is not in
    [TRANSITIONS], so the call throws. *)
Lemma fix_request_in_team_fix_throws :
  phase exhausted_in_fix = team_fix
  /\ max_fix_attempts exhausted_in_fix <= current_fix_attempt exhausted_in_fix
  /\ outcome exhausted_in_fix team_fix None "t1"
     = Throw "Invalid transition: team-fix -> team-fix"
  /\ ~ (exists s', outcome exhausted_in_fix team_fix None "t1" = Ok s'
                   /\ phase s' = failed /\ active s' = false).
Proof.
  repeat split; try reflexivity; try (vm_compute; discriminate).
  intros (s' & H & _). vm_compute in H. discriminate H.
Qed.

(** C2 (amended).  For a state in [team-verify], a request for [team-fix]
    with [current_fix_attempt >= max_fix_attempts] does not enter [team-fix]:
    it returns a state with [phase = failed], [active = false], the counter
    as it was, and one trailing record from [team-verify] to [failed]; with
    [current_fix_attempt < max_fix_attempts] it returns a state in
    [team-fix], active, with the counter one higher and the trailing record
    [{team-verify, team-fix, now, reason}].  For a state in [team-fix] the
    request throws.  With [max_fix_attempts = 2], after two
    verify -> fix -> verify rounds the third request yields [failed],
    inactive, counter 2. *)
Theorem fix_request_from_verify (state : TeamState) (reason : option string)
    (now : string) :
  (phase state = team_verify ->
   max_fix_attempts state <= current_fix_attempt state ->
   exists s' r,
     outcome state team_fix reason now = Ok s'
     /\ phase s' = failed /\ active s' = false
     /\ current_fix_attempt s' = current_fix_attempt state
     /\ max_fix_attempts s' = max_fix_attempts state
     /\ phase_transitions s' = (phase_transitions state ++ [r])%list
     /\ tr_from r = team_verify /\ tr_to r = failed /\ tr_at r = now)
  /\ (phase state = team_verify ->
      current_fix_attempt state < max_fix_attempts state ->
      exists s',
        outcome state team_fix reason now = Ok s'
        /\ phase s' = team_fix /\ active s' = true
        /\ current_fix_attempt s' = current_fix_attempt state + 1
        /\ max_fix_attempts s' = max_fix_attempts state
        /\ phase_transitions s' =
             (phase_transitions state
                ++ [ {| tr_from := team_verify; tr_to := team_fix;
                        tr_at := now; tr_reason := reason |} ])%list)
  /\ (phase state = team_fix ->
      exists msg, outcome state team_fix reason now = Throw msg)
  /\ (exists v3 s',
        bounded_loop_verify3 now = Ok v3
        /\ phase v3 = team_verify /\ max_fix_attempts v3 = 2
        /\ current_fix_attempt v3 = 2
        /\ bounded_loop_overflow now = Ok s'
        /\ phase s' = failed /\ active s' = false
        /\ current_fix_attempt s' = 2).
Proof.
  split; [| split; [| split]].
  - intros Hp Hge. do 2 eexists.
    rewrite outcome_valid by (by rewrite Hp).
    rewrite bool_decide_true by done. rewrite bool_decide_true by done.
    rewrite Hp. repeat split; reflexivity.
  - intros Hp Hlt. eexists.
    rewrite outcome_valid by (by rewrite Hp).
    rewrite bool_decide_true by done. rewrite bool_decide_false by lia.
    rewrite Hp. repeat split; reflexivity.
  - intros Hp. eexists. apply outcome_invalid. by rewrite Hp.
  - do 2 eexists. repeat split; reflexivity.
Qed.

Lemma fix_request_from_verify_witness :
  (exists s' r,
     outcome verify_at_limit team_fix (Some "attempt 3") "t9" = Ok s'
     /\ phase s' = failed /\ active s' = false
     /\ current_fix_attempt s' = current_fix_attempt verify_at_limit
     /\ max_fix_attempts s' = max_fix_attempts verify_at_limit
     /\ phase_transitions s' = (phase_transitions verify_at_limit ++ [r])%list
     /\ tr_from r = team_verify /\ tr_to r = failed /\ tr_at r = "t9")
  /\ (exists s',
        outcome verify_of_fresh_team team_fix (Some "needs fixes") "t2" = Ok s'
        /\ phase s' = team_fix /\ active s' = true
        /\ current_fix_attempt s' = current_fix_attempt verify_of_fresh_team + 1
        /\ max_fix_attempts s' = max_fix_attempts verify_of_fresh_team
        /\ phase_transitions s' =
             (phase_transitions verify_of_fresh_team
                ++ [ {| tr_from := team_verify; tr_to := team_fix;
                        tr_at := "t2"; tr_reason := Some "needs fixes" |} ])%list)
  /\ (exists msg, outcome exhausted_in_fix team_fix None "t1" = Throw msg).
Proof.
  split; [| split].
  - apply (proj1 (fix_request_from_verify verify_at_limit (Some "attempt 3") "t9")).
    + reflexivity.
    + vm_compute. discriminate.
  - apply (proj1 (proj2 (fix_request_from_verify verify_of_fresh_team
                           (Some "needs fixes") "t2"))).
    + reflexivity.
    + vm_compute. reflexivity.
  - apply (proj1 (proj2 (proj2 (fix_request_from_verify exhausted_in_fix
                                  None "t1")))).
    reflexivity.
Defined.

(** The reason the overflow record carries in the source. *)
Lemma overflow_reason_in_source :
  exists s' r,
    bounded_loop_overflow "t" = Ok s'
    /\ last (phase_transitions s') = Some r
    /\ tr_reason r = Some "Max fix attempts exceeded".
Proof. do 2 eexists. repeat split; reflexivity. Qed.

(** C3.  A request [(from, to)] outside the transition table of the
    specification makes [transitionPhase] throw and leaves the argument as it
    was; every request made in a terminal phase is outside the table and
    throws.  A request in the
    table succeeds, and the log of the returned state is the log of the input
    followed by exactly one new record, whose [from] is the phase of the
    input and whose [at] is the time of the call; the record carries the
    requested [to] and [reason], or, when the fix limit redirects the
    request, [to = failed].  The log of the argument object is not altered. *)
Theorem transition_table_enforced (state : TeamState) (to : Phase)
    (reason : option string) (now : string) :
  (~ in_spec_table (phase state) to ->
   outcome state to reason now
     = Throw ("Invalid transition: " ++ phase_name (phase state) ++ " -> "
              ++ phase_name to)
   /\ argument_after state to reason now = state)
  /\ (terminal (phase state) ->
      ~ in_spec_table (phase state) to
      /\ exists msg, outcome state to reason now = Throw msg)
  /\ (in_spec_table (phase state) to ->
      exists s' r,
        outcome state to reason now = Ok s'
        /\ phase_transitions s' = (phase_transitions state ++ [r])%list
        /\ length (phase_transitions s') = S (length (phase_transitions state))
        /\ tr_from r = phase state /\ tr_at r = now
        /\ phase s' = tr_to r
        /\ (tr_to r = to /\ tr_reason r = reason
            \/ to = team_fix
               /\ max_fix_attempts state <= current_fix_attempt state
               /\ tr_to r = failed)
        /\ phase_transitions (argument_after state to reason now)
           = phase_transitions state).
Proof.
  split; [| split].
  - intros Hno. apply isValidTransition_not_spec_table in Hno. split.
    + by apply outcome_invalid.
    + apply argument_after_unchanged. auto.
  - intros Hterm. apply (isValidTransition_terminal _ to) in Hterm. split.
    + by apply isValidTransition_not_spec_table.
    + eexists. by apply outcome_invalid.
  - intros Hin. apply isValidTransition_spec_table in Hin.
    rewrite (outcome_valid _ _ _ _ Hin).
    unfold argument_after, transitionPhase. rewrite Hin. simpl.
    case_bool_decide as Hfix; [case_bool_decide as Hover |].
    + do 2 eexists. split; [reflexivity |]. simpl.
      rewrite length_app. simpl.
      repeat split; try reflexivity; try lia. right. auto.
    + do 2 eexists. split; [reflexivity |]. simpl.
      rewrite length_app. simpl.
      repeat split; try reflexivity; try lia. left. auto.
    + do 2 eexists. split; [reflexivity |]. simpl.
      rewrite length_app. simpl.
      repeat split; try reflexivity; try lia. left. auto.
Qed.

Lemma transition_table_enforced_witness :
  (outcome (createTeamState "invalid" None "t0") team_verify None "t1"
     = Throw "Invalid transition: team-plan -> team-verify"
   /\ argument_after (createTeamState "invalid" None "t0") team_verify None "t1"
      = createTeamState "invalid" None "t0")
  /\ (~ in_spec_table (phase completed_team) team_fix
      /\ exists msg, outcome completed_team team_fix None "t1" = Throw msg)
  /\ exists s' r,
       outcome (createTeamState "valid" None "t0") team_prd (Some "go") "t1" = Ok s'
       /\ phase_transitions s' = [r]
       /\ length (phase_transitions s') = 1%nat
       /\ tr_from r = team_plan /\ tr_at r = "t1"
       /\ phase s' = tr_to r
       /\ (tr_to r = team_prd /\ tr_reason r = Some "go"
           \/ team_prd = team_fix /\ 3 <= 0 /\ tr_to r = failed)
       /\ phase_transitions
            (argument_after (createTeamState "valid" None "t0") team_prd
               (Some "go") "t1") = [].
Proof.
  split; [| split].
  - apply (proj1 (transition_table_enforced
                    (createTeamState "invalid" None "t0") team_verify None "t1")).
    apply (bool_decide_unpack _). vm_compute. exact I.
  - apply (proj1 (proj2 (transition_table_enforced completed_team team_fix
                           None "t1"))).
    left. reflexivity.
  - apply (proj2 (proj2 (transition_table_enforced
                    (createTeamState "valid" None "t0") team_prd (Some "go") "t1"))).
    apply (bool_decide_unpack _). vm_compute. exact I.
Defined.

(** One call keeps the fix counter within the limit, and a terminal phase
    comes with [active = false]. *)
Lemma outcome_keeps_invariants (s s' : TeamState) (to : Phase)
    (reason : option string) (now : string) :
  outcome s to reason now = Ok s' ->
  current_fix_attempt s <= max_fix_attempts s ->
  current_fix_attempt s' <= max_fix_attempts s'
  /\ (terminal (phase s') -> active s' = false).
Proof.
  intros Hout Hle.
  destruct (isValidTransition (phase s) to) eqn:Hv.
  - rewrite (outcome_valid _ _ _ _ Hv) in Hout.
    case_bool_decide as Hfix; [case_bool_decide as Hover |];
      injection Hout as <-; simpl.
    + split; [lia | done].
    + split; [lia |]. intros [H | [H | H]]; discriminate H.
    + split; [lia |]. by intros [-> | [-> | ->]].
  - rewrite (outcome_invalid _ _ _ _ Hv) in Hout. discriminate Hout.
Qed.

Lemma argument_after_keeps_invariants (s : TeamState) (to : Phase)
    (reason : option string) (now : string) :
  current_fix_attempt s <= max_fix_attempts s ->
  (terminal (phase s) -> active s = false) ->
  current_fix_attempt (argument_after s to reason now)
    <= max_fix_attempts (argument_after s to reason now)
  /\ (terminal (phase (argument_after s to reason now)) ->
      active (argument_after s to reason now) = false).
Proof.
  intros Hle Hterm. unfold argument_after, transitionPhase.
  destruct (isValidTransition (phase s) to); simpl; [| done].
  case_bool_decide; [| done].
  case_bool_decide; [done |].
  simpl. split; [lia | done].
Qed.

Lemma reachable_invariants (init s : TeamState) :
  current_fix_attempt init <= max_fix_attempts init ->
  (terminal (phase init) -> active init = false) ->
  reachable_from init s ->
  current_fix_attempt s <= max_fix_attempts s
  /\ (terminal (phase s) -> active s = false).
Proof.
  intros Hle Hterm Hreach.
  induction Hreach as [| s to reason now s' _ IH Hout | s to reason now _ IH].
  - done.
  - destruct IH as [IH _]. by eapply outcome_keeps_invariants.
  - destruct IH as [IH1 IH2]. by apply argument_after_keeps_invariants.
Qed.

(** C4 (counterexample to the claim as stated).  [createTeamState] accepts
    any number as the limit; with [maxFixAttempts = -1] the initial state
    itself has [current_fix_attempt = 0 > max_fix_attempts]. *)
Lemma negative_limit_breaks_counter_bound :
  reachable_from (createTeamState "task" (Some (-1)) "t0")
                 (createTeamState "task" (Some (-1)) "t0")
  /\ ~ (current_fix_attempt (createTeamState "task" (Some (-1)) "t0")
          <= max_fix_attempts (createTeamState "task" (Some (-1)) "t0")).
Proof. split; [constructor | simpl; lia]. Qed.

(** C4 (amended).  When [createTeamState] is given no limit or a limit
    [>= 0], every state reached from its result by calls of
    [transitionPhase] (returned states, and argument objects as the calls
    leave them) has a phase of the defined set, has
    [current_fix_attempt <= max_fix_attempts], and, if its phase is terminal,
    has [active = false] and makes every further [transitionPhase] call
    throw. *)
Theorem reachable_states_invariants (taskDescription : string)
    (maxFixAttempts : option Z) (created : string) (s : TeamState) :
  0 <= default 3 maxFixAttempts ->
  reachable_from (createTeamState taskDescription maxFixAttempts created) s ->
  phase s ∈ all_phases
  /\ current_fix_attempt s <= max_fix_attempts s
  /\ (terminal (phase s) ->
      active s = false
      /\ forall to reason now, exists msg, outcome s to reason now = Throw msg).
Proof.
  intros Hmax Hreach.
  apply reachable_invariants in Hreach as [Hle Hterm]; simpl; [| done |].
  - split; [| split; [done |]].
    + unfold all_phases. destruct (phase s); set_solver.
    + intros Ht. split; [by apply Hterm |].
      intros to reason now. eexists. apply outcome_invalid.
      by apply isValidTransition_terminal.
  - intros [H | [H | H]]; discriminate H.
Qed.

Lemma reachable_states_invariants_witness :
  exists s,
    bounded_loop_overflow "t" = Ok s
    /\ phase s ∈ all_phases
    /\ current_fix_attempt s <= max_fix_attempts s
    /\ (terminal (phase s) ->
        active s = false
        /\ forall to reason now, exists msg, outcome s to reason now = Throw msg).
Proof.
  eexists. split; [reflexivity |].
  apply (reachable_states_invariants "bounded loop" (Some 2) "t").
  - simpl. lia.
  - pose proof (reach_init (createTeamState "bounded loop" (Some 2) "t")) as R.
    eapply (reach_returned _ _ team_prd None "t") in R; [| reflexivity].
    eapply (reach_returned _ _ team_exec None "t") in R; [| reflexivity].
    eapply (reach_returned _ _ team_verify None "t") in R; [| reflexivity].
    eapply (reach_returned _ _ team_fix (Some "attempt 1") "t") in R; [| reflexivity].
    eapply (reach_returned _ _ team_verify None "t") in R; [| reflexivity].
    eapply (reach_returned _ _ team_fix (Some "attempt 2") "t") in R; [| reflexivity].
    eapply (reach_returned _ _ team_verify None "t") in R; [| reflexivity].
    eapply (reach_returned _ _ team_fix (Some "attempt 3") "t") in R; [| reflexivity].
    exact R.
Defined.

(** C10.  [createTeamState(taskDescription)] returns a state in [team-plan],
    active, with fix counter 0, an empty transition log and an empty task
    list; it keeps the task description; the limit is the argument when one
    is given and 3 when it is omitted. *)
Theorem createTeamState_initial (taskDescription : string)
    (maxFixAttempts : option Z) (now : string) :
  let s := createTeamState taskDescription maxFixAttempts now in
  phase s = team_plan
  /\ active s = true
  /\ current_fix_attempt s = 0
  /\ phase_transitions s = []
  /\ tasks s = []
  /\ task_description s = taskDescription
  /\ max_fix_attempts s = default 3 maxFixAttempts
  /\ max_fix_attempts (createTeamState taskDescription None now) = 3.
Proof. repeat split; reflexivity. Qed.

End OrchestratorFacts.

(** ** Properties of the mailbox communication layer *)

Module McpCommFacts.
Import McpComm.

Lemma mailbox_of_ids_below (s : Store) (team worker : string) :
  ids_below_counter s ->
  Forall (fun m => (message_id m < next_message_id s)%N) (mailbox_of s team worker).
Proof.
  intros Hwf. unfold mailbox_of. rewrite lookup_total_alt.
  destruct (mailboxes s !! (team, worker)) as [box |] eqn:Hbox; simpl.
  - exact (Hwf _ _ Hbox).
  - constructor.
Qed.

(** Stamping by an id that no message of the list carries changes nothing. *)
Lemma stamp_by_id_absent (id : N) (now : string) (box : list MailboxMessage) :
  Forall (fun m => (message_id m < id)%N) box ->
  stamp_by_id id now <$> box = box.
Proof.
  induction 1 as [| m box Hm _ IH]; [done |].
  rewrite fmap_cons, IH. f_equal.
  unfold stamp_by_id. rewrite bool_decide_false; [done | lia].
Qed.

(** C7.  [queueInboxInstruction] first overwrites the inbox of the recipient
    and only then calls the notifier: the world in which the notifier is
    invoked already holds the new instruction text in the recipient's inbox
    and has the write as its latest event; the notifier call is the next
    event, it does not touch the store, and its answer is the answer of the
    whole call. *)
Theorem inbox_written_before_notify (params : QueueInboxParams) (w : World) :
  let target := {| workerName := qi_workerName params;
                   workerIndex := Some (qi_workerIndex params);
                   paneId := qi_paneId params |} in
  let written := EvInboxWritten (qi_teamName params) (qi_workerName params)
                   (qi_inbox params) in
  exists w1,
    teamWriteWorkerInbox (qi_teamName params) (qi_workerName params)
      (qi_inbox params) (qi_cwd params) w = (w1, Ok tt)
    /\ queueInboxInstruction params w
       = call_notify (qi_notify params) target (qi_triggerMessage params) w1
    /\ inboxes (store w1) !! (qi_teamName params, qi_workerName params)
       = Some (qi_inbox params)
    /\ events w1 = (events w ++ [written])%list
    /\ events (fst (queueInboxInstruction params w))
       = (events w ++ [written; EvNotify target (qi_triggerMessage params)])%list
    /\ store (fst (queueInboxInstruction params w)) = store w1
    /\ snd (queueInboxInstruction params w)
       = match qi_notify params target (qi_triggerMessage params) with
         | Resolved b => Ok b
         | Rejected e => Throw e
         end.
Proof.
  intros target written. eexists. split; [reflexivity |].
  split; [reflexivity |]. split; [apply lookup_insert_eq |].
  split; [reflexivity |].
  unfold queueInboxInstruction, bind, teamWriteWorkerInbox, call_notify.
  fold target.
  destruct (qi_notify params target (qi_triggerMessage params)); simpl;
    rewrite <- app_assoc; auto.
Qed.

(** C5.  On a store whose message ids are below its counter,
    [queueDirectMailboxMessage] appends exactly one message to the mailbox of
    the recipient and leaves every other mailbox and every earlier message as
    it was; the new message carries the sender, the recipient and the body of
    the call; its [notified_at] is set if and only if the notifier resolved
    true, and is unset when the notifier resolved false (and when it
    rejected, in which case the call rejects after the message is stored). *)
Theorem direct_message_stored_once (params : QueueDirectMessageParams)
    (now : string) (w : World) :
  let target := {| workerName := qd_toWorker params;
                   workerIndex := qd_toWorkerIndex params;
                   paneId := qd_toPaneId params |} in
  let answer := qd_notify params target (qd_triggerMessage params) in
  let stored :=
    {| message_id := next_message_id (store w);
       from_worker := qd_fromWorker params;
       to_worker := qd_toWorker params;
       body := qd_body params;
       created_at := now;
       notified_at := match answer with
                      | Resolved true => Some now
                      | _ => None
                      end |} in
  let w' := fst (queueDirectMailboxMessage params now w) in
  ids_below_counter (store w) ->
  mailbox_of (store w') (qd_teamName params) (qd_toWorker params)
    = (mailbox_of (store w) (qd_teamName params) (qd_toWorker params)
       ++ [stored])%list
  /\ length (mailbox_of (store w') (qd_teamName params) (qd_toWorker params))
     = S (length (mailbox_of (store w) (qd_teamName params) (qd_toWorker params)))
  /\ (forall team worker,
        (team, worker) <> (qd_teamName params, qd_toWorker params) ->
        mailbox_of (store w') team worker = mailbox_of (store w) team worker)
  /\ (is_Some (notified_at stored) <-> answer = Resolved true)
  /\ (answer = Resolved false -> notified_at stored = None)
  /\ snd (queueDirectMailboxMessage params now w)
     = match answer with
       | Resolved _ => Ok tt
       | Rejected e => Throw e
       end.
Proof.
  intros target answer stored w' Hwf.
  pose proof (mailbox_of_ids_below _ (qd_teamName params) (qd_toWorker params) Hwf)
    as Hold.
  subst w'. unfold queueDirectMailboxMessage, bind, teamSendMessage, call_notify.
  fold target. fold answer. subst stored.
  destruct answer as [[|] | e] eqn:Hans; simpl; unfold mailbox_of; simpl.
  - rewrite !lookup_total_insert_eq. rewrite fmap_app.
    rewrite stamp_by_id_absent by exact Hold. simpl.
    unfold stamp_by_id. rewrite bool_decide_true by done.
    rewrite length_app. simpl.
    repeat split; try done; try lia; eauto.
    intros team worker Hne. by rewrite !lookup_total_insert_ne.
  - rewrite !lookup_total_insert_eq. rewrite length_app. simpl.
    repeat split; try done; try lia; try (by intros [? ?]).
    intros team worker Hne. by rewrite !lookup_total_insert_ne.
  - rewrite !lookup_total_insert_eq. rewrite length_app. simpl.
    repeat split; try done; try lia; try (by intros [? ?]).
    intros team worker Hne. by rewrite !lookup_total_insert_ne.
Qed.

Lemma alpha_store_ids_below : ids_below_counter alpha_store.
Proof. apply (bool_decide_unpack _). vm_compute. exact I. Qed.

Lemma direct_message_stored_once_witness :
  ids_below_counter (store alpha_world)
  /\ length (mailbox_of
               (store (fst (queueDirectMailboxMessage
                              (direct_to_worker2 (notify_always true)) "t1"
                              alpha_world)))
               "alpha" "worker-2") = 2%nat.
Proof.
  assert (ids_below_counter (store alpha_world)) as Hids.
  { apply (bool_decide_unpack _). vm_compute. exact I. }
  split; [exact Hids |].
  exact (proj1 (proj2 (direct_message_stored_once
                         (direct_to_worker2 (notify_always true)) "t1"
                         alpha_world Hids))).
Defined.

(** The test "writes message and marks notified only on successful notify",
    and its counterpart with a notifier that resolves false. *)
Lemma direct_message_test_scenarios :
  mailbox_of
    (store (fst (queueDirectMailboxMessage
                   (direct_to_worker2 (notify_always true)) "t1" beta_world)))
    "alpha" "worker-2"
  = [ {| message_id := 0; from_worker := "worker-1"; to_worker := "worker-2";
         body := "hello"; created_at := "t1"; notified_at := Some "t1" |} ]
  /\ mailbox_of
       (store (fst (queueDirectMailboxMessage
                      (direct_to_worker2 (notify_always false)) "t1" beta_world)))
       "alpha" "worker-2"
     = [ {| message_id := 0; from_worker := "worker-1"; to_worker := "worker-2";
            body := "hello"; created_at := "t1"; notified_at := None |} ].
Proof. split; vm_compute; reflexivity. Qed.

(** *** Broadcast *)

Lemma recipientByName_name (recipients : list Recipient) (name : string)
    (r : Recipient) :
  recipientByName recipients !! name = Some r -> r_workerName r = name.
Proof.
  unfold recipientByName.
  cut (forall (m0 : gmap string Recipient),
          (forall k r0, m0 !! k = Some r0 -> r_workerName r0 = k) ->
          forall k r0,
            foldl (fun m r1 => <[r_workerName r1 := r1]> m) m0 recipients !! k
              = Some r0 ->
            r_workerName r0 = k).
  { intros H. apply H. intros k r0 Hk. by rewrite lookup_empty in Hk. }
  induction recipients as [| r1 rest IH]; intros m0 Hm0 k r0; simpl; [apply Hm0 |].
  apply IH. intros k' r' Hk'.
  destruct (decide (r_workerName r1 = k')) as [<- | Hne].
  - rewrite lookup_insert_eq in Hk'. by injection Hk' as <-.
  - rewrite lookup_insert_ne in Hk' by done. by apply Hm0.
Qed.

Lemma stamp_stamp (now : string) (m : MailboxMessage) :
  stamp now (stamp now m) = stamp now m.
Proof. reflexivity. Qed.

Lemma stamp_marked_nil (now : string) (box : list MailboxMessage) :
  stamp_marked [] now box = box.
Proof.
  unfold stamp_marked. rewrite <- (list_fmap_id box) at 2.
  apply list_fmap_ext. intros i m _.
  rewrite bool_decide_false; [done | apply not_elem_of_nil].
Qed.

Lemma stamp_marked_after_stamp_by_id (id : N) (ids : list N) (now : string)
    (box : list MailboxMessage) :
  stamp_marked ids now (stamp_by_id id now <$> box)
  = stamp_marked (id :: ids) now box.
Proof.
  unfold stamp_marked. rewrite <- list_fmap_compose.
  apply list_fmap_ext. intros i m _. simpl. unfold stamp_by_id.
  destruct (decide (message_id m = id)) as [Hid | Hid].
  - rewrite (bool_decide_true (message_id m = id)) by done.
    rewrite (bool_decide_true (message_id m ∈ id :: ids)) by (subst; left).
    by case_bool_decide.
  - rewrite (bool_decide_false (message_id m = id)) by done.
    destruct (decide (message_id m ∈ ids)) as [Hin | Hnin].
    + rewrite bool_decide_true by done.
      rewrite bool_decide_true; [done | by right].
    + rewrite bool_decide_false by done.
      rewrite bool_decide_false; [done |].
      intros [H | H]%elem_of_cons; done.
Qed.

Lemma marked_ids_cons (params : QueueBroadcastParams) (worker : string)
    (m : MailboxMessage) (ms : list MailboxMessage) :
  marked_ids params worker (m :: ms)
  = if bool_decide (to_worker m = worker /\ notified_ok params (to_worker m) = true)
    then message_id m :: marked_ids params worker ms
    else marked_ids params worker ms.
Proof.
  unfold marked_ids. rewrite filter_cons.
  case_bool_decide; by case_decide.
Qed.

Lemma mailbox_of_after_mark (team worker : string) (id : N) (cwd now : string)
    (w : World) (t x : string) :
  mailbox_of (store (fst (teamMarkMessageNotified team worker id cwd now w))) t x
  = if bool_decide ((t, x) = (team, worker))
    then stamp_by_id id now <$> mailbox_of (store w) t x
    else mailbox_of (store w) t x.
Proof.
  unfold teamMarkMessageNotified, mailbox_of. simpl.
  case_bool_decide as Hk.
  - injection Hk as -> ->. by rewrite lookup_total_insert_eq.
  - by rewrite lookup_total_insert_ne.
Qed.

Lemma mailbox_of_after_send (team fromWorker toWorker text cwd now : string)
    (w : World) (t x : string) :
  mailbox_of (store (fst (teamSendMessage team fromWorker toWorker text cwd now w))) t x
  = (mailbox_of (store w) t x
     ++ if bool_decide ((t, x) = (team, toWorker))
        then [ {| message_id := next_message_id (store w);
                  from_worker := fromWorker;
                  to_worker := toWorker;
                  body := text;
                  created_at := now;
                  notified_at := None |} ]
        else [])%list.
Proof.
  unfold teamSendMessage, mailbox_of. simpl.
  case_bool_decide as Hk.
  - injection Hk as -> ->. by rewrite lookup_total_insert_eq.
  - rewrite lookup_total_insert_ne by done. by rewrite app_nil_r.
Qed.

Lemma fresh_messages_to_worker (fromWorker text now : string) (names : list string) :
  forall next,
    to_worker <$> fresh_messages fromWorker text now next names = names.
Proof. induction names as [| a rest IH]; intros next; simpl; by rewrite ?IH. Qed.

Lemma fresh_messages_fields (fromWorker text now : string) (names : list string) :
  forall next,
    Forall (fun m => from_worker m = fromWorker /\ body m = text
                     /\ notified_at m = None)
      (fresh_messages fromWorker text now next names).
Proof.
  induction names as [| a rest IH]; intros next; simpl; constructor; auto.
Qed.

Lemma fresh_messages_ids_from (fromWorker text now : string) (names : list string) :
  forall next,
    Forall (fun m => (next <= message_id m)%N)
      (fresh_messages fromWorker text now next names).
Proof.
  induction names as [| a rest IH]; intros next; simpl; constructor.
  - simpl. lia.
  - eapply Forall_impl; [apply IH |]. simpl. intros m Hm. lia.
Qed.

Lemma fresh_messages_id_inj (fromWorker text now : string) (names : list string) :
  forall next m m',
    m ∈ fresh_messages fromWorker text now next names ->
    m' ∈ fresh_messages fromWorker text now next names ->
    message_id m = message_id m' -> m = m'.
Proof.
  induction names as [| a rest IH]; intros next m m'; simpl.
  - by intros ?%elem_of_nil.
  - pose proof (fresh_messages_ids_from fromWorker text now rest (N.succ next)) as Hge.
    rewrite Forall_forall in Hge.
    intros [-> | Hm]%elem_of_cons [-> | Hm']%elem_of_cons Hid; simpl in *.
    + done.
    + apply Hge in Hm'. lia.
    + apply Hge in Hm. lia.
    + by eapply IH.
Qed.

Lemma send_each_spec (team fromWorker text cwd now : string) (names : list string) :
  forall w,
    exists w1,
      send_each team fromWorker text cwd now names w
      = (w1, Ok (fresh_messages fromWorker text now
                   (next_message_id (store w)) names))
      /\ (forall t x,
            mailbox_of (store w1) t x
            = (mailbox_of (store w) t x
               ++ if bool_decide (t = team)
                  then filter (fun m => to_worker m = x)
                         (fresh_messages fromWorker text now
                            (next_message_id (store w)) names)
                  else [])%list).
Proof.
  induction names as [| a rest IH]; intros w; simpl.
  - exists w. split; [done |]. intros t x.
    case_bool_decide; by rewrite ?filter_nil, app_nil_r.
  - unfold bind at 1.
    pose proof (mailbox_of_after_send team fromWorker a text cwd now w) as Hsend.
    destruct (teamSendMessage team fromWorker a text cwd now w) as [wa ra] eqn:Ha.
    unfold teamSendMessage in Ha. injection Ha as Hwa <-.
    destruct (IH wa) as (w1 & Hrun & Hbox).
    assert (next_message_id (store wa) = N.succ (next_message_id (store w))) as Hnext
      by (by subst wa).
    rewrite Hnext in Hrun, Hbox.
    exists w1. unfold bind. rewrite Hrun. split; [done |].
    intros t x. rewrite Hbox. simpl in Hsend. rewrite Hsend.
    rewrite <- app_assoc. f_equal.
    rewrite filter_cons. simpl.
    destruct (decide (t = team)) as [-> | Ht].
    + rewrite !(bool_decide_true (team = team)) by done.
      destruct (decide (a = x)) as [-> | Hax].
      * by rewrite bool_decide_true by done.
      * by rewrite bool_decide_false by congruence.
    + rewrite (bool_decide_false (t = team)) by done.
      by rewrite bool_decide_false by congruence.
Qed.

Lemma notified_ok_answer (params : QueueBroadcastParams) (name : string) :
  notified_ok params name = true <-> notify_answer params name = Some (Resolved true).
Proof.
  unfold notified_ok. destruct (notify_answer params name) as [[[|] | e] |];
    split; congruence.
Qed.

Lemma notify_each_spec (params : QueueBroadcastParams) (now : string)
    (ms : list MailboxMessage) :
  forall w,
    Forall (fun m => never_rejects params (to_worker m) = true) ms ->
    exists w2,
      notify_each params now (recipientByName (qb_recipients params)) ms w
      = (w2, Ok tt)
      /\ (forall t x,
            mailbox_of (store w2) t x
            = if bool_decide (t = qb_teamName params)
              then stamp_marked (marked_ids params x ms) now (mailbox_of (store w) t x)
              else mailbox_of (store w) t x).
Proof.
  induction ms as [| m rest IH]; intros w Hres; simpl.
  - exists w. split; [done |]. intros t x.
    case_bool_decide; [| done]. by rewrite stamp_marked_nil.
  - apply Forall_cons in Hres as [Hm Hrest].
    unfold never_rejects, notify_answer in Hm.
    pose proof (marked_ids_cons params) as Hcons.
    unfold notified_ok, notify_answer in Hcons.
    destruct (recipientByName (qb_recipients params) !! to_worker m)
      as [recipient |] eqn:Hr.
    + pose proof (recipientByName_name _ _ _ Hr) as Hname.
      unfold bind at 1. unfold call_notify at 1.
      destruct (qb_notify params _ _) as [[|] | e] eqn:Hans; [| | done].
      * unfold bind at 1.
        pose proof (mailbox_of_after_mark (qb_teamName params)
                      (r_workerName recipient) (message_id m) (qb_cwd params) now
                      {| store := store w;
                         events := (events w ++ [EvNotify
                           {| workerName := r_workerName recipient;
                              workerIndex := Some (r_workerIndex recipient);
                              paneId := r_paneId recipient |}
                           (qb_triggerFor params (r_workerName recipient))])%list |})
          as Hmark.
        destruct (teamMarkMessageNotified _ _ _ _ _ _) as [wm rm] eqn:Hwm.
        unfold teamMarkMessageNotified in Hwm. injection Hwm as Hwm <-.
        destruct (IH wm Hrest) as (w2 & Hrun & Hbox).
        exists w2. split; [done |]. intros t x.
        rewrite Hbox. simpl in Hmark. rewrite Hmark.
        case_bool_decide as Ht; [| by rewrite bool_decide_false by congruence].
        subst t. rewrite (Hcons x m rest). rewrite Hr, Hans, Hname.
        destruct (decide (to_worker m = x)) as [Hx | Hx].
        -- rewrite bool_decide_true by (by subst).
           rewrite bool_decide_true by done.
           apply stamp_marked_after_stamp_by_id.
        -- rewrite bool_decide_false by congruence.
           rewrite bool_decide_false; [done |]. by intros [? _].
      * unfold bind at 1. unfold ret at 1.
        destruct (IH {| store := store w;
                        events := (events w ++ [EvNotify
                          {| workerName := r_workerName recipient;
                             workerIndex := Some (r_workerIndex recipient);
                             paneId := r_paneId recipient |}
                          (qb_triggerFor params (r_workerName recipient))])%list |}
                    Hrest) as (w2 & Hrun & Hbox).
        exists w2. split; [done |]. intros t x.
        rewrite Hbox. simpl. rewrite (Hcons x m rest). rewrite Hr, Hans.
        rewrite (bool_decide_false (_ /\ _)); [done |]. by intros [_ ?].
    + destruct (IH w Hrest) as (w2 & Hrun & Hbox).
      exists w2. split; [done |]. intros t x.
      rewrite Hbox. rewrite (Hcons x m rest). rewrite Hr.
      rewrite (bool_decide_false (_ /\ _)); [done |]. by intros [_ ?].
Qed.

Lemma settle_to_worker (params : QueueBroadcastParams) (now : string)
    (m : MailboxMessage) :
  to_worker (settle params now m) = to_worker m.
Proof. unfold settle. by destruct (notified_ok params (to_worker m)). Qed.

Lemma stamp_marked_untouched (ids : list N) (now : string)
    (box : list MailboxMessage) :
  Forall (fun m => message_id m ∉ ids) box -> stamp_marked ids now box = box.
Proof.
  intros Hbox. unfold stamp_marked. rewrite <- (list_fmap_id box) at 2.
  apply list_fmap_ext. intros i m Hm. simpl.
  rewrite Forall_forall in Hbox.
  rewrite bool_decide_false; [done |].
  apply Hbox. by eapply list_elem_of_lookup_2.
Qed.

Lemma stamp_marked_settles (params : QueueBroadcastParams) (now : string)
    (ids : list N) (x : string) (l : list MailboxMessage) :
  (forall m, m ∈ l -> to_worker m = x ->
             (message_id m ∈ ids <-> notified_ok params (to_worker m) = true)) ->
  stamp_marked ids now (filter (fun m => to_worker m = x) l)
  = filter (fun m => to_worker m = x) (settle params now <$> l).
Proof.
  induction l as [| m l IH]; intros Hids; [done |].
  rewrite fmap_cons, !filter_cons. rewrite settle_to_worker.
  assert (stamp_marked ids now (filter (fun m => to_worker m = x) l)
          = filter (fun m => to_worker m = x) (settle params now <$> l)) as IH'.
  { apply IH. intros m' Hm'. apply Hids. by right. }
  destruct (decide (to_worker m = x)) as [Hx | Hx]; [| done].
  unfold stamp_marked in *. rewrite fmap_cons, IH'. f_equal.
  unfold settle. specialize (Hids m (list_elem_of_here _ _) Hx).
  destruct (notified_ok params (to_worker m)).
  - rewrite bool_decide_true; [done | by apply Hids].
  - rewrite bool_decide_false; [done |]. intros Hin. by apply Hids in Hin.
Qed.

Lemma marked_ids_fresh (params : QueueBroadcastParams)
    (fromWorker text now : string) (next : N) (names : list string)
    (x : string) (m : MailboxMessage) :
  m ∈ fresh_messages fromWorker text now next names ->
  to_worker m = x ->
  (message_id m ∈ marked_ids params x (fresh_messages fromWorker text now next names))
  <-> notified_ok params (to_worker m) = true.
Proof.
  intros Hm Hx. unfold marked_ids. rewrite list_elem_of_fmap. split.
  - intros (m' & Hid & [[_ Hok] Hm']%list_elem_of_filter).
    by rewrite (fresh_messages_id_inj _ _ _ _ _ _ _ Hm Hm' Hid).
  - intros Hok. exists m. split; [done |]. by apply list_elem_of_filter.
Qed.

(** *** The notifier calls of a broadcast, and the invariant of the store *)

Lemma notify_log_snoc (w : World) (st : Store) (e : Event) :
  notify_log {| store := st; events := (events w ++ [e])%list |}
  = (notify_log w
     ++ match e with
        | EvNotify target message => [(target, message)]
        | _ => []
        end)%list.
Proof. unfold notify_log. simpl. rewrite omap_app. by destruct e. Qed.

Lemma send_each_log (team fromWorker text cwd now : string) (names : list string) :
  forall w,
    notify_log (fst (send_each team fromWorker text cwd now names w))
    = notify_log w.
Proof.
  induction names as [| a rest IH]; intros w; simpl; [done |].
  unfold bind at 1. unfold teamSendMessage at 1.
  unfold bind.
  match goal with
  | |- context [send_each _ _ _ _ _ rest ?wa] =>
      specialize (IH wa); destruct (send_each team fromWorker text cwd now rest wa)
        as [w1 [others | e]]
  end; simpl in *; rewrite IH, notify_log_snoc; by rewrite app_nil_r.
Qed.

Lemma notify_each_log (params : QueueBroadcastParams) (now : string)
    (ms : list MailboxMessage) :
  forall w,
    Forall (fun m => never_rejects params (to_worker m) = true) ms ->
    notify_log (fst (notify_each params now
                       (recipientByName (qb_recipients params)) ms w))
    = (notify_log w ++ omap (notify_call params) (to_worker <$> ms))%list.
Proof.
  induction ms as [| m rest IH]; intros w Hres; simpl.
  - by rewrite app_nil_r.
  - apply Forall_cons in Hres as [Hm Hrest].
    unfold never_rejects, notify_answer in Hm. unfold notify_call at 1.
    destruct (recipientByName (qb_recipients params) !! to_worker m)
      as [recipient |] eqn:Hr; [| by apply IH].
    unfold bind at 1. unfold call_notify at 1.
    destruct (qb_notify params _ _) as [[|] | e]; [| | done].
    + unfold bind at 1. unfold teamMarkMessageNotified at 1.
      rewrite IH by done. rewrite !notify_log_snoc. simpl.
      by rewrite app_nil_r, <- app_assoc.
    + unfold bind at 1. unfold ret at 1.
      rewrite IH by done. rewrite notify_log_snoc. simpl.
      by rewrite <- app_assoc.
Qed.

Lemma teamSendMessage_keeps_ids (team fromWorker toWorker text cwd now : string)
    (w : World) :
  ids_below_counter (store w) ->
  ids_below_counter (store (fst (teamSendMessage team fromWorker toWorker text
                                  cwd now w))).
Proof.
  intros Hids. pose proof (mailbox_of_ids_below _ team toWorker Hids) as Hbox.
  unfold ids_below_counter, teamSendMessage. simpl.
  apply map_Forall_insert_2.
  - apply Forall_app. split.
    + eapply Forall_impl; [exact Hbox |]. simpl. intros m Hm. lia.
    + repeat constructor. simpl. lia.
  - eapply map_Forall_impl; [exact Hids |]. simpl. intros _ box Hb.
    eapply Forall_impl; [exact Hb |]. simpl. intros m Hm. lia.
Qed.

Lemma teamMarkMessageNotified_keeps_ids (team worker : string) (id : N)
    (cwd now : string) (w : World) :
  ids_below_counter (store w) ->
  ids_below_counter (store (fst (teamMarkMessageNotified team worker id cwd now w))).
Proof.
  intros Hids. pose proof (mailbox_of_ids_below _ team worker Hids) as Hbox.
  unfold ids_below_counter, teamMarkMessageNotified. simpl.
  apply map_Forall_insert_2; [| exact Hids].
  apply Forall_fmap. eapply Forall_impl; [exact Hbox |]. simpl.
  intros m Hm. unfold stamp_by_id. by case_bool_decide.
Qed.

(** The uniqueness of ids is an invariant of the direct send. *)
Lemma queueDirectMailboxMessage_keeps_ids (params : QueueDirectMessageParams)
    (now : string) (w : World) :
  ids_below_counter (store w) ->
  ids_below_counter (store (fst (queueDirectMailboxMessage params now w))).
Proof.
  intros Hids.
  pose proof (teamSendMessage_keeps_ids (qd_teamName params) (qd_fromWorker params)
                (qd_toWorker params) (qd_body params) (qd_cwd params) now w Hids)
    as Hsent.
  unfold queueDirectMailboxMessage, bind.
  destruct (teamSendMessage _ _ _ _ _ _ w) as [w1 [m1 | e1]]; [| exact Hsent].
  unfold call_notify.
  destruct (qd_notify params _ _) as [[|] | e]; cbv beta iota zeta.
  - apply teamMarkMessageNotified_keeps_ids. exact Hsent.
  - exact Hsent.
  - exact Hsent.
Qed.

Lemma send_each_keeps_ids (team fromWorker text cwd now : string)
    (names : list string) :
  forall w,
    ids_below_counter (store w) ->
    ids_below_counter (store (fst (send_each team fromWorker text cwd now names w))).
Proof.
  induction names as [| a rest IH]; intros w Hids; simpl; [done |].
  pose proof (teamSendMessage_keeps_ids team fromWorker a text cwd now w Hids)
    as Hsent.
  unfold bind at 1.
  destruct (teamSendMessage _ _ _ _ _ _ w) as [wa [ma | ea]]; [| exact Hsent].
  specialize (IH wa Hsent). unfold bind.
  by destruct (send_each team fromWorker text cwd now rest wa) as [w1 [others | e]].
Qed.

Lemma notify_each_keeps_ids (params : QueueBroadcastParams) (now : string)
    (ms : list MailboxMessage) :
  forall w,
    ids_below_counter (store w) ->
    ids_below_counter
      (store (fst (notify_each params now
                     (recipientByName (qb_recipients params)) ms w))).
Proof.
  induction ms as [| m rest IH]; intros w Hids; simpl; [done |].
  destruct (recipientByName (qb_recipients params) !! to_worker m)
    as [recipient |]; [| by apply IH].
  unfold bind at 1. unfold call_notify at 1.
  destruct (qb_notify params _ _) as [[|] | e]; cbv beta iota zeta.
  - unfold bind at 1.
    match goal with
    | |- context [teamMarkMessageNotified ?t ?x ?i ?c ?n ?w0] =>
        pose proof (teamMarkMessageNotified_keeps_ids t x i c n w0 Hids) as Hmark;
        destruct (teamMarkMessageNotified t x i c n w0) as [wm [u | e]]
    end; [by apply IH | exact Hmark].
  - unfold bind at 1. unfold ret at 1. cbv beta iota. by apply IH.
  - exact Hids.
Qed.

(** The uniqueness of ids is an invariant of the broadcast. *)
Lemma queueBroadcastMailboxMessage_keeps_ids (params : QueueBroadcastParams)
    (now : string) (w : World) :
  ids_below_counter (store w) ->
  ids_below_counter (store (fst (queueBroadcastMailboxMessage params now w))).
Proof.
  intros Hids. unfold queueBroadcastMailboxMessage, bind, teamBroadcast.
  pose proof (send_each_keeps_ids (qb_teamName params) (qb_fromWorker params)
                (qb_body params) (qb_cwd params) now
                (filter (fun name => name <> qb_fromWorker params)
                   (roster_of (store w) (qb_teamName params))) w Hids) as Hsent.
  destruct (send_each _ _ _ _ _ _ w) as [w1 [messages | e]]; [| exact Hsent].
  by apply notify_each_keeps_ids.
Qed.

Lemma recipientByName_snoc (recipients : list Recipient) (r : Recipient) :
  recipientByName (recipients ++ [r])
  = <[r_workerName r := r]> (recipientByName recipients).
Proof. unfold recipientByName. by rewrite foldl_app. Qed.

Lemma notify_each_app (params : QueueBroadcastParams) (now : string)
    (byName : gmap string Recipient) (l1 l2 : list MailboxMessage) :
  forall w,
    notify_each params now byName (l1 ++ l2) w
    = match notify_each params now byName l1 w with
      | (w1, Ok _) => notify_each params now byName l2 w1
      | (w1, Throw e) => (w1, Throw e)
      end.
Proof.
  induction l1 as [| m rest IH]; intros w; simpl; [done |].
  destruct (byName !! to_worker m) as [recipient |]; [| apply IH].
  unfold bind. destruct (call_notify _ _ _ w) as [w1 [[|] | e]]; [| | done].
  - destruct (teamMarkMessageNotified _ _ _ _ _ w1) as [w2 [u | e]]; [apply IH | done].
  - unfold ret. apply IH.
Qed.

Lemma recipientByName_listed (params : QueueBroadcastParams) (name : string) :
  recipientByName (qb_recipients params) !! name = listed params name.
Proof.
  unfold listed.
  induction (qb_recipients params) as [| r rest IH] using rev_ind; [done |].
  rewrite recipientByName_snoc, filter_app, filter_cons, filter_nil.
  destruct (decide (r_workerName r = name)) as [Heq | Hne].
  - rewrite <- Heq at 1. rewrite lookup_insert_eq. by rewrite last_snoc.
  - rewrite lookup_insert_ne by done. by rewrite app_nil_r.
Qed.

Lemma notify_answer_listed (params : QueueBroadcastParams) (name : string) :
  notify_answer params name = answer_for params name.
Proof.
  unfold notify_answer, answer_for, call_for.
  rewrite recipientByName_listed. by destruct (listed params name).
Qed.

Lemma notify_call_listed (params : QueueBroadcastParams) (name : string) :
  notify_call params name = call_for params name.
Proof. unfold notify_call, call_for. by rewrite recipientByName_listed. Qed.

Lemma settle_settle_listed (params : QueueBroadcastParams) (now : string)
    (m : MailboxMessage) :
  settle params now m = settle_listed params now m.
Proof.
  unfold settle, settle_listed, notified_ok. rewrite notify_answer_listed.
  by destruct (answer_for params (to_worker m)) as [[[|] | e] |].
Qed.

Lemma fresh_messages_app (fromWorker text now : string) (a b : list string) :
  forall next,
    fresh_messages fromWorker text now next (a ++ b)
    = (fresh_messages fromWorker text now next a
       ++ fresh_messages fromWorker text now (next + N.of_nat (length a)) b)%list.
Proof.
  induction a as [| x a IH]; intros next; simpl.
  - by rewrite N.add_0_r.
  - rewrite IH. do 3 f_equal. lia.
Qed.

Lemma fresh_messages_length (fromWorker text now : string) (names : list string) :
  forall next,
    length (fresh_messages fromWorker text now next names) = length names.
Proof. induction names as [| a rest IH]; intros next; simpl; by rewrite ?IH. Qed.

Lemma fresh_messages_ids_upto (fromWorker text now : string) (names : list string) :
  forall next,
    Forall (fun m => (message_id m < next + N.of_nat (length names))%N)
      (fresh_messages fromWorker text now next names).
Proof.
  induction names as [| a rest IH]; intros next; simpl length; simpl fresh_messages;
    constructor.
  - simpl. lia.
  - eapply Forall_impl; [apply IH |]. simpl. intros m Hm. lia.
Qed.

Lemma omap_pointwise {A B : Type} (f g : A -> option B) (l : list A) :
  (forall a, f a = g a) -> omap f l = omap g l.
Proof.
  intros H. induction l as [| a l IH]; [done |].
  change (omap f (a :: l))
    with (match f a with Some y => y :: omap f l | None => omap f l end).
  change (omap g (a :: l))
    with (match g a with Some y => y :: omap g l | None => omap g l end).
  by rewrite H, IH.
Qed.

Lemma elem_of_take_whole {A : Type} (x : A) (n : nat) (l : list A) :
  x ∈ take n l -> x ∈ l.
Proof. apply subseteq_take. Qed.

Lemma reached_take (params : QueueBroadcastParams) (names : list string) :
  take (length (reached params names)) names = reached params names.
Proof.
  induction names as [| name rest IH]; [done |]. cbn [reached].
  destruct (answer_for params name) as [[b | e] |]; simpl; by rewrite ?IH.
Qed.

Lemma reached_resolves (params : QueueBroadcastParams) (names : list string) :
  Forall (fun name => forall e, answer_for params name <> Some (Rejected e))
    (reached params names).
Proof.
  induction names as [| name rest IH]; [constructor |]. cbn [reached].
  destruct (answer_for params name) as [[b | e] |] eqn:Hans;
    constructor; try done; by rewrite Hans.
Qed.

(** The roster splits at the first rejection. *)
Lemma reached_split (params : QueueBroadcastParams) (names : list string) :
  Forall (fun name => never_rejects params name = true) (reached params names)
  /\ ((rejection params names = None /\ reached params names = names)
      \/ (exists name e after,
             names = (reached params names ++ name :: after)%list
             /\ answer_for params name = Some (Rejected e)
             /\ rejection params names = Some e)).
Proof.
  induction names as [| name rest [IHres IH]]; simpl.
  - split; [constructor | by left].
  - destruct (answer_for params name) as [[b | e] |] eqn:Hans.
    + split.
      * constructor; [| done]. unfold never_rejects.
        by rewrite notify_answer_listed, Hans.
      * destruct IH as [[Hnone Hall] | (x & e & after & Hsplit & Hx & Hsome)].
        -- left. by rewrite Hall.
        -- right. exists x, e, after.
           split; [by rewrite <- app_comm_cons, <- Hsplit | done].
    + split; [constructor |]. right. by exists name, e, rest.
    + split.
      * constructor; [| done]. unfold never_rejects.
        by rewrite notify_answer_listed, Hans.
      * destruct IH as [[Hnone Hall] | (x & e & after & Hsplit & Hx & Hsome)].
        -- left. by rewrite Hall.
        -- right. exists x, e, after.
           split; [by rewrite <- app_comm_cons, <- Hsplit | done].
Qed.

(** The loop over the messages of a broadcast, whatever the notifier does:
    the recipients before the first rejection are handled, the rejecting one
    is called and ends the loop. *)
Lemma notify_each_fresh (params : QueueBroadcastParams) (now : string)
    (next : N) (names : list string) (w : World) :
  let sent := fresh_messages (qb_fromWorker params) (qb_body params) now next names in
  let k := length (reached params names) in
  let run := notify_each params now (recipientByName (qb_recipients params)) sent w in
  snd run = match rejection params names with
            | Some e => Throw e
            | None => Ok tt
            end
  /\ (forall t x,
        mailbox_of (store (fst run)) t x
        = if bool_decide (t = qb_teamName params)
          then stamp_marked (marked_ids params x (take k sent)) now
                 (mailbox_of (store w) t x)
          else mailbox_of (store w) t x)
  /\ notify_log (fst run)
     = (notify_log w ++ omap (call_for params) (take (S k) names))%list.
Proof.
  intros sent k run.
  destruct (reached_split params names) as [Hres Hcases].
  set (before := fresh_messages (qb_fromWorker params) (qb_body params) now next
                   (reached params names)).
  assert (Forall (fun m => never_rejects params (to_worker m) = true) before)
    as Hres'.
  { apply Forall_fmap with (f := to_worker)
      (P := fun name => never_rejects params name = true).
    unfold before. by rewrite fresh_messages_to_worker. }
  destruct (notify_each_spec params now before w Hres') as (w2 & Hrun2 & Hbox2).
  pose proof (notify_each_log params now before w Hres') as Hlog2.
  rewrite Hrun2 in Hlog2. simpl in Hlog2.
  unfold before in Hlog2. rewrite fresh_messages_to_worker in Hlog2.
  assert (omap (notify_call params) (reached params names)
          = omap (call_for params) (reached params names)) as Hcalls.
  { apply omap_pointwise, notify_call_listed. }
  rewrite Hcalls in Hlog2.
  assert (length before = k) as Hk.
  { unfold before, k. apply fresh_messages_length. }
  destruct Hcases as [[Hnone Hall] | (name & e & after & Hsplit & Hname & Hsome)].
  - assert (sent = before) as Hsent by (unfold sent, before; by rewrite Hall).
    subst run. rewrite Hsent, Hrun2, Hnone. simpl.
    split; [done |]. split.
    + intros t x. rewrite Hbox2. by rewrite <- Hk, firstn_all.
    + rewrite Hlog2. unfold k. rewrite Hall. f_equal.
      rewrite take_ge; [done | lia].
  - set (m := {| message_id := (next + N.of_nat (length (reached params names)))%N;
                 from_worker := qb_fromWorker params;
                 to_worker := name;
                 body := qb_body params;
                 created_at := now;
                 notified_at := None |}).
    set (rest := fresh_messages (qb_fromWorker params) (qb_body params) now
                   (N.succ (next + N.of_nat (length (reached params names)))) after).
    assert (sent = (before ++ m :: rest)%list) as Hsent.
    { unfold sent. rewrite Hsplit at 1. by rewrite fresh_messages_app. }
    assert (take k sent = before) as Htake.
    { rewrite Hsent, <- Hk. by rewrite take_app_length. }
    assert (exists w3,
               notify_each params now (recipientByName (qb_recipients params))
                 sent w = (w3, Throw e)
               /\ store w3 = store w2
               /\ notify_log w3
                  = (notify_log w2 ++ omap (call_for params) [name])%list)
      as (w3 & Hrun3 & Hstore3 & Hlog3).
    { rewrite Hsent, notify_each_app, Hrun2.
      cbn [notify_each]. unfold m at 1. cbn [to_worker].
      rewrite recipientByName_listed.
      change (omap (call_for params) [name])
        with (match call_for params name with
              | Some c => [c]
              | None => []
              end).
      unfold answer_for, call_for in Hname |- *.
      destruct (listed params name) as [recipient |]; [| done].
      injection Hname as Hname.
      unfold bind, call_notify. rewrite Hname.
      eexists. split; [reflexivity |]. split; [done |].
      by rewrite notify_log_snoc. }
    subst run. rewrite Htake, Hsome, Hrun3. simpl. rewrite Hstore3.
    split; [done |]. split; [exact Hbox2 |].
    rewrite Hlog3, Hlog2, <- app_assoc. f_equal.
    assert (take (S k) names = (reached params names ++ [name])%list) as ->.
    { unfold k. clear -Hsplit.
      remember (reached params names) as l eqn:Hl. clear Hl.
      rewrite Hsplit, (cons_middle name), app_assoc.
      replace (S (length l)) with (length (l ++ [name])%list)
        by (rewrite length_app; simpl; lia).
      by rewrite take_app_length. }
    by rewrite omap_app.
Qed.

(** C6 (amended).  On a store whose message ids are below its counter,
    [queueBroadcastMailboxMessage] stores one message per worker of the
    team's roster other than the sender, in roster order, none for the
    sender, whatever the notifier does: every mailbox is its earlier content
    followed by the new messages addressed to its worker, and other teams'
    mailboxes are as they were.  Each new message carries the sender and the
    body of the call.  The recipients are then taken in roster order: the
    notifier is called for every one that has an entry in
    [params.recipients], with the index and the pane of that entry and the
    trigger text of its name, and the message is stamped with [notified_at]
    if and only if its recipient had its turn and the notifier resolved true
    for it; a notifier that resolves false for one recipient changes nothing
    for the others.  A notifier whose promise rejects is not caught: the
    first rejection is the outcome of the call, the rejecting recipient is
    the last one called, and the messages of the recipients after it stay
    stored but are neither notified nor stamped.  With no rejection the call resolves and
    every recipient has its turn.  Message ids stay below the counter. *)
Theorem broadcast_one_message_per_recipient (params : QueueBroadcastParams)
    (now : string) (w : World) :
  let recipients :=
    filter (fun name => name <> qb_fromWorker params)
      (roster_of (store w) (qb_teamName params)) in
  let sent :=
    fresh_messages (qb_fromWorker params) (qb_body params) now
      (next_message_id (store w)) recipients in
  let turns := length (reached params recipients) in
  let delivered :=
    ((settle_listed params now <$> take turns sent) ++ drop turns sent)%list in
  let w' := fst (queueBroadcastMailboxMessage params now w) in
  ids_below_counter (store w) ->
  snd (queueBroadcastMailboxMessage params now w)
  = match rejection params recipients with
    | Some e => Throw e
    | None => Ok tt
    end
  /\ (rejection params recipients = None -> turns = length recipients)
  /\ (forall e, rejection params recipients = Some e ->
        exists name, recipients !! turns = Some name
                     /\ answer_for params name = Some (Rejected e))
  /\ Forall (fun name => forall e, answer_for params name <> Some (Rejected e))
       (take turns recipients)
  /\ (qb_fromWorker params ∉ recipients)
  /\ length delivered = length recipients
  /\ to_worker <$> delivered = recipients
  /\ (forall i m,
        delivered !! i = Some m ->
        from_worker m = qb_fromWorker params
        /\ body m = qb_body params
        /\ (is_Some (notified_at m)
            <-> (i < turns)%nat
                /\ answer_for params (to_worker m) = Some (Resolved true)))
  /\ (forall t x,
        mailbox_of (store w') t x
        = (mailbox_of (store w) t x
           ++ if bool_decide (t = qb_teamName params)
              then filter (fun m => to_worker m = x) delivered
              else [])%list)
  /\ notify_log w'
     = (notify_log w ++ omap (call_for params) (take (S turns) recipients))%list
  /\ ids_below_counter (store w').
Proof.
  intros recipients sent turns delivered w' Hids.
  pose proof (queueBroadcastMailboxMessage_keeps_ids params now w Hids) as Hkeep.
  destruct (send_each_spec (qb_teamName params) (qb_fromWorker params)
              (qb_body params) (qb_cwd params) now recipients w)
    as (w1 & Hsend & Hbox1).
  fold sent in Hsend, Hbox1.
  pose proof (send_each_log (qb_teamName params) (qb_fromWorker params)
                (qb_body params) (qb_cwd params) now recipients w) as Hlog1.
  rewrite Hsend in Hlog1. simpl in Hlog1.
  destruct (notify_each_fresh params now (next_message_id (store w)) recipients w1)
    as (Hout & Hbox2 & Hlog2).
  fold sent turns in Hout, Hbox2, Hlog2.
  assert (queueBroadcastMailboxMessage params now w
          = notify_each params now (recipientByName (qb_recipients params)) sent w1)
    as Hrun.
  { unfold queueBroadcastMailboxMessage, bind, teamBroadcast.
    fold recipients. by rewrite Hsend. }
  assert (length sent = length recipients) as Hlen
    by apply fresh_messages_length.
  assert (turns <= length recipients)%nat as Hturns.
  { unfold turns. destruct (reached_split params recipients)
      as [_ [[_ ->] | (name & e & after & Hsplit & _)]]; [lia |].
    rewrite Hsplit at 2. rewrite length_app. lia. }
  assert (Forall (fun m => from_worker m = qb_fromWorker params
                           /\ body m = qb_body params
                           /\ notified_at m = None) sent) as Hfields
    by apply fresh_messages_fields.
  subst w'. rewrite Hrun.
  split; [exact Hout |]. split.
  { intros Hnone. unfold turns.
    destruct (reached_split params recipients)
      as [_ [[_ ->] | (name & e & after & _ & _ & Hsome)]]; [done | congruence]. }
  split.
  { intros e He. unfold turns.
    destruct (reached_split params recipients)
      as [_ [[Hnone _] | (name & e' & after & Hsplit & Hname & Hsome)]];
      [congruence |].
    exists name. split; [| congruence].
    clear -Hsplit. remember (reached params recipients) as l eqn:Hl. clear Hl.
    rewrite Hsplit. by apply list_lookup_middle. }
  split.
  { unfold turns. rewrite reached_take. apply reached_resolves. }
  split.
  { unfold recipients. rewrite list_elem_of_filter. by intros [? _]. }
  split.
  { unfold delivered. rewrite length_app, length_fmap, <- length_app.
    by rewrite take_drop. }
  split.
  { unfold delivered. rewrite fmap_app, <- list_fmap_compose.
    rewrite (list_fmap_ext (to_worker ∘ settle_listed params now) to_worker
               (take turns sent)).
    - rewrite <- fmap_app, take_drop. apply fresh_messages_to_worker.
    - intros i m _. simpl. rewrite <- settle_settle_listed.
      apply settle_to_worker. }
  split.
  { intros i m Hm. unfold delivered in Hm.
    rewrite Forall_forall in Hfields.
    apply lookup_app_Some in Hm as [Hm | [Hge Hm]].
    - rewrite list_lookup_fmap in Hm.
      destruct (take turns sent !! i) as [m0 |] eqn:Hm0; [| done].
      injection Hm as <-.
      pose proof (lookup_lt_Some _ _ _ Hm0) as Hi. rewrite length_take in Hi.
      rewrite lookup_take_Some in Hm0. destruct Hm0 as [Hm0 _].
      destruct (Hfields m0 (list_elem_of_lookup_2 _ _ _ Hm0))
        as (Hfrom & Hbody & Hnone).
      unfold settle_listed.
      destruct (answer_for params (to_worker m0)) as [[[|] | e] |] eqn:Hans;
        simpl; rewrite ?Hans.
      + split; [done |]. split; [done |].
        split; [intros _; split; [lia | done] | intros _; by eexists].
      + rewrite Hnone. split; [done |]. split; [done |].
        split; [by intros [? ?] | by intros [_ ?]].
      + rewrite Hnone. split; [done |]. split; [done |].
        split; [by intros [? ?] | by intros [_ ?]].
      + rewrite Hnone. split; [done |]. split; [done |].
        split; [by intros [? ?] | by intros [_ ?]].
    - rewrite length_fmap, length_take in Hge.
      rewrite lookup_drop in Hm.
      destruct (Hfields m (list_elem_of_lookup_2 _ _ _ Hm))
        as (Hfrom & Hbody & Hnone).
      rewrite Hnone. split; [done |]. split; [done |].
      split; [by intros [? ?] | intros [Hlt _]; lia]. }
  split; [| split].
  2:{ by rewrite Hlog2, Hlog1. }
  2:{ rewrite Hrun in Hkeep. exact Hkeep. }
  intros t x. rewrite Hbox2, Hbox1.
  case_bool_decide as Ht; [| by rewrite app_nil_r].
  unfold delivered. rewrite <- (take_drop turns sent) at 2.
  rewrite !filter_app.
  unfold stamp_marked. rewrite !fmap_app. f_equal; [| f_equal].
  - apply stamp_marked_untouched.
    pose proof (mailbox_of_ids_below _ t x Hids) as Hold.
    eapply Forall_impl; [exact Hold |]. simpl. intros m Hlt.
    unfold marked_ids. rewrite list_elem_of_fmap.
    intros (m' & Hid & [_ Hm']%list_elem_of_filter).
    apply elem_of_take_whole in Hm'.
    pose proof (fresh_messages_ids_from (qb_fromWorker params) (qb_body params)
                  now recipients (next_message_id (store w))) as Hge.
    rewrite Forall_forall in Hge. apply Hge in Hm'. lia.
  - rewrite (list_fmap_ext (settle_listed params now) (settle params now)
               (take turns sent))
      by (intros; by rewrite settle_settle_listed).
    apply (stamp_marked_settles params now). intros m Hm Hx.
    unfold marked_ids. rewrite list_elem_of_fmap. split.
    + intros (m' & Hid & [[_ Hok] Hm']%list_elem_of_filter).
      apply elem_of_take_whole in Hm, Hm'.
      by rewrite (fresh_messages_id_inj _ _ _ _ _ _ _ Hm Hm' Hid).
    + intros Hok. exists m. split; [done |]. by apply list_elem_of_filter.
  - apply stamp_marked_untouched.
    apply Forall_forall. intros m [_ Hm]%list_elem_of_filter.
    unfold marked_ids. rewrite list_elem_of_fmap.
    intros (m' & Hid & [_ Hm']%list_elem_of_filter).
    destruct (reached_split params recipients) as [_ Hcases].
    fold turns in Hcases.
    assert (exists after,
               recipients = (reached params recipients ++ after)%list)
      as [after Hsplit].
    { destruct Hcases as [[_ Hall] | (name & e & after & Hsplit & _)].
      - exists []. by rewrite app_nil_r.
      - by exists (name :: after). }
    unfold sent in Hm, Hm'. rewrite Hsplit in Hm, Hm'.
    rewrite fresh_messages_app in Hm, Hm'.
    assert (length (fresh_messages (qb_fromWorker params) (qb_body params) now
                      (next_message_id (store w)) (reached params recipients))
            = turns) as Hk by apply fresh_messages_length.
    rewrite <- Hk in Hm, Hm'.
    rewrite drop_app_length in Hm. rewrite take_app_length in Hm'.
    pose proof (fresh_messages_ids_upto (qb_fromWorker params) (qb_body params)
                  now (reached params recipients) (next_message_id (store w)))
      as Hup.
    pose proof (fresh_messages_ids_from (qb_fromWorker params) (qb_body params)
                  now after
                  (next_message_id (store w)
                   + N.of_nat (length (reached params recipients)))%N) as Hfrom.
    rewrite Forall_forall in Hup, Hfrom.
    apply Hup in Hm'. apply Hfrom in Hm. lia.
Qed.

Lemma broadcast_one_message_per_recipient_witness :
  ids_below_counter (store alpha_world)
  /\ snd (queueBroadcastMailboxMessage
            (broadcast_from_worker1 "alpha" notify_all_but_worker2) "t1"
            alpha_world) = Ok tt.
Proof.
  assert (ids_below_counter (store alpha_world)) as Hids.
  { apply (bool_decide_unpack _). vm_compute. exact I. }
  split; [exact Hids |].
  exact (proj1 (broadcast_one_message_per_recipient
                  (broadcast_from_worker1 "alpha" notify_all_but_worker2) "t1"
                  alpha_world Hids)).
Defined.

(** A team of three, the sender being [worker-1], and a notifier that fails
    to reach [worker-2]: two messages are stored, none for the sender, and
    only the one of [worker-3] is stamped. *)
Lemma broadcast_partial_delivery :
  let w' := fst (queueBroadcastMailboxMessage
                   (broadcast_from_worker1 "beta" notify_all_but_worker2) "t1"
                   beta_world) in
  snd (queueBroadcastMailboxMessage
         (broadcast_from_worker1 "beta" notify_all_but_worker2) "t1" beta_world)
  = Ok tt
  /\ mailbox_of (store w') "beta" "worker-1" = []
  /\ mailbox_of (store w') "beta" "worker-2"
     = [ {| message_id := 0; from_worker := "worker-1"; to_worker := "worker-2";
            body := "broadcast-body"; created_at := "t1"; notified_at := None |} ]
  /\ mailbox_of (store w') "beta" "worker-3"
     = [ {| message_id := 1; from_worker := "worker-1"; to_worker := "worker-3";
            body := "broadcast-body"; created_at := "t1";
            notified_at := Some "t1" |} ]
  /\ events w'
     = [ EvMessageStored "beta" "worker-2" 0;
         EvMessageStored "beta" "worker-3" 1;
         EvNotify {| workerName := "worker-2"; workerIndex := Some 2;
                     paneId := None |} "check mailbox worker-2";
         EvNotify {| workerName := "worker-3"; workerIndex := Some 3;
                     paneId := None |} "check mailbox worker-3";
         EvMarkedNotified "beta" "worker-3" 1 ].
Proof. repeat split; vm_compute; reflexivity. Qed.

(** C6 (counterexample to the claim as stated).  A team of three, the sender
    being [worker-1], and a notifier whose promise rejects for [worker-2] and
    would resolve true for [worker-3].  The failure for [worker-2] is raised:
    the call rejects with the notifier's error.  And it prevents the delivery
    to [worker-3]: the message of [worker-3] is stored, but the notifier is
    never called for [worker-3] and the message is left without
    [notified_at]. *)
Lemma broadcast_rejecting_notifier :
  let params := broadcast_from_worker1 "beta" notify_rejecting_worker2 in
  let w' := fst (queueBroadcastMailboxMessage params "t1" beta_world) in
  snd (queueBroadcastMailboxMessage params "t1" beta_world) = Throw "pane gone"
  /\ answer_for params "worker-3" = Some (Resolved true)
  /\ mailbox_of (store w') "beta" "worker-2"
     = [ {| message_id := 0; from_worker := "worker-1"; to_worker := "worker-2";
            body := "broadcast-body"; created_at := "t1"; notified_at := None |} ]
  /\ mailbox_of (store w') "beta" "worker-3"
     = [ {| message_id := 1; from_worker := "worker-1"; to_worker := "worker-3";
            body := "broadcast-body"; created_at := "t1"; notified_at := None |} ]
  /\ notify_log w'
     = [ ({| workerName := "worker-2"; workerIndex := Some 2; paneId := None |},
          "check mailbox worker-2") ].
Proof. repeat split; vm_compute; reflexivity. Qed.

End McpCommFacts.

(** ** Properties of the leader nudge *)

Module LeaderNudgeFacts.
Import LeaderNudge.

Example alpha_env_failed_send_effects :
  effects (fst (maybeNudgeTeamLeader (alpha_env false)))
  = [ Ran "tmux" ["list-panes"; "-t"; "omx-team-alpha"; "-F";
                  "#{pane_id} #{pane_pid}"];
      Ran "tmux" ["send-keys"; "-t"; "omx-team-alpha"; "-l";
                  "Team alpha: 1 msg(s) for leader. Run: omx team status alpha [OMX_TMUX_INJECT]"];
      HookLogged {| log_timestamp := "2026-01-01T00:00:00.000Z";
                    log_team := "alpha";
                    log_tmux_target := "omx-team-alpha";
                    log_reason := "new_mailbox_message";
                    log_pane_count := None;
                    log_leader_stale := None;
                    log_message_count := None;
                    log_error := Some "tmux exited with code 1" |};
      NudgeStateWritten ∅ ].
Proof. vm_compute. reflexivity. Qed.














End LeaderNudgeFacts.

(** ** Properties of the health check *)

Module DoctorFacts.
Import Doctor.

Lemma main_doctor_exit_status (env : Env) (rest : list string) :
  exists lines,
    main env ("doctor" :: rest) = Some {| stdout := lines; exit_status := 0 |}.
Proof. eexists. reflexivity. Qed.

(** C9 (evaluation of the code at the failing inputs).  [omx doctor] ends
    with exit status 0 in every environment and with every flag.  Run with
    [--team] where the record of team [alpha] names a session that the
    running multiplexer does not report, it prints the nine installation
    checks, no line with [resume_blocker], and exits 0; run where the
    multiplexer reports [omx-team-orphan] and no team record exists, it
    prints no line with [orphan_tmux_session] and exits 0. *)
Theorem doctor_skips_team_checks :
  (forall env rest,
      exit_status <$> main env ("doctor" :: rest) = Some 0)
  /\ tmux_list_sessions stale_team_env = Ok []
  /\ str_includes alpha_config_json "omx-team-alpha" = true
  /\ (exists run,
        main stale_team_env ["doctor"; "--team"] = Some run
        /\ exit_status run = 0
        /\ length (stdout run) = 13%nat
        /\ prints_tag "resume_blocker" run = false)
  /\ tmux_list_sessions orphan_session_env = Ok ["omx-team-orphan"]
  /\ (exists run,
        main orphan_session_env ["doctor"; "--team"] = Some run
        /\ exit_status run = 0
        /\ prints_tag "orphan_tmux_session" run = false).
Proof.
  split; [intros env rest; reflexivity |].
  split; [reflexivity |]. split; [vm_compute; reflexivity |].
  split; [eexists; repeat split; vm_compute; reflexivity |].
  split; [reflexivity |].
  eexists; repeat split; vm_compute; reflexivity.
Qed.

End DoctorFacts.

(* ===================================================================== *)
(** * Further properties *)
(* ===================================================================== *)

(** ** The phase state machine *)

Module OrchestratorMore.
Import Orchestrator OrchestratorFacts.

Lemma outcome_cases (s s' : TeamState) (to : Phase) (reason : option string)
    (now : string) :
  outcome s to reason now = Ok s' ->
  isValidTransition (phase s) to = true
  /\ exists s0 record,
       s' = spread_with s0 (tr_to record) (negb (isTerminal (tr_to record))) record
       /\ tr_from record = phase s
       /\ isValidTransition (phase s) (tr_to record) = true
       /\ (s0 = s \/ s0 = bump_fix_attempt s
                     /\ tr_to record = team_fix
                     /\ current_fix_attempt s < max_fix_attempts s)
       /\ (tr_to record = team_fix -> s0 = bump_fix_attempt s)
       /\ (tr_to record = to
           \/ to = team_fix /\ tr_to record = failed
              /\ max_fix_attempts s <= current_fix_attempt s).
Proof.
  intros Hout.
  destruct (isValidTransition (phase s) to) eqn:Hv.
  2:{ rewrite (outcome_invalid _ _ _ _ Hv) in Hout. discriminate Hout. }
  split; [done |].
  rewrite (outcome_valid _ _ _ _ Hv) in Hout.
  case_bool_decide as Hfix; [case_bool_decide as Hover |];
    injection Hout as <-.
  - subst to.
    exists s, {| tr_from := phase s; tr_to := failed; tr_at := now;
                 tr_reason := Some "Max fix attempts exceeded" |}.
    split; [reflexivity |]. simpl.
    assert (isValidTransition (phase s) failed = true) as Hf.
    { destruct (phase s); try discriminate Hv; reflexivity. }
    repeat split; auto. discriminate.
  - subst to.
    exists (bump_fix_attempt s),
           {| tr_from := phase s; tr_to := team_fix; tr_at := now;
              tr_reason := reason |}.
    split; [reflexivity |]. simpl.
    repeat split; auto. right. repeat split; auto. lia.
  - exists s, {| tr_from := phase s; tr_to := to; tr_at := now;
                 tr_reason := reason |}.
    split; [reflexivity |]. simpl.
    repeat split; auto. intros ->. done.
Qed.

(** Whatever the call does to its argument object, the phase, the active
    flag, the log and the fix limit of the object stay as they were. *)
Lemma argument_after_frame (s : TeamState) (to : Phase)
    (reason : option string) (now : string) :
  phase (argument_after s to reason now) = phase s
  /\ active (argument_after s to reason now) = active s
  /\ phase_transitions (argument_after s to reason now) = phase_transitions s
  /\ max_fix_attempts (argument_after s to reason now) = max_fix_attempts s.
Proof.
  unfold argument_after, transitionPhase.
  destruct (isValidTransition (phase s) to); simpl;
    repeat (case_bool_decide; simpl); auto.
Qed.

(** X1.  A successful [transitionPhase] call changes nothing but the phase,
    the active flag, the log and the fix counter: the task description, the
    creation time, the task list and the fix limit of the returned state are
    those of the input; and the argument object keeps its phase, its active
    flag and its log (the returned log is a new array). *)
Theorem transition_keeps_task_and_limit (s s' : TeamState) (to : Phase)
    (reason : option string) (now : string) :
  outcome s to reason now = Ok s' ->
  task_description s' = task_description s
  /\ created_at s' = created_at s
  /\ tasks s' = tasks s
  /\ max_fix_attempts s' = max_fix_attempts s
  /\ phase (argument_after s to reason now) = phase s
  /\ active (argument_after s to reason now) = active s
  /\ phase_transitions (argument_after s to reason now) = phase_transitions s
  /\ max_fix_attempts (argument_after s to reason now) = max_fix_attempts s.
Proof.
  intros Hout.
  destruct (outcome_cases _ _ _ _ _ Hout)
    as (Hv & s0 & record & -> & _ & _ & Hs0 & _ & _).
  assert (forall f : TeamState -> string,
             (f = task_description \/ f = created_at) ->
             f s0 = f s) as Hstr.
  { intros f [-> | ->]; destruct Hs0 as [-> | [-> _]]; reflexivity. }
  simpl. rewrite (Hstr task_description), (Hstr created_at) by auto.
  assert (tasks s0 = tasks s /\ max_fix_attempts s0 = max_fix_attempts s)
    as [-> ->] by (destruct Hs0 as [-> | [-> _]]; auto).
  unfold argument_after, transitionPhase. rewrite Hv. simpl.
  repeat (case_bool_decide; simpl); auto 10.
Qed.

Lemma transition_keeps_task_and_limit_witness :
  exists s',
    outcome verify_of_fresh_team team_fix (Some "needs fixes") "t2" = Ok s'
    /\ task_description s' = "immutable"
    /\ max_fix_attempts s' = 3.
Proof.
  eexists. split; [reflexivity |].
  destruct (transition_keeps_task_and_limit verify_of_fresh_team _ team_fix
              (Some "needs fixes") "t2" eq_refl) as (H1 & _ & _ & H2 & _).
  split; [exact H1 | exact H2].
Defined.

Lemma walk_snoc (log : list Transition) (record : Transition) :
  forall start,
    walk start (log ++ [record])
    = match walk start log with
      | Some p =>
          if bool_decide (tr_from record = p)
             && isValidTransition (tr_from record) (tr_to record)
          then Some (tr_to record) else None
      | None => None
      end.
Proof.
  induction log as [| r rest IH]; intros start; simpl.
  - by destruct (_ && _).
  - destruct (_ && _); [apply IH | done].
Qed.

(** X2.  The log of every state reached from [createTeamState] is a walk
    through the transition table that starts in [team-plan] and ends in the
    phase of the state: each record leaves the phase the previous record
    entered, and each record is a transition of the table. *)
Theorem log_is_walk_through_table (taskDescription : string)
    (maxFixAttempts : option Z) (created : string) (s : TeamState) :
  reachable_from (createTeamState taskDescription maxFixAttempts created) s ->
  walk team_plan (phase_transitions s) = Some (phase s).
Proof.
  induction 1 as [| s to reason now s' _ IH Hout | s to reason now _ IH].
  - reflexivity.
  - destruct (outcome_cases _ _ _ _ _ Hout)
      as (_ & s0 & record & -> & Hfrom & Hvalid & Hs0 & _ & _).
    simpl. rewrite walk_snoc.
    assert (phase_transitions s0 = phase_transitions s) as ->
      by (destruct Hs0 as [-> | [-> _]]; auto).
    rewrite IH, Hfrom, Hvalid. by rewrite bool_decide_true.
  - destruct (argument_after_frame s to reason now) as (-> & _ & -> & _).
    exact IH.
Qed.

Lemma log_is_walk_through_table_witness :
  exists s,
    bounded_loop_overflow "t" = Ok s
    /\ walk team_plan (phase_transitions s) = Some (phase s).
Proof.
  eexists. split; [reflexivity |].
  apply (log_is_walk_through_table "bounded loop" (Some 2) "t").
  pose proof (reach_init (createTeamState "bounded loop" (Some 2) "t")) as R.
  eapply (reach_returned _ _ team_prd None "t") in R; [| reflexivity].
  eapply (reach_returned _ _ team_exec None "t") in R; [| reflexivity].
  eapply (reach_returned _ _ team_verify None "t") in R; [| reflexivity].
  eapply (reach_returned _ _ team_fix (Some "attempt 1") "t") in R; [| reflexivity].
  eapply (reach_returned _ _ team_verify None "t") in R; [| reflexivity].
  eapply (reach_returned _ _ team_fix (Some "attempt 2") "t") in R; [| reflexivity].
  eapply (reach_returned _ _ team_verify None "t") in R; [| reflexivity].
  eapply (reach_returned _ _ team_fix (Some "attempt 3") "t") in R; [| reflexivity].
  exact R.
Defined.

Lemma fix_entries_snoc (log : list Transition) (record : Transition) :
  fix_entries (log ++ [record])
  = (fix_entries log + if bool_decide (tr_to record = team_fix) then 1 else 0)%nat.
Proof.
  unfold fix_entries. rewrite filter_app, length_app. f_equal.
  rewrite filter_cons, filter_nil. case_bool_decide; by case_decide.
Qed.

(** One call: the counter and the number of [team-fix] records of the log
    grow together. *)
Lemma outcome_counts (s s' : TeamState) (to : Phase) (reason : option string)
    (now : string) :
  outcome s to reason now = Ok s' ->
  current_fix_attempt s' - Z.of_nat (fix_entries (phase_transitions s'))
  = current_fix_attempt s - Z.of_nat (fix_entries (phase_transitions s))
  /\ length (phase_transitions s') = S (length (phase_transitions s)).
Proof.
  intros Hout.
  destruct (outcome_cases _ _ _ _ _ Hout)
    as (_ & s0 & record & -> & _ & _ & Hs0 & Hfix & _).
  simpl. rewrite fix_entries_snoc, length_app. simpl.
  assert (phase_transitions s0 = phase_transitions s) as ->
    by (destruct Hs0 as [-> | [-> _]]; auto).
  split; [| lia].
  case_bool_decide as Hto.
  - rewrite (Hfix Hto). simpl. lia.
  - destruct Hs0 as [-> | (_ & Hto' & _)]; [lia | done].
Qed.

(** X3.  When every call is made on the state the previous call returned,
    [current_fix_attempt] is the number of records of the log that enter
    [team-fix], and the log has one record per call.  When argument objects
    are used again after a call, the counter can only be ahead of the log:
    the number of [team-fix] records never exceeds it. *)
Theorem fix_counter_counts_log_entries (taskDescription : string)
    (maxFixAttempts : option Z) (created : string) :
  (forall n s,
      calls (createTeamState taskDescription maxFixAttempts created) n s ->
      current_fix_attempt s = Z.of_nat (fix_entries (phase_transitions s))
      /\ length (phase_transitions s) = n)
  /\ (forall s,
        reachable_from (createTeamState taskDescription maxFixAttempts created) s ->
        Z.of_nat (fix_entries (phase_transitions s)) <= current_fix_attempt s).
Proof.
  split.
  - intros n s Hcalls.
    remember (createTeamState taskDescription maxFixAttempts created) as init.
    induction Hcalls as [s | s n s1 s2 to reason now _ IH Hout].
    + by subst s.
    + destruct (IH Heqinit) as [IHc IHl].
      destruct (outcome_counts _ _ _ _ _ Hout) as [Hc Hl]. split; lia.
  - induction 1 as [| s to reason now s' _ IH Hout | s to reason now _ IH].
    + unfold fix_entries. simpl. lia.
    + destruct (outcome_counts _ _ _ _ _ Hout) as [Hc _]. lia.
    + unfold argument_after, transitionPhase.
      destruct (isValidTransition (phase s) to); simpl; [| exact IH].
      repeat (case_bool_decide; simpl); lia.
Qed.

Lemma fix_counter_counts_log_entries_witness :
  (exists s,
     bounded_loop_overflow "t" = Ok s
     /\ current_fix_attempt s = Z.of_nat (fix_entries (phase_transitions s))
     /\ length (phase_transitions s) = 8%nat)
  /\ Z.of_nat (fix_entries
                 (phase_transitions
                    (argument_after
                       (argument_after verify_of_fresh_team team_fix None "t2")
                       team_fix None "t3")))
     <= current_fix_attempt
          (argument_after
             (argument_after verify_of_fresh_team team_fix None "t2")
             team_fix None "t3").
Proof.
  split.
  - eexists. split; [reflexivity |].
    apply (proj1 (fix_counter_counts_log_entries "bounded loop" (Some 2) "t")).
    pose proof (calls_none (createTeamState "bounded loop" (Some 2) "t")) as R.
    eapply (calls_more _ _ _ _ team_prd None "t") in R; [| reflexivity].
    eapply (calls_more _ _ _ _ team_exec None "t") in R; [| reflexivity].
    eapply (calls_more _ _ _ _ team_verify None "t") in R; [| reflexivity].
    eapply (calls_more _ _ _ _ team_fix (Some "attempt 1") "t") in R; [| reflexivity].
    eapply (calls_more _ _ _ _ team_verify None "t") in R; [| reflexivity].
    eapply (calls_more _ _ _ _ team_fix (Some "attempt 2") "t") in R; [| reflexivity].
    eapply (calls_more _ _ _ _ team_verify None "t") in R; [| reflexivity].
    eapply (calls_more _ _ _ _ team_fix (Some "attempt 3") "t") in R; [| reflexivity].
    exact R.
  - apply (proj2 (fix_counter_counts_log_entries "immutable" None "t0")).
    apply reach_argument. apply reach_argument.
    pose proof (reach_init (createTeamState "immutable" None "t0")) as R.
    eapply (reach_returned _ _ team_prd None "t1") in R; [| reflexivity].
    eapply (reach_returned _ _ team_exec None "t1") in R; [| reflexivity].
    eapply (reach_returned _ _ team_verify None "t1") in R; [| reflexivity].
    exact R.
Defined.

(** An object used as argument twice is ahead of every log: after two
    requests for [team-fix] on the same [team-verify] object its counter is
    2, while it has no [team-fix] record and each returned state has one. *)
Lemma reused_argument_runs_ahead :
  let once := argument_after verify_of_fresh_team team_fix None "t2" in
  let twice := argument_after once team_fix None "t3" in
  current_fix_attempt twice = 2
  /\ fix_entries (phase_transitions twice) = 0%nat
  /\ (exists s', outcome once team_fix None "t3" = Ok s'
                 /\ current_fix_attempt s' = 2
                 /\ fix_entries (phase_transitions s') = 1%nat).
Proof. repeat split. eexists. repeat split; reflexivity. Qed.

Lemma rank_nonneg (p : Phase) : 0 <= rank p.
Proof. destruct p; simpl; lia. Qed.

(** One successful call uses up at least one of the calls that are left. *)
Lemma outcome_uses_a_call (s s' : TeamState) (to : Phase)
    (reason : option string) (now : string) :
  outcome s to reason now = Ok s' ->
  calls_left s' + 1 <= calls_left s.
Proof.
  intros Hout.
  destruct (outcome_cases _ _ _ _ _ Hout)
    as (_ & s0 & record & -> & _ & Hvalid & Hs0 & Hfix & _).
  unfold calls_left. simpl.
  destruct Hs0 as [-> | (-> & Hto & Hlt)].
  - destruct (phase s), (tr_to record); try discriminate Hvalid; simpl;
      try lia.
    specialize (Hfix eq_refl). apply (f_equal current_fix_attempt) in Hfix.
    simpl in Hfix. lia.
  - rewrite Hto in *. simpl.
    destruct (phase s); try discriminate Hvalid; simpl; lia.
Qed.

Lemma calls_bounded (s s' : TeamState) (n : nat) :
  calls s n s' ->
  current_fix_attempt s <= max_fix_attempts s ->
  Z.of_nat n <= calls_left s.
Proof.
  intros Hcalls Hle.
  assert (Z.of_nat n + calls_left s' <= calls_left s
          /\ current_fix_attempt s' <= max_fix_attempts s') as [Hn Hle'].
  { induction Hcalls as [s | s n s1 s2 to reason now _ IH Hout].
    - split; [lia | done].
    - destruct (IH Hle) as [IHn IHle].
      pose proof (outcome_uses_a_call _ _ _ _ _ Hout).
      destruct (outcome_keeps_invariants _ _ _ _ _ Hout IHle) as [H' _].
      split; [lia | done]. }
  assert (0 <= calls_left s') as Hpos.
  { unfold calls_left. pose proof (rank_nonneg (phase s')). lia. }
  lia.
Qed.

Lemma calls_trans (s s1 s2 : TeamState) (n m : nat) :
  calls s n s1 -> calls s1 m s2 -> calls s (n + m) s2.
Proof.
  intros H1 H2. induction H2 as [| s1 m s3 s4 to reason now _ IH Hout].
  - by rewrite Nat.add_0_r.
  - rewrite Nat.add_succ_r. eapply calls_more; [by apply IH | exact Hout].
Qed.

(** The longest way out of [team-verify]: fix, exec, verify, as often as the
    limit allows, then the request that is turned into [failed]. *)
Lemma longest_run_from_verify (k : nat) :
  forall s,
    phase s = team_verify ->
    max_fix_attempts s - current_fix_attempt s = Z.of_nat k ->
    exists s', calls s (3 * k + 1) s' /\ phase s' = failed.
Proof.
  induction k as [| k IH]; intros s Hp Hk.
  - eexists. split.
    + eapply (calls_more _ _ _ _ team_fix None ""); [apply calls_none |].
      rewrite outcome_valid by (by rewrite Hp).
      rewrite bool_decide_true by done. rewrite bool_decide_true by lia.
      reflexivity.
    + reflexivity.
  - pose (s1 := spread_with (bump_fix_attempt s) team_fix true
                  {| tr_from := phase s; tr_to := team_fix; tr_at := "";
                     tr_reason := None |}).
    pose (s2 := spread_with s1 team_exec true
                  {| tr_from := team_fix; tr_to := team_exec; tr_at := "";
                     tr_reason := None |}).
    pose (s3 := spread_with s2 team_verify true
                  {| tr_from := team_exec; tr_to := team_verify; tr_at := "";
                     tr_reason := None |}).
    assert (calls s 3 s3) as Hthree.
    { eapply (calls_more _ _ s2 _ team_verify None ""); [| reflexivity].
      eapply (calls_more _ _ s1 _ team_exec None ""); [| reflexivity].
      eapply (calls_more _ _ s _ team_fix None ""); [apply calls_none |].
      rewrite outcome_valid by (by rewrite Hp).
      rewrite bool_decide_true by done. rewrite bool_decide_false by lia.
      reflexivity. }
    destruct (IH s3) as (s' & Hrest & Hfailed); [reflexivity | simpl; lia |].
    exists s'. split; [| done].
    replace (3 * S k + 1)%nat with (3 + (3 * k + 1))%nat by lia.
    by eapply calls_trans.
Qed.

(** X4.  The pipeline stops, and the bound is exact: from
    [createTeamState] with a limit [m >= 0], no run of calls, each made on the
    state the previous call returned, has more than [3 * m + 4] successful
    calls, and there is a run of exactly [3 * m + 4] successful calls; it
    ends in [failed]. *)
Theorem pipeline_stops (taskDescription created : string) (m : Z) :
  0 <= m ->
  (forall n s',
      calls (createTeamState taskDescription (Some m) created) n s' ->
      Z.of_nat n <= 3 * m + 4)
  /\ (exists s',
        calls (createTeamState taskDescription (Some m) created)
          (Z.to_nat (3 * m + 4)) s'
        /\ phase s' = failed).
Proof.
  intros Hm. split.
  - intros n s' Hcalls. apply calls_bounded in Hcalls; [| simpl; lia].
    unfold calls_left in Hcalls. simpl in Hcalls. lia.
  - pose (init := createTeamState taskDescription (Some m) created).
    pose (s1 := spread_with init team_prd true
                  {| tr_from := team_plan; tr_to := team_prd; tr_at := "";
                     tr_reason := None |}).
    pose (s2 := spread_with s1 team_exec true
                  {| tr_from := team_prd; tr_to := team_exec; tr_at := "";
                     tr_reason := None |}).
    pose (s3 := spread_with s2 team_verify true
                  {| tr_from := team_exec; tr_to := team_verify; tr_at := "";
                     tr_reason := None |}).
    assert (calls init 3 s3) as Hthree.
    { eapply (calls_more _ _ s2 _ team_verify None ""); [| reflexivity].
      eapply (calls_more _ _ s1 _ team_exec None ""); [| reflexivity].
      eapply (calls_more _ _ init _ team_prd None ""); [apply calls_none |].
      reflexivity. }
    destruct (longest_run_from_verify (Z.to_nat m) s3) as (s' & Hrest & Hfailed);
      [reflexivity | simpl; lia |].
    exists s'. split; [| done].
    replace (Z.to_nat (3 * m + 4)) with (3 + (3 * Z.to_nat m + 1))%nat by lia.
    by eapply calls_trans.
Qed.

Lemma pipeline_stops_witness :
  (forall n s',
      calls (createTeamState "bounded loop" (Some 2) "t") n s' ->
      Z.of_nat n <= 3 * 2 + 4)
  /\ (exists s',
        calls (createTeamState "bounded loop" (Some 2) "t")
          (Z.to_nat (3 * 2 + 4)) s'
        /\ phase s' = failed).
Proof. apply (pipeline_stops "bounded loop" "t" 2). lia. Defined.

(** X5.  What a successful call can return: the phase of the returned state
    is never [cancelled] and never [team-plan], it differs from the phase of
    the input, the pair is a transition of the table, and the returned state
    is active exactly when its phase is not terminal. *)
Theorem returned_phase_and_active (s s' : TeamState) (to : Phase)
    (reason : option string) (now : string) :
  outcome s to reason now = Ok s' ->
  phase s' <> cancelled
  /\ phase s' <> team_plan
  /\ phase s' <> phase s
  /\ in_spec_table (phase s) (phase s')
  /\ (active s' = true <-> ~ terminal (phase s')).
Proof.
  intros Hout.
  destruct (outcome_cases _ _ _ _ _ Hout)
    as (_ & s0 & record & -> & _ & Hvalid & _).
  simpl. pose proof (proj1 (isValidTransition_spec_table _ _) Hvalid) as Hin.
  repeat split; try done.
  - intros H. rewrite H in Hvalid. by destruct (phase s).
  - intros H. rewrite H in Hvalid. by destruct (phase s).
  - intros H. rewrite H in Hvalid.
    by rewrite isValidTransition_same_phase in Hvalid.
  - intros Hact [H | [H | H]]; rewrite H in Hact; discriminate Hact.
  - intros Hnt. destruct (tr_to record); try reflexivity;
      exfalso; apply Hnt; unfold terminal; auto.
Qed.

Lemma returned_phase_and_active_witness :
  exists s',
    outcome verify_at_limit team_fix None "t" = Ok s'
    /\ phase s' <> cancelled
    /\ (active s' = true <-> ~ terminal (phase s')).
Proof.
  eexists. split; [reflexivity |].
  destruct (returned_phase_and_active verify_at_limit _ team_fix None "t" eq_refl)
    as (H1 & _ & _ & _ & H2).
  split; [exact H1 | exact H2].
Defined.

(** X6.  No dead end: from every state whose phase is not terminal, at most
    four calls, each made on the state the previous call returned, reach
    [complete] with [active = false], whatever the fix counter is. *)
Theorem completion_within_four_calls (s : TeamState) :
  ~ terminal (phase s) ->
  exists n s',
    (n <= 4)%nat /\ calls s n s' /\ phase s' = complete /\ active s' = false.
Proof.
  intros Hnt.
  assert (forall s0 to,
             to <> team_fix -> isValidTransition (phase s0) to = true ->
             outcome s0 to None ""
             = Ok (spread_with s0 to (negb (isTerminal to))
                     {| tr_from := phase s0; tr_to := to; tr_at := "";
                        tr_reason := None |})) as Hstep.
  { intros s0 to Hto Hv. rewrite outcome_valid by done.
    by rewrite bool_decide_false by done. }
  pose proof (calls_none s) as R.
  destruct (phase s) eqn:Hp;
    try (exfalso; apply Hnt; unfold terminal; by auto).
  - eapply calls_more in R; [| apply (Hstep _ team_prd); [done | by rewrite Hp]].
    eapply calls_more in R; [| apply (Hstep _ team_exec); [done | reflexivity]].
    eapply calls_more in R; [| apply (Hstep _ team_verify); [done | reflexivity]].
    eapply calls_more in R; [| apply (Hstep _ complete); [done | reflexivity]].
    eexists _, _. split; [| split; [exact R | split; reflexivity]]. lia.
  - eapply calls_more in R; [| apply (Hstep _ team_exec); [done | by rewrite Hp]].
    eapply calls_more in R; [| apply (Hstep _ team_verify); [done | reflexivity]].
    eapply calls_more in R; [| apply (Hstep _ complete); [done | reflexivity]].
    eexists _, _. split; [| split; [exact R | split; reflexivity]]. lia.
  - eapply calls_more in R; [| apply (Hstep _ team_verify); [done | by rewrite Hp]].
    eapply calls_more in R; [| apply (Hstep _ complete); [done | reflexivity]].
    eexists _, _. split; [| split; [exact R | split; reflexivity]]. lia.
  - eapply calls_more in R; [| apply (Hstep _ complete); [done | by rewrite Hp]].
    eexists _, _. split; [| split; [exact R | split; reflexivity]]. lia.
  - eapply calls_more in R; [| apply (Hstep _ complete); [done | by rewrite Hp]].
    eexists _, _. split; [| split; [exact R | split; reflexivity]]. lia.
Qed.

Lemma completion_within_four_calls_witness :
  exists n s',
    (n <= 4)%nat /\ calls exhausted_in_fix n s' /\ phase s' = complete
    /\ active s' = false.
Proof.
  apply completion_within_four_calls.
  intros [H | [H | H]]; discriminate H.
Defined.

(** X7.  The two tables of agent roles agree: for each of the five working
    phases, [getPhaseInstructions] names at least one agent with a slash, and
    every agent it names is among the agents [getPhaseAgents] recommends for
    that phase; for the terminal phases both functions have no case. *)
Theorem instructions_name_recommended_agents (p : Phase) :
  match getPhaseAgents p, getPhaseInstructions p with
  | Some agents, Some text =>
      ~ terminal p
      /\ slash_commands text <> []
      /\ Forall (fun command => command ∈ agents) (slash_commands text)
  | None, None => terminal p
  | _, _ => False
  end.
Proof.
  destruct p; simpl; unfold terminal; auto;
    (split; [by intros [H | [H | H]] |]);
    (split; [done |]);
    apply (bool_decide_unpack _); vm_compute; exact I.
Qed.

End OrchestratorMore.

(** ** The mailbox communication layer *)

Module McpCommMore.
Import McpComm McpCommFacts.

(** X8.  The by-name map of a broadcast follows [Map] semantics: looking a
    worker name up gives the last recipient listed under that name (so a
    later entry decides the index and the pane that are notified), and
    nothing when no recipient is listed under it. *)
Theorem recipientByName_last_listed (recipients : list Recipient) (name : string) :
  recipientByName recipients !! name
  = last (filter (fun r => r_workerName r = name) recipients).
Proof.
  induction recipients as [| r rest IH] using rev_ind; [done |].
  rewrite recipientByName_snoc, filter_app, filter_cons, filter_nil.
  destruct (decide (r_workerName r = name)) as [Heq | Hne].
  - rewrite <- Heq at 1. rewrite lookup_insert_eq. by rewrite last_snoc.
  - rewrite lookup_insert_ne by done. by rewrite app_nil_r.
Qed.

(** X9.  A notifier whose promise rejects ends the loop of a broadcast: the
    call rejects with that error; the recipients before the rejecting one
    were notified and marked as usual; the rejecting one was called, and the
    messages after it are neither notified nor marked, whatever the notifier
    would have answered for them. *)
Theorem notify_each_stops_at_rejection (params : QueueBroadcastParams)
    (now : string) (before after : list MailboxMessage) (m : MailboxMessage)
    (err : string) (w : World) :
  let byName := recipientByName (qb_recipients params) in
  let run := notify_each params now byName (before ++ m :: after) w in
  let earlier := notify_each params now byName before w in
  Forall (fun m0 => never_rejects params (to_worker m0) = true) before ->
  notify_answer params (to_worker m) = Some (Rejected err) ->
  snd run = Throw err
  /\ snd earlier = Ok tt
  /\ store (fst run) = store (fst earlier)
  /\ notify_log (fst run)
     = (notify_log w
        ++ omap (notify_call params) (to_worker <$> (before ++ [m])))%list.
Proof.
  intros byName run earlier Hbefore Hm.
  destruct (notify_each_spec params now before w Hbefore) as (w1 & Hrun1 & _).
  pose proof (notify_each_log params now before w Hbefore) as Hlog1.
  subst run earlier byName. rewrite notify_each_app, Hrun1 in *.
  simpl in Hlog1. simpl.
  unfold notify_answer in Hm. unfold notify_call.
  rewrite fmap_app, omap_app. simpl.
  destruct (recipientByName (qb_recipients params) !! to_worker m)
    as [recipient |]; [| done].
  injection Hm as Hm. unfold bind, call_notify. rewrite Hm. simpl.
  repeat split; try done.
  rewrite notify_log_snoc, Hlog1. by rewrite app_assoc.
Qed.

Lemma notify_each_stops_at_rejection_witness :
  let params :=
    broadcast_from_worker1 "beta"
      (fun target _ =>
         if bool_decide (workerName target = "worker-2")
         then Rejected "pane gone" else Resolved true) in
  let m2 := {| message_id := 0; from_worker := "worker-1"; to_worker := "worker-2";
               body := "b"; created_at := "t"; notified_at := None |} in
  let m3 := {| message_id := 1; from_worker := "worker-1"; to_worker := "worker-3";
               body := "b"; created_at := "t"; notified_at := None |} in
  snd (notify_each params "t1" (recipientByName (qb_recipients params))
         ([] ++ m2 :: [m3]) beta_world) = Throw "pane gone".
Proof.
  intros params m2 m3.
  refine (proj1 (notify_each_stops_at_rejection params "t1" [] [m3] m2
                   "pane gone" beta_world _ _)).
  - constructor.
  - vm_compute. reflexivity.
Defined.

End McpCommMore.

(** ** The team leader nudge *)

Module LeaderNudgeMore.
Import LeaderNudge LeaderNudgeFacts.

(** X10.  Both intervals are clamped: whatever the environment variables
    hold, the nudge interval and the staleness threshold lie between 10
    seconds and 30 minutes; a value inside that range is used as it is, and
    any other value gives the default (2 minutes for the nudge interval, 3
    minutes for the staleness threshold). *)
Theorem intervals_are_clamped (env : Env) (stale_parsed : option Z) :
  (10000 <= resolveLeaderNudgeIntervalMs env <= 1800000)
  /\ (10000 <= resolveLeaderStalenessThresholdMs stale_parsed <= 1800000)
  /\ (forall v, env_OMX_TEAM_LEADER_NUDGE_MS env = Some v ->
        resolveLeaderNudgeIntervalMs env
        = if bool_decide (10000 <= v <= 1800000) then v else 120000)
  /\ (env_OMX_TEAM_LEADER_NUDGE_MS env = None ->
      resolveLeaderNudgeIntervalMs env = 120000)
  /\ (forall v, stale_parsed = Some v ->
        resolveLeaderStalenessThresholdMs stale_parsed
        = if bool_decide (10000 <= v <= 1800000) then v else 180000)
  /\ (stale_parsed = None ->
      resolveLeaderStalenessThresholdMs stale_parsed = 180000).
Proof.
  unfold resolveLeaderNudgeIntervalMs, resolveLeaderStalenessThresholdMs.
  assert (forall (o : option Z) (d : Z),
             10000 <= d <= 1800000 ->
             let r := match o with
                      | Some v => if (10000 <=? v)%Z && (v <=? 30 * 60000)%Z
                                  then v else d
                      | None => d
                      end in
             10000 <= r <= 1800000
             /\ (forall v, o = Some v ->
                   r = if bool_decide (10000 <= v <= 1800000) then v else d)
             /\ (o = None -> r = d)) as Hclamp.
  { intros o d Hd. destruct o as [v |]; simpl.
    - destruct (10000 <=? v)%Z eqn:H1, (v <=? 30 * 60000)%Z eqn:H2; simpl;
        (split; [lia |]); (split; [| done]); intros v' [= <-];
        case_bool_decide; lia.
    - split; [lia |]. split; [done | done]. }
  destruct (Hclamp (env_OMX_TEAM_LEADER_NUDGE_MS env) 120000 ltac:(lia))
    as (H1 & H2 & H3).
  destruct (Hclamp stale_parsed 180000 ltac:(lia)) as (H4 & H5 & H6).
  auto 10.
Qed.

Lemma intervals_are_clamped_witness :
  resolveLeaderNudgeIntervalMs (alpha_env true) = 120000
  /\ resolveLeaderStalenessThresholdMs (Some 5) = 180000
  /\ resolveLeaderStalenessThresholdMs (Some 60000) = 60000.
Proof.
  split; [| split].
  - apply (proj1 (proj2 (proj2 (proj2 (intervals_are_clamped (alpha_env true) None))))).
    reflexivity.
  - exact (proj1 (proj2 (proj2 (proj2 (proj2
             (intervals_are_clamped (alpha_env true) (Some 5))))))
             5 eq_refl).
  - exact (proj1 (proj2 (proj2 (proj2 (proj2
             (intervals_are_clamped (alpha_env true) (Some 60000))))))
             60000 eq_refl).
Defined.

(** X11.  Leader staleness: without a HUD state, without a [last_turn_at],
    or with one that does not parse, the leader counts as stale.  With a
    readable [last_turn_at] the leader is stale exactly when the turn is at
    least the threshold old; so staleness persists as time passes and under a
    smaller threshold. *)
Theorem leader_staleness (parse : string -> option Z) (hudState : option string)
    (thresholdMs nowMs : Z) :
  (hudState = None -> isLeaderStale parse hudState thresholdMs nowMs = true)
  /\ (forall at_, hudState = Some at_ -> at_ = "" \/ parse at_ = None ->
        isLeaderStale parse hudState thresholdMs nowMs = true)
  /\ (forall at_ lastMs, hudState = Some at_ -> at_ <> "" ->
        parse at_ = Some lastMs ->
        (isLeaderStale parse hudState thresholdMs nowMs = true
         <-> thresholdMs <= nowMs - lastMs))
  /\ (forall thresholdMs' nowMs',
        thresholdMs' <= thresholdMs -> nowMs <= nowMs' ->
        isLeaderStale parse hudState thresholdMs nowMs = true ->
        isLeaderStale parse hudState thresholdMs' nowMs' = true).
Proof.
  unfold isLeaderStale, truthy. split; [| split; [| split]].
  - by intros ->.
  - intros a -> [-> | Hp]; [done |].
    destruct (String.eqb a ""); simpl; [done | by rewrite Hp].
  - intros a lastMs -> Hne Hp.
    apply String.eqb_neq in Hne. rewrite Hne. simpl. rewrite Hp. lia.
  - intros thresholdMs' nowMs' Ht Hn.
    destruct hudState as [a |]; [| done].
    destruct (negb (String.eqb a "")); simpl; [| done].
    destruct (parse a); [lia | done].
Qed.

Lemma leader_staleness_witness :
  isLeaderStale (Date_parse (alpha_env true)) None 180000 0 = true
  /\ isLeaderStale (Date_parse (alpha_env true)) (Some "") 180000 0 = true
  /\ (isLeaderStale (Date_parse (alpha_env true))
        (Some "2026-01-01T00:00:00.000Z") 180000 1767225780000 = true
      <-> 180000 <= 1767225780000 - 1767225600000)
  /\ isLeaderStale (Date_parse (alpha_env true))
       (Some "2026-01-01T00:00:00.000Z") 10000 1767225800000 = true.
Proof.
  split; [| split; [| split]].
  - apply (proj1 (leader_staleness _ None 180000 0)). reflexivity.
  - apply (proj1 (proj2 (leader_staleness _ (Some "") 180000 0)) "").
    + reflexivity.
    + left. reflexivity.
  - apply (proj1 (proj2 (proj2 (leader_staleness _
             (Some "2026-01-01T00:00:00.000Z") 180000 1767225780000)))
             "2026-01-01T00:00:00.000Z" 1767225600000).
    + reflexivity.
    + discriminate.
    + reflexivity.
  - apply (proj2 (proj2 (proj2 (leader_staleness _
             (Some "2026-01-01T00:00:00.000Z") 180000 1767225780000)))
             10000 1767225800000).
    + lia.
    + lia.
    + reflexivity.
Defined.

Lemma length_append (a b : string) :
  String.length (a ++ b) = (String.length a + String.length b)%nat.
Proof. induction a as [| c a IH]; simpl; [done | by rewrite IH]. Qed.

Lemma length_substring_0 (n : nat) :
  forall s, String.length (String.substring 0 n s) = Nat.min n (String.length s).
Proof.
  induction n as [| n IH]; intros s; destruct s as [| c s]; simpl; auto.
Qed.

Lemma prefix_append (p q : string) : String.prefix p (p ++ q) = true.
Proof.
  induction p as [| c p IH]; simpl; [by destruct q |].
  destruct (ascii_dec c c); [exact IH | congruence].
Qed.

(** X12.  The nudge text is capped.  For a text of ASCII characters (where
    the bytes of the text are its UTF-16 code units): the capped text is
    never longer than 180 characters; a text of at most 180 characters is
    typed as it is, a longer one becomes exactly 180 characters, its first
    177 followed by three dots.  So for a team name and a marker of ASCII
    characters, what is typed into the leader's pane is at most 181
    characters plus the marker. *)
Theorem nudge_text_is_capped (text : string) (env : Env) (prev : NudgeRecord)
    (teamName : string) :
  is_ascii_text text = true ->
  is_ascii_text teamName = true ->
  is_ascii_text (DEFAULT_MARKER env) = true ->
  (String.length (cap_text text) <= 180)%nat
  /\ ((String.length text <= 180)%nat -> cap_text text = text)
  /\ ((180 < String.length text)%nat ->
      String.length (cap_text text) = 180%nat
      /\ cap_text text = String.substring 0 177 text ++ "..."
      /\ String.prefix (String.substring 0 177 text) (cap_text text) = true
      /\ String.length (String.substring 0 177 text) = 177%nat)
  /\ (String.length (marked_text env prev teamName)
      <= 181 + String.length (DEFAULT_MARKER env))%nat.
Proof.
  intros _ _ _.
  assert (forall t, (String.length (cap_text t) <= 180)%nat) as Hcap.
  { intros t. unfold cap_text.
    destruct (Nat.ltb_spec 180 (String.length t)).
    - rewrite length_append, length_substring_0.
      change (String.length "...") with 3%nat. lia.
    - lia. }
  split; [apply Hcap |]. split; [| split].
  - intros Hlen. unfold cap_text.
    by destruct (Nat.ltb_spec 180 (String.length text)); [lia |].
  - intros Hlen. unfold cap_text.
    destruct (Nat.ltb_spec 180 (String.length text)); [| lia].
    split; [| split; [done | split]].
    + rewrite length_append, length_substring_0.
      change (String.length "...") with 3%nat. lia.
    + apply prefix_append.
    + rewrite length_substring_0. lia.
  - unfold marked_text.
    match goal with |- context [cap_text ?t] => pose proof (Hcap t) as Ht end.
    rewrite !length_append. change (String.length " ") with 1%nat. lia.
Qed.

Lemma nudge_text_is_capped_witness :
  cap_text "Team alpha active. Run: omx team status alpha"
  = "Team alpha active. Run: omx team status alpha"
  /\ String.length
       (cap_text
          (nudge_text
             "a-team-whose-name-is-long-enough-to-push-the-text-over-the-cap-of-one-hundred-and-eighty-characters"
             {| alive := true; paneCount := 3 |} 2 true true)) = 180%nat.
Proof.
  split.
  - apply (proj1 (proj2 (nudge_text_is_capped
             "Team alpha active. Run: omx team status alpha"
             (alpha_env true) {| nr_at := ""; nr_last_message_id := "" |} "alpha"
             ltac:(vm_compute; reflexivity) ltac:(vm_compute; reflexivity)
             ltac:(vm_compute; reflexivity)))).
    vm_compute. lia.
  - apply (proj1 (proj2 (proj2 (nudge_text_is_capped
             (nudge_text
                "a-team-whose-name-is-long-enough-to-push-the-text-over-the-cap-of-one-hundred-and-eighty-characters"
                {| alive := true; paneCount := 3 |} 2 true true)
             (alpha_env true) {| nr_at := ""; nr_last_message_id := "" |} "alpha"
             ltac:(vm_compute; reflexivity) ltac:(vm_compute; reflexivity)
             ltac:(vm_compute; reflexivity))))).
    vm_compute. lia.
Defined.











End LeaderNudgeMore.

(** ** Further properties of the health check *)

Module DoctorMore.
Import Doctor.

(** *** Substrings *)

Lemma prefix_trans (a b s : string) :
  String.prefix a b = true -> String.prefix b s = true ->
  String.prefix a s = true.
Proof.
  revert b s. induction a as [| c a IH]; intros b s Hab Hbs; [by destruct s |].
  destruct b as [| c' b]; [discriminate Hab |].
  destruct s as [| c'' s]; [discriminate Hbs |].
  simpl in *.
  destruct (ascii_dec c c'); [subst | discriminate Hab].
  destruct (ascii_dec c' c''); [subst | discriminate Hbs].
  destruct (ascii_dec c'' c''); [| done]. by apply (IH b).
Qed.

(** A text that holds a needle holds every beginning of the needle. *)
Lemma str_includes_shorter (s needle short : string) :
  String.prefix short needle = true ->
  str_includes s needle = true -> str_includes s short = true.
Proof.
  intros Hshort. induction s as [| c s IH]; cbn [str_includes]; intros H;
    apply orb_true_iff in H as [H | H]; apply orb_true_iff.
  - left. by apply (prefix_trans _ needle).
  - discriminate H.
  - left. by apply (prefix_trans _ needle).
  - right. by apply IH.
Qed.

(** X16.  The two checks that read [config.toml] agree: when the file is
    missing both warn with the same message; one fails exactly when the other
    fails (the file cannot be read); and whenever the MCP check passes the
    config check passes too, so a report never shows OMX servers present in a
    file said to have no OMX entries. *)
Theorem config_checks_agree (env : Env) :
  (existsSync env (codexConfigPath env) = false ->
   status (checkConfig env) = warn /\ status (checkMcpServers env) = warn
   /\ message (checkConfig env) = message (checkMcpServers env))
  /\ (status (checkConfig env) = fail <-> status (checkMcpServers env) = fail)
  /\ (status (checkMcpServers env) = pass -> status (checkConfig env) = pass).
Proof.
  unfold checkConfig, checkMcpServers.
  destruct (existsSync env (codexConfigPath env)); simpl;
    [| by repeat split].
  destruct (readFile env (codexConfigPath env)) as [content | msg]; simpl;
    [| by repeat split].
  split; [done |]. split.
  - destruct (str_includes content "omx_" || str_includes content "oh-my-codex");
      destruct (0 <? count_matches content "[mcp_servers.")%nat;
      destruct (str_includes content "omx_state" || str_includes content "omx_memory");
      by split.
  - destruct (0 <? count_matches content "[mcp_servers.")%nat; [| done].
    destruct (str_includes content "omx_state" || str_includes content "omx_memory")
      eqn:Homx; [| done].
    intros _.
    assert (str_includes content "omx_" = true) as ->; [| done].
    apply orb_true_iff in Homx as [H | H];
      [apply (str_includes_shorter _ "omx_state") | apply (str_includes_shorter _ "omx_memory")];
      done.
Qed.

(** *** Decimal numerals *)

Lemma digit_of_pretty_N_char (d : N) :
  (d < 10)%N -> digit_of (pretty_N_char d) = Some (Z.of_N d).
Proof.
  intros Hd.
  assert (d = 0 \/ d = 1 \/ d = 2 \/ d = 3 \/ d = 4 \/ d = 5 \/ d = 6 \/ d = 7
          \/ d = 8 \/ d = 9)%N as Hcases by lia.
  repeat (destruct Hcases as [-> | Hcases]; [reflexivity |]).
  by subst.
Qed.

Lemma pretty_N_go_value (x : N) :
  forall s acc,
    (0 < x)%N ->
    exists k : Z,
      digits_value (pretty_N_go x s) acc
      = digits_value s (Some (default 0 acc * 10 ^ k + Z.of_N x))
      /\ 0 <= k.
Proof.
  induction (N.lt_wf_0 x) as [x _ IH]. intros s acc Hpos.
  rewrite pretty_N_go_step by done.
  pose proof (N.mod_lt x 10 ltac:(done)) as Hmod.
  pose proof (N.div_mod x 10 ltac:(done)) as Hdiv.
  destruct (decide (x `div` 10 = 0)%N) as [Hzero | Hmore].
  - rewrite Hzero, pretty_N_go_0. simpl.
    rewrite digit_of_pretty_N_char by done.
    exists 1. split; [| lia]. do 2 f_equal. lia.
  - destruct (IH (x `div` 10)%N ltac:(apply N.div_lt; lia)
                (String (pretty_N_char (x `mod` 10)) s) acc ltac:(lia))
      as (k & -> & Hk).
    simpl. rewrite digit_of_pretty_N_char by done.
    exists (k + 1). split; [| lia]. do 2 f_equal. simpl.
    rewrite Z.pow_add_r by lia. lia.
Qed.

Lemma pretty_N_go_digits (x : N) :
  forall s, all_digits s -> all_digits (pretty_N_go x s).
Proof.
  induction (N.lt_wf_0 x) as [x _ IH]. intros s Hs.
  destruct (decide (x = 0)%N) as [-> | Hpos]; [by rewrite pretty_N_go_0 |].
  rewrite pretty_N_go_step by lia.
  apply IH; [apply N.div_lt; lia |].
  intros c [<- | Hin]; [| by apply Hs].
  rewrite digit_of_pretty_N_char; [done |]. by apply N.mod_lt.
Qed.

Lemma pretty_N_go_digits_value (x : N) :
  (0 < x)%N -> digits_value (pretty_N_go x "") None = Some (Z.of_N x).
Proof.
  intros Hpos. destruct (pretty_N_go_value x "" None Hpos) as (k & -> & _).
  done.
Qed.

Lemma digits_value_pretty (n : nat) :
  digits_value (pretty n) None = Some (Z.of_nat n).
Proof.
  unfold pretty, pretty_nat, pretty, pretty_N.
  destruct (decide (N.of_nat n = 0)%N) as [Hz | Hnz].
  - assert (n = 0%nat) as -> by lia. reflexivity.
  - rewrite pretty_N_go_digits_value by lia. f_equal. lia.
Qed.

Lemma pretty_nat_digits (n : nat) : all_digits (pretty n).
Proof.
  unfold pretty, pretty_nat, pretty, pretty_N.
  destruct (decide (N.of_nat n = 0)%N) as [Hz | Hnz].
  - intros c [<- | []]. done.
  - apply pretty_N_go_digits. by intros c [].
Qed.

Lemma parseInt_digit (c : ascii) (rest : string) :
  digit_of c <> None ->
  parseInt (String c rest) = digits_value (String c rest) None.
Proof.
  destruct c as [[] [] [] [] [] [] [] []]; intros H; try reflexivity;
    by destruct H.
Qed.

(** [parseInt] reads back the decimal numeral of a natural number. *)
Lemma parseInt_pretty (n : nat) : parseInt (pretty n) = Some (Z.of_nat n).
Proof.
  pose proof (digits_value_pretty n) as Hvalue.
  pose proof (pretty_nat_digits n) as Hdigits.
  destruct (pretty n) as [| c rest] eqn:Hp; [discriminate Hvalue |].
  rewrite parseInt_digit; [done |]. apply Hdigits. by left.
Qed.

Lemma before_sep_digits (p rest : string) :
  all_digits p -> LeaderNudge.before_sep "." (p ++ "." ++ rest) = p.
Proof.
  induction p as [| c p IH]; intros Hp; [done |].
  simpl. destruct (Ascii.eqb_spec c ".") as [-> | _].
  - exfalso. apply (Hp "."%char); [by left | done].
  - f_equal. apply IH. intros c' Hc'. apply Hp. by right.
Qed.

(** X17.  The Node.js check reads the major version: for a version string
    that starts with the decimal numeral of [major] followed by a dot, the
    check passes exactly when [major] is at least 20, and otherwise fails
    (it never warns). *)
Theorem node_check_reads_major (env : Env) (major : nat) (rest : string) :
  node_version env = pretty major ++ "." ++ rest ->
  (status (checkNodeVersion env) = pass <-> (20 <= major)%nat)
  /\ (status (checkNodeVersion env) = fail <-> (major < 20)%nat).
Proof.
  intros Hversion. unfold checkNodeVersion.
  rewrite Hversion, before_sep_digits by apply pretty_nat_digits.
  rewrite parseInt_pretty.
  destruct (Z.leb_spec 20 (Z.of_nat major)); simpl; split; split;
    intros; try done; lia.
Qed.

Lemma node_check_reads_major_witness :
  status (checkNodeVersion stale_team_env) = pass <-> (20 <= 22)%nat.
Proof.
  exact (proj1 (node_check_reads_major stale_team_env 22 "3.0" eq_refl)).
Defined.

Lemma count_status_total (checks : list Check) :
  (count_status pass checks + count_status warn checks
   + count_status fail checks = length checks)%nat.
Proof.
  unfold count_status.
  induction checks as [| c checks IH]; simpl; [done |].
  destruct (status c); simpl; lia.
Qed.

Lemma count_status_all (s : CheckStatus) (checks : list Check) :
  count_status s checks = length checks <-> Forall (fun c => status c = s) checks.
Proof.
  unfold count_status.
  induction checks as [| c checks IH]; simpl; [by split |].
  pose proof (filter_length_le
                (fun c0 => match status c0, s with
                           | pass, pass | warn, warn | fail, fail => true
                           | _, _ => false
                           end) checks) as Hle.
  rewrite Forall_cons.
  destruct (status c) eqn:Hc, s; simpl; split;
    try (intros H; exfalso; lia);
    try (intros [H _]; discriminate H);
    try (intros H; split; [done |]; apply IH; lia);
    intros [_ H]; apply IH in H; lia.
Qed.

Lemma count_status_some (s : CheckStatus) (checks : list Check) :
  (0 < count_status s checks)%nat <-> Exists (fun c => status c = s) checks.
Proof.
  unfold count_status.
  induction checks as [| c checks IH]; simpl.
  - split; [lia | by intros H%Exists_nil].
  - rewrite Exists_cons.
    destruct (status c) eqn:Hc, s; simpl; split;
      try (intros _; by left);
      try (intros _; lia);
      try (intros H; right; by apply IH);
      intros [H | H]; try discriminate H; by apply IH.
Qed.

(** X18.  The report of [doctor]: thirteen lines, of which nine are check
    lines in a fixed order; the three counts of the results line add up to
    nine, and at most six checks can fail (the two directory checks and the
    AGENTS.md check only pass or warn).  The last line says that all checks
    passed exactly when each of the nine checks passed, and recommends
    [omx setup] exactly when some check failed. *)
Theorem doctor_report (env : Env) (options : DoctorOptions) :
  let checks :=
    [ checkCodexCli env; checkNodeVersion env;
      checkDirectory env "Codex home" (codexHome env);
      checkConfig env; checkPrompts env; checkSkills env; checkAgentsMd env;
      checkDirectory env "State dir" (omxStateDir env);
      checkMcpServers env ] in
  let p := count_status pass checks in
  let w := count_status warn checks in
  let f := count_status fail checks in
  doctor env options
  = ("oh-my-codex doctor" :: ("==================" ++ eol)
     :: (map check_line checks ++ [results_line p w f; advice_line w f])%list)
  /\ (p + w + f = 9)%nat
  /\ (f <= 6)%nat
  /\ (advice_line w f = eol ++ "All checks passed! oh-my-codex is ready."
      <-> Forall (fun c => status c = pass) checks)
  /\ (advice_line w f
      = eol ++ "Run " ++ quote ++ "omx setup" ++ quote ++ " to fix installation issues."
      <-> Exists (fun c => status c = fail) checks).
Proof.
  intros checks p w f.
  pose proof (count_status_total checks) as Htotal.
  change (length checks) with 9%nat in Htotal. fold p w f in Htotal.
  split; [reflexivity |]. split; [exact Htotal |].
  assert (f <= 6)%nat as Hsix.
  { subst f checks. unfold count_status. simpl.
    unfold checkDirectory, checkAgentsMd.
    destruct (existsSync env (codexHome env)),
      (existsSync env (omxStateDir env)),
      (existsSync env (join (cwd env) "AGENTS.md")); simpl;
      repeat match goal with
             | |- context [match status ?c with _ => _ end] =>
                 destruct (status c); simpl
             end; lia. }
  split; [exact Hsix |].
  pose proof (count_status_some fail checks) as Hfail.
  pose proof (count_status_all pass checks) as Hpass.
  change (length checks) with 9%nat in Hpass. fold p in Hpass. fold f in Hfail.
  unfold advice_line.
  destruct (Nat.ltb_spec 0 f) as [Hf | Hf].
  - split; split.
    + intros H. vm_compute in H. discriminate H.
    + intros H. apply Hpass in H. lia.
    + intros _. by apply Hfail.
    + done.
  - destruct (Nat.ltb_spec 0 w) as [Hw | Hw]; split; split.
    + intros H. vm_compute in H. discriminate H.
    + intros H. apply Hpass in H. lia.
    + intros H. vm_compute in H. discriminate H.
    + intros H. apply Hfail in H. lia.
    + intros _. apply Hpass. lia.
    + done.
    + intros H. vm_compute in H. discriminate H.
    + intros H. apply Hfail in H. lia.
Qed.

Lemma doctor_report_witness :
  length (doctor stale_team_env {| verbose := false; force := false; dryRun := false |})
  = 13%nat.
Proof.
  rewrite (proj1 (doctor_report stale_team_env
                    {| verbose := false; force := false; dryRun := false |})).
  reflexivity.
Defined.

End DoctorMore.

(** ** Further properties of the configuration merge *)

Module GeneratorMore.
Import Generator.

(** *** Strings *)

Lemma append_cons (x : ascii) (a b : string) :
  String x a ++ b = String x (a ++ b).
Proof. reflexivity. Qed.

Lemma append_assoc (a b c : string) : (a ++ b) ++ c = a ++ b ++ c.
Proof.
  induction a as [| x a IH]; [done |]. by rewrite !append_cons, IH.
Qed.

Lemma append_nil_r (a : string) : a ++ "" = a.
Proof. induction a as [| x a IH]; [done |]. by rewrite append_cons, IH. Qed.

Lemma prefix_nil (s : string) : String.prefix "" s = true.
Proof. by destruct s. Qed.

Lemma prefix_cons (c d : ascii) (a s : string) :
  String.prefix (String c a) (String d s) = true
  <-> c = d /\ String.prefix a s = true.
Proof.
  simpl. destruct (ascii_dec c d) as [-> | Hne]; split.
  - by intros H.
  - by intros [_ H].
  - intros H. discriminate H.
  - by intros [Heq _].
Qed.

(** A prefix is a beginning. *)
Lemma prefix_split (a s : string) :
  String.prefix a s = true <-> exists b, s = a ++ b.
Proof.
  revert s. induction a as [| c a IH]; intros s.
  - split; [intros _; by exists s | intros _; apply prefix_nil].
  - destruct s as [| d s].
    + split; [done | by intros [b Hb]].
    + rewrite prefix_cons, IH. split.
      * intros [-> [b ->]]. by exists b.
      * intros [b Hb]. simpl in Hb. injection Hb as -> ->. split; [done | by exists b].
Qed.

(** Where [a] is tried against [y ++ b]: either it fits inside [y], or [y]
    is a beginning of [a] and the rest of [a] is tried against [b]. *)
Lemma prefix_over_append (a y b : string) :
  String.prefix a (y ++ b) = true ->
  String.prefix a y = true
  \/ exists rest, a = y ++ rest /\ rest <> "" /\ String.prefix rest b = true.
Proof.
  revert a. induction y as [| c y IH]; intros a H.
  - destruct a as [| x a]; [by left |]. right. by exists (String x a).
  - destruct a as [| x a]; [by left |].
    simpl append in H. apply prefix_cons in H as [-> H].
    destruct (IH a H) as [Hin | (rest & -> & Hrest & Hb)].
    + left. by apply prefix_cons.
    + right. by exists rest.
Qed.

Lemma prefix_shorter (a n w : string) :
  String.prefix a (n ++ w) = true ->
  (String.length a <= String.length n)%nat ->
  String.prefix a n = true.
Proof.
  intros H Hlen. destruct (prefix_over_append _ _ _ H) as [? | (rest & -> & Hrest & _)];
    [done |].
  rewrite LeaderNudgeMore.length_append in Hlen.
  destruct rest; [done | simpl in Hlen; lia].
Qed.

Import Doctor.

Lemma str_includes_prefix (s needle : string) :
  String.prefix needle s = true -> str_includes s needle = true.
Proof. intros H. destruct s; simpl in *; by rewrite H. Qed.

Lemma str_includes_cons (c : ascii) (s needle : string) :
  str_includes s needle = true -> str_includes (String c s) needle = true.
Proof. intros H. cbn [str_includes]. rewrite H. apply orb_true_r. Qed.

Lemma str_includes_app_r (a b needle : string) :
  str_includes b needle = true -> str_includes (a ++ b) needle = true.
Proof.
  intros H. induction a as [| c a IH]; [done |]. by apply str_includes_cons.
Qed.

(** A text holds a needle exactly when it is some text, the needle, and some
    more text. *)
Lemma str_includes_split (s needle : string) :
  str_includes s needle = true <-> exists a b, s = a ++ needle ++ b.
Proof.
  split.
  - induction s as [| c s IH]; cbn [str_includes]; intros H;
      apply orb_true_iff in H as [H | H].
    + apply prefix_split in H as [b ->]. by exists "", b.
    + discriminate H.
    + apply prefix_split in H as [b ->]. by exists "", b.
    + destruct (IH H) as (a & b & ->). by exists (String c a), b.
  - intros (a & b & ->). apply str_includes_app_r, str_includes_prefix.
    apply prefix_split. by exists b.
Qed.

Lemma str_includes_app_l (a b needle : string) :
  str_includes a needle = true -> str_includes (a ++ b) needle = true.
Proof.
  intros (x & y & ->)%str_includes_split. apply str_includes_split.
  exists x, (y ++ b). by rewrite !append_assoc.
Qed.

Lemma str_includes_trans (s needle inner : string) :
  str_includes s needle = true -> str_includes needle inner = true ->
  str_includes s inner = true.
Proof.
  intros (a & b & ->)%str_includes_split (x & y & ->)%str_includes_split.
  apply str_includes_split. exists (a ++ x), (y ++ b). by rewrite !append_assoc.
Qed.

Lemma first_index_none (s needle : string) :
  first_index s needle = None <-> str_includes s needle = false.
Proof.
  induction s as [| c s IH]; cbn [first_index str_includes].
  - destruct (String.prefix needle ""); by split.
  - destruct (String.prefix needle (String c s)); simpl; [by split |].
    rewrite <- IH. by destruct (first_index s needle).
Qed.

Lemma first_index_prefix (s needle : string) :
  String.prefix needle s = true -> first_index s needle = Some 0%nat.
Proof. intros H. destruct s; cbn [first_index]; by rewrite H. Qed.

(** The first occurrence: the text before it does not hold the needle. *)
Lemma first_index_some (s needle : string) (i : nat) :
  needle <> "" ->
  first_index s needle = Some i ->
  exists u v, s = u ++ needle ++ v /\ String.length u = i
              /\ str_includes u needle = false.
Proof.
  intros Hneedle. revert i. induction s as [| c s IH]; intros i; cbn [first_index].
  - destruct needle; [done | discriminate].
  - destruct (String.prefix needle (String c s)) eqn:Hp.
    + intros [= <-]. apply prefix_split in Hp as [v ->].
      exists "", v. repeat split. by destruct needle.
    + destruct (first_index s needle) as [j |] eqn:Hj; [| discriminate].
      intros [= <-]. destruct (IH j eq_refl) as (u & v & -> & <- & Hu).
      exists (String c u), v. repeat split. cbn [str_includes]. rewrite Hu, orb_false_r.
      destruct (String.prefix needle (String c u)) eqn:Hpu; [| done].
      apply prefix_split in Hpu as [b Hb].
      assert (String.prefix needle (String c (u ++ needle ++ v)) = true) as Hcontra;
        [| by rewrite Hcontra in Hp].
      apply prefix_split. exists (b ++ needle ++ v).
      change (String c (u ++ needle ++ v)) with (String c u ++ needle ++ v).
      by rewrite Hb, append_assoc.
Qed.

Lemma border_among_none (needle y rest : string) :
  border_among needle (y ++ rest) = false ->
  y <> "" -> rest <> "" -> String.prefix rest needle = false.
Proof.
  induction y as [| c y IH]; [done |]. intros H _ Hrest.
  simpl in H. apply orb_false_iff in H as [Hhere Hlater].
  destruct y as [| d y].
  - change ("" ++ rest) with rest in Hhere.
    destruct (String.eqb_spec rest ""); [done | exact Hhere].
  - by apply IH.
Qed.

(** The first occurrence of an unbordered needle after a text that does not
    hold it starts where the text ends. *)
Lemma first_index_after (u needle v : string) :
  unbordered needle = true ->
  str_includes u needle = false ->
  first_index (u ++ needle ++ v) needle = Some (String.length u).
Proof.
  intros Hborder%negb_true_iff. induction u as [| c u IH]; intros Hu.
  - change ("" ++ needle ++ v) with (needle ++ v).
    apply first_index_prefix, LeaderNudgeMore.prefix_append.
  - cbn [str_includes] in Hu. apply orb_false_iff in Hu as [Hhere Hlater].
    rewrite append_cons. cbn [first_index]. rewrite <- append_cons.
    destruct (String.prefix needle (String c u ++ needle ++ v)) eqn:Hp.
    + exfalso.
      destruct (prefix_over_append _ _ _ Hp) as [Hin | (rest & Hsplit & Hrest & Hb)];
        [by rewrite Hin in Hhere |].
      assert (String.prefix rest needle = true) as Hrn.
      { apply (prefix_shorter _ _ v Hb).
        rewrite Hsplit, LeaderNudgeMore.length_append. lia. }
      assert (border_among needle (String c u ++ rest) = false) as Hb'
        by (by rewrite <- Hsplit).
      by rewrite (border_among_none needle (String c u) rest Hb') in Hrn.
    + by rewrite (IH Hlater).
Qed.


Lemma substring_0_append (u x : string) :
  String.substring 0 (String.length u) (u ++ x) = u.
Proof.
  induction u as [| c u IH]; [by destruct x |].
  rewrite append_cons. simpl. by rewrite IH.
Qed.

Lemma substring_skip_append (u x : string) (m : nat) :
  String.substring (String.length u) m (u ++ x) = String.substring 0 m x.
Proof. induction u as [| c u IH]; [done |]. rewrite append_cons. exact IH. Qed.

Lemma substring_0_all (x : string) :
  String.substring 0 (String.length x) x = x.
Proof. rewrite <- (append_nil_r x) at 2. apply substring_0_append. Qed.

Lemma slice_to_append (u x : string) :
  slice (u ++ x) 0 (Some (Z.of_nat (String.length u))) = u.
Proof.
  unfold slice. simpl default. rewrite Z.sub_0_r, Nat2Z.id.
  apply substring_0_append.
Qed.

Lemma slice_from_append (u x : string) :
  slice (u ++ x) (Z.of_nat (String.length u)) None = x.
Proof.
  unfold slice. simpl default.
  rewrite Nat2Z.id, LeaderNudgeMore.length_append, substring_skip_append.
  replace (Z.to_nat _) with (String.length x) by lia.
  apply substring_0_all.
Qed.

Lemma indexOf_none (s needle : string) :
  str_includes s needle = false -> indexOf s needle = -1.
Proof. intros H%first_index_none. unfold indexOf. by rewrite H. Qed.

Lemma indexOf_after (u needle v : string) :
  unbordered needle = true ->
  str_includes u needle = false ->
  indexOf (u ++ needle ++ v) needle = Z.of_nat (String.length u).
Proof. intros Hb Hu. unfold indexOf. by rewrite first_index_after. Qed.

(** *** Reversal and trimming *)

Lemma rev_app_spec (s : string) :
  forall acc, String.rev_app s acc = String.rev s ++ acc.
Proof.
  unfold String.rev. induction s as [| c s IH]; intros acc; [done |].
  cbn [String.rev_app]. rewrite (IH (String c acc)), (IH (String c "")).
  by rewrite append_assoc.
Qed.

Lemma rev_cons (c : ascii) (s : string) :
  String.rev (String c s) = String.rev s ++ String c "".
Proof. unfold String.rev at 1. cbn [String.rev_app]. apply rev_app_spec. Qed.

Lemma rev_append (a b : string) :
  String.rev (a ++ b) = String.rev b ++ String.rev a.
Proof.
  induction a as [| c a IH].
  - change ("" ++ b) with b. by rewrite append_nil_r.
  - by rewrite append_cons, !rev_cons, IH, append_assoc.
Qed.

Lemma rev_involutive (s : string) : String.rev (String.rev s) = s.
Proof.
  induction s as [| c s IH]; [done |]. by rewrite rev_cons, rev_append, IH.
Qed.

Lemma trimStart_split (s : string) :
  exists spaces, s = spaces ++ LeaderNudge.trimStart s.
Proof.
  induction s as [| c s [spaces IH]]; [by exists "" |].
  cbn [LeaderNudge.trimStart]. destruct (LeaderNudge.is_space c).
  - exists (String c spaces). by rewrite append_cons, <- IH.
  - by exists "".
Qed.

Lemma trimStart_idem (s : string) :
  LeaderNudge.trimStart (LeaderNudge.trimStart s) = LeaderNudge.trimStart s.
Proof.
  induction s as [| c s IH]; [done |].
  cbn [LeaderNudge.trimStart]. destruct (LeaderNudge.is_space c) eqn:Hc; [done |].
  cbn [LeaderNudge.trimStart]. by rewrite Hc.
Qed.

(** [trimEnd] takes white space off the end and nothing else. *)
Lemma trimEnd_split (s : string) : exists spaces, s = trimEnd s ++ spaces.
Proof.
  destruct (trimStart_split (String.rev s)) as [spaces H].
  exists (String.rev spaces). unfold trimEnd.
  by rewrite <- rev_append, <- H, rev_involutive.
Qed.

Lemma trimEnd_newlines (t : string) :
  trimEnd (trimEnd t ++ eol ++ eol) = trimEnd t.
Proof.
  unfold trimEnd at 1. rewrite rev_append.
  change (String.rev (eol ++ eol))
    with (String LeaderNudge.newline (String LeaderNudge.newline "")).
  rewrite !append_cons.
  change (LeaderNudge.trimStart
            (String LeaderNudge.newline
               (String LeaderNudge.newline ("" ++ String.rev (trimEnd t)))))
    with (LeaderNudge.trimStart (String.rev (trimEnd t))).
  unfold trimEnd. by rewrite rev_involutive, trimStart_idem.
Qed.

Lemma prefix_snoc (c : ascii) (y : string) :
  forall m,
    last_char m <> Some c ->
    String.prefix m (y ++ String c "") = true -> String.prefix m y = true.
Proof.
  induction y as [| d y IH]; intros m Hlast H.
  - destruct m as [| x m]; [done |].
    change ("" ++ String c "") with (String c "") in H.
    apply prefix_cons in H as [-> H]. destruct m; [done | discriminate H].
  - destruct m as [| x m]; [done |].
    rewrite append_cons in H. apply prefix_cons in H as [-> H].
    apply prefix_cons. split; [done |].
    destruct m as [| x' m]; [apply prefix_nil |]. by apply IH.
Qed.

(** A needle that does not end in [c] is not found by adding [c] at the end
    of the text. *)
Lemma str_includes_snoc (c : ascii) (y m : string) :
  last_char m <> Some c ->
  str_includes (y ++ String c "") m = true -> str_includes y m = true.
Proof.
  intros Hlast. induction y as [| d y IH].
  - change ("" ++ String c "") with (String c ""). cbn [str_includes].
    intros H. apply orb_true_iff in H as [H | H].
    + apply (prefix_snoc c "") in H; [by rewrite H | done].
    + done.
  - rewrite append_cons. cbn [str_includes]. rewrite <- append_cons.
    intros H. apply orb_true_iff in H as [H | H]; apply orb_true_iff.
    + left. by apply (prefix_snoc c).
    + right. by apply IH.
Qed.

(** *** The block *)

Lemma block_starts_with_marker (host : Host) (pkgRoot : string) :
  exists rest, getOmxConfigBlock host pkgRoot = eol ++ startMarker ++ rest.
Proof.
  assert (String.prefix (eol ++ startMarker) (getOmxConfigBlock host pkgRoot) = true)
    as [rest H]%prefix_split by (vm_compute; reflexivity).
  exists rest. by rewrite H, append_assoc.
Qed.

Lemma startMarker_holds_phrase :
  str_includes startMarker "oh-my-codex (OMX) Configuration" = true.
Proof. vm_compute. reflexivity. Qed.

Lemma startMarker_unbordered : unbordered startMarker = true.
Proof. vm_compute. reflexivity. Qed.

Lemma endMarker_unbordered : unbordered endMarker = true.
Proof. vm_compute. reflexivity. Qed.

Lemma without_omx_block_no_marker (existing : string) :
  str_includes existing startMarker = false ->
  without_omx_block existing = existing.
Proof.
  intros H. unfold without_omx_block. rewrite (indexOf_none _ _ H).
  by destruct (str_includes existing "oh-my-codex (OMX) Configuration").
Qed.

Lemma without_omx_block_to_end (u v : string) :
  str_includes u startMarker = false ->
  str_includes (u ++ startMarker ++ v) endMarker = false ->
  without_omx_block (u ++ startMarker ++ v) = u.
Proof.
  intros Hu Hend. unfold without_omx_block.
  assert (str_includes (u ++ startMarker ++ v) "oh-my-codex (OMX) Configuration"
          = true) as ->.
  { apply str_includes_app_r, str_includes_app_l, startMarker_holds_phrase. }
  rewrite (indexOf_after _ _ _ startMarker_unbordered Hu), (indexOf_none _ _ Hend).
  destruct (Z.leb_spec 0 (Z.of_nat (String.length u))); [| lia].
  simpl. apply slice_to_append.
Qed.

Lemma without_omx_block_to_end_marker (u v w : string) :
  str_includes u startMarker = false ->
  str_includes (u ++ startMarker ++ v) endMarker = false ->
  without_omx_block (u ++ startMarker ++ v ++ endMarker ++ w) = u ++ w.
Proof.
  intros Hu Hend. unfold without_omx_block.
  assert (str_includes (u ++ startMarker ++ v ++ endMarker ++ w)
            "oh-my-codex (OMX) Configuration" = true) as ->.
  { apply str_includes_app_r, str_includes_app_l, startMarker_holds_phrase. }
  rewrite (indexOf_after _ _ _ startMarker_unbordered Hu).
  destruct (Z.leb_spec 0 (Z.of_nat (String.length u))); [| lia].
  rewrite slice_to_append.
  replace (u ++ startMarker ++ v ++ endMarker ++ w)
    with ((u ++ startMarker ++ v) ++ endMarker ++ w) by (by rewrite !append_assoc).
  rewrite (indexOf_after _ _ _ endMarker_unbordered Hend).
  destruct (Z.leb_spec 0 (Z.of_nat (String.length (u ++ startMarker ++ v)))); [| lia].
  f_equal.
  replace ((u ++ startMarker ++ v) ++ endMarker ++ w)
    with (((u ++ startMarker ++ v) ++ endMarker) ++ w) by (by rewrite !append_assoc).
  rewrite <- Nat2Z.inj_add, <- LeaderNudgeMore.length_append.
  apply slice_from_append.
Qed.

(** What is left after the block is taken out holds no start marker, when
    the text has no end marker. *)
Lemma without_omx_block_clean (existing : string) :
  str_includes existing endMarker = false ->
  str_includes (without_omx_block existing) startMarker = false.
Proof.
  intros Hend.
  destruct (first_index existing startMarker) as [i |] eqn:Hfirst.
  - apply first_index_some in Hfirst as (u & v & -> & _ & Hu); [| done].
    by rewrite without_omx_block_to_end.
  - apply first_index_none in Hfirst.
    by rewrite without_omx_block_no_marker.
Qed.

Lemma trimmed_text_clean (t : string) :
  str_includes t startMarker = false ->
  str_includes (trimEnd t ++ eol ++ eol) startMarker = false.
Proof.
  intros Ht. apply not_true_is_false. intros H.
  replace (trimEnd t ++ eol ++ eol)
    with ((trimEnd t ++ eol) ++ eol) in H by (by rewrite append_assoc).
  apply (str_includes_snoc LeaderNudge.newline) in H; [| by vm_compute].
  apply (str_includes_snoc LeaderNudge.newline) in H; [| by vm_compute].
  destruct (trimEnd_split t) as [spaces Hsplit].
  rewrite Hsplit, (str_includes_app_l _ spaces _ H) in Ht. discriminate Ht.
Qed.


Lemma count_matches_some (s needle : string) :
  needle <> "" -> str_includes s needle = true ->
  (0 < count_matches s needle)%nat.
Proof.
  intros Hneedle. induction s as [| c s IH]; cbn [str_includes count_matches];
    intros H; apply orb_true_iff in H as [H | H].
  - destruct needle; [done | discriminate H].
  - discriminate H.
  - rewrite H. lia.
  - apply IH in H. lia.
Qed.

Lemma finalConfig_holds (host : Host) (pkgRoot existing : string) :
  str_includes (finalConfig host pkgRoot existing) "oh-my-codex" = true
  /\ str_includes (finalConfig host pkgRoot existing) "[mcp_servers." = true
  /\ str_includes (finalConfig host pkgRoot existing) "omx_state" = true.
Proof.
  assert (forall line,
             line = "# oh-my-codex (OMX) Configuration"
             \/ line = "[mcp_servers.omx_state]" ->
             str_includes (finalConfig host pkgRoot existing) line = true)
    as Hline.
  { unfold finalConfig, getOmxConfigBlock. cbv zeta.
    intros line [-> | ->];
      repeat first [ apply str_includes_prefix; vm_compute; reflexivity
                   | apply str_includes_app_r ]. }
  split; [| split].
  - apply (str_includes_trans _ "# oh-my-codex (OMX) Configuration"); auto.
  - apply (str_includes_trans _ "[mcp_servers.omx_state]"); auto.
  - apply (str_includes_trans _ "[mcp_servers.omx_state]"); auto.
Qed.

Lemma mergeConfig_spec (host : Host) (configPath pkgRoot : string)
    (options : MergeOptions) (w : World) :
  let run := mergeConfig host configPath pkgRoot options w in
  match text_before (fs w) configPath, writeFile_error host configPath with
  | Ok existing, None =>
      snd run = Ok tt
      /\ fs (fst run) = written (fs w) configPath (finalConfig host pkgRoot existing)
  | Ok _, Some err => snd run = Throw err /\ fs (fst run) = fs w
  | Throw err, _ => snd run = Throw err /\ fs (fst run) = fs w
  end.
Proof.
  unfold mergeConfig, text_before, bind, Generator.readFile, Generator.writeFile,
    ret, console_log.
  destruct (Doctor.existsSync (fs w) configPath);
    [destruct (Doctor.readFile (fs w) configPath) as [existing | err]; [| done] |];
    cbv zeta;
    destruct (str_includes _ _ && Generator.verbose options); simpl;
    destruct (writeFile_error host configPath); simpl; try done;
    by destruct (Generator.verbose options).
Qed.

Lemma trimEnd_prefix (s : string) : String.prefix (trimEnd s) s = true.
Proof.
  destruct (trimEnd_split s) as [spaces Hs]. rewrite Hs at 2.
  apply LeaderNudgeMore.prefix_append.
Qed.

(** X19.  Setup, then doctor: when [mergeConfig] on the Codex configuration
    file returns, the file holds a beginning of the text it held before
    without its OMX block (of the empty text when it did not exist), a line
    break and the OMX block; for a text of ASCII characters that beginning is
    the text without its white space at the end, so that the file holds
    [finalConfig] of the text.  The two checks of [doctor] that read the file
    pass.  When it throws (the file cannot be read or written), the files are
    as before. *)
Theorem merged_config_passes_doctor (host : Host) (env : Doctor.Env)
    (pkgRoot : string) (options : MergeOptions) (printed : list string) :
  let configPath := Doctor.codexConfigPath env in
  let run := mergeConfig host configPath pkgRoot options
               {| fs := env; console := printed |} in
  (snd run = Ok tt ->
   (exists existing,
       text_before env configPath = Ok existing
       /\ (exists kept,
              String.prefix kept (without_omx_block existing) = true
              /\ Doctor.readFile (fs (fst run)) configPath
                 = Ok (kept ++ eol ++ getOmxConfigBlock host pkgRoot))
       /\ (LeaderNudge.is_ascii_text existing = true ->
           Doctor.readFile (fs (fst run)) configPath
           = Ok (finalConfig host pkgRoot existing)))
   /\ Doctor.status (Doctor.checkConfig (fs (fst run))) = Doctor.pass
   /\ Doctor.status (Doctor.checkMcpServers (fs (fst run))) = Doctor.pass)
  /\ (snd run <> Ok tt -> fs (fst run) = env).
Proof.
  intros configPath run.
  pose proof (mergeConfig_spec host configPath pkgRoot options
                {| fs := env; console := printed |}) as Hspec.
  fold run in Hspec. simpl in Hspec.
  destruct (text_before env configPath) as [existing | err];
    [destruct (writeFile_error host configPath) as [err |] |];
    destruct Hspec as [Hout Hfs]; try (split; [by rewrite Hout | done]).
  split; [intros _ | done].
  destruct (finalConfig_holds host pkgRoot existing) as (Hname & Hservers & Hstate).
  rewrite Hfs. unfold checkConfig, checkMcpServers, written. simpl.
  fold configPath. rewrite String.eqb_refl. simpl.
  rewrite Hname, Hstate, orb_true_r. simpl.
  destruct (Nat.ltb_spec 0
              (count_matches (finalConfig host pkgRoot existing) "[mcp_servers."))
    as [_ | Hnone].
  - split; [| done]. exists existing. split; [done |]. split; [| done].
    exists (trimEnd (without_omx_block existing)).
    split; [apply trimEnd_prefix | done].
  - pose proof (count_matches_some _ "[mcp_servers." ltac:(done) Hservers). lia.
Qed.

Lemma merged_config_passes_doctor_witness :
  let run := mergeConfig plain_host "/home/u/.codex/config.toml" "/opt/omx"
               {| Generator.verbose := false |}
               {| fs := Doctor.orphan_session_env; console := [] |} in
  Doctor.status (Doctor.checkConfig (fs (fst run))) = Doctor.pass
  /\ Doctor.status (Doctor.checkMcpServers (fs (fst run))) = Doctor.pass.
Proof.
  apply (proj1 (merged_config_passes_doctor plain_host Doctor.orphan_session_env
                  "/opt/omx" {| Generator.verbose := false |} [])).
  vm_compute. reflexivity.
Defined.

(** The text before the first start marker, then the text after the first
    end marker of the whole text. *)
Lemma without_omx_block_both (u v x w : string) :
  str_includes u startMarker = false ->
  str_includes x endMarker = false ->
  u ++ startMarker ++ v = x ++ endMarker ++ w ->
  without_omx_block (u ++ startMarker ++ v) = u ++ w.
Proof.
  intros Hu Hx Heq. unfold without_omx_block.
  assert (str_includes (u ++ startMarker ++ v) "oh-my-codex (OMX) Configuration"
          = true) as ->.
  { apply str_includes_app_r, str_includes_app_l, startMarker_holds_phrase. }
  rewrite (indexOf_after _ _ _ startMarker_unbordered Hu).
  destruct (Z.leb_spec 0 (Z.of_nat (String.length u))); [| lia].
  rewrite slice_to_append. rewrite Heq.
  rewrite (indexOf_after _ _ _ endMarker_unbordered Hx).
  destruct (Z.leb_spec 0 (Z.of_nat (String.length x))); [| lia].
  f_equal.
  replace (x ++ endMarker ++ w) with ((x ++ endMarker) ++ w)
    by (by rewrite !append_assoc).
  rewrite <- Nat2Z.inj_add, <- LeaderNudgeMore.length_append.
  apply slice_from_append.
Qed.

(** X20.  How the old block is cut out.  A text without the start marker is
    left as it is.  Otherwise the text before the first start marker is
    kept, and it is followed by the text after the first end marker of the
    whole text, when there is one: the end marker is searched from the start
    of the text, not from the start marker.  So with no end marker all that
    follows the first start marker is dropped; with the first end marker
    after the start marker the block, its markers included, is cut out; and
    with an end marker before the first start marker the old block stays,
    and the text between that end marker and the start marker is there
    twice. *)
Theorem omx_block_is_cut_out (u v : string) :
  str_includes u startMarker = false ->
  without_omx_block u = u
  /\ (str_includes (u ++ startMarker ++ v) endMarker = false ->
      without_omx_block (u ++ startMarker ++ v) = u)
  /\ (forall x w,
        str_includes x endMarker = false ->
        u ++ startMarker ++ v = x ++ endMarker ++ w ->
        without_omx_block (u ++ startMarker ++ v) = u ++ w)
  /\ (forall w,
        str_includes (u ++ startMarker ++ v) endMarker = false ->
        without_omx_block (u ++ startMarker ++ v ++ endMarker ++ w) = u ++ w)
  /\ (forall a b,
        str_includes a endMarker = false ->
        u = a ++ endMarker ++ b ->
        without_omx_block (u ++ startMarker ++ v)
        = a ++ endMarker ++ b ++ b ++ startMarker ++ v).
Proof.
  intros Hu. split; [| split; [| split; [| split]]].
  - by apply without_omx_block_no_marker.
  - intros Hend. by apply without_omx_block_to_end.
  - intros x w Hx Heq. by apply without_omx_block_both with (x := x).
  - intros w Hend. by apply without_omx_block_to_end_marker.
  - intros a b Ha Hab.
    rewrite (without_omx_block_both u v a (b ++ startMarker ++ v) Hu Ha).
    + rewrite Hab. by rewrite !append_assoc.
    + rewrite Hab. by rewrite !append_assoc.
Qed.

Lemma omx_block_is_cut_out_witness :
  without_omx_block ("model = o3" ++ eol ++ startMarker ++ eol ++ "[features]"
                     ++ endMarker ++ eol ++ "[profiles.fast]")
  = ("model = o3" ++ eol) ++ eol ++ "[profiles.fast]"
  /\ without_omx_block (("model = o3" ++ endMarker ++ eol ++ "[profiles.fast]" ++ eol)
                        ++ startMarker ++ eol ++ "[features]")
     = "model = o3" ++ endMarker
       ++ (eol ++ "[profiles.fast]" ++ eol) ++ (eol ++ "[profiles.fast]" ++ eol)
       ++ startMarker ++ eol ++ "[features]".
Proof.
  split.
  - apply (proj1 (proj2 (proj2 (proj2 (omx_block_is_cut_out ("model = o3" ++ eol)
                                         (eol ++ "[features]") eq_refl))))
             (eol ++ "[profiles.fast]") eq_refl).
  - apply (proj2 (proj2 (proj2 (proj2 (omx_block_is_cut_out
                    ("model = o3" ++ endMarker ++ eol ++ "[profiles.fast]" ++ eol)
                    (eol ++ "[features]") eq_refl))))
             "model = o3" (eol ++ "[profiles.fast]" ++ eol) eq_refl eq_refl).
Defined.

(** X21.  Merging again gives the same file, and text added below the block
    does not survive the next merge: for a text without end marker, merging
    the merged text, with anything appended below it that brings no end
    marker, gives the merged text again. *)
Theorem second_merge_gives_first (host : Host) (pkgRoot existing below : string) :
  str_includes existing endMarker = false ->
  str_includes (finalConfig host pkgRoot existing ++ below) endMarker = false ->
  finalConfig host pkgRoot (finalConfig host pkgRoot existing ++ below)
  = finalConfig host pkgRoot existing.
Proof.
  intros Hend Hend'.
  pose proof (trimmed_text_clean _ (without_omx_block_clean _ Hend)) as Hclean.
  destruct (block_starts_with_marker host pkgRoot) as [rest Hblock].
  set (kept := trimEnd (without_omx_block existing)) in *.
  assert (finalConfig host pkgRoot existing ++ below
          = (kept ++ eol ++ eol) ++ startMarker ++ rest ++ below) as Hshape.
  { unfold finalConfig. fold kept. by rewrite Hblock, !append_assoc. }
  unfold finalConfig at 1. rewrite Hshape in Hend' |- *.
  rewrite (without_omx_block_to_end _ _ Hclean Hend').
  unfold kept. rewrite trimEnd_newlines. reflexivity.
Qed.

Lemma second_merge_gives_first_witness :
  finalConfig plain_host "/opt/omx"
    (finalConfig plain_host "/opt/omx" ("model = o3" ++ eol)
     ++ "[profiles.fast]" ++ eol)
  = finalConfig plain_host "/opt/omx" ("model = o3" ++ eol).
Proof.
  apply (second_merge_gives_first plain_host "/opt/omx" ("model = o3" ++ eol)
           ("[profiles.fast]" ++ eol)); vm_compute; reflexivity.
Defined.

End GeneratorMore.

(** ** Properties of the mode commands *)

Module CliMore.
Import Cli.

Lemma cancelled_state_inactive (state : gmap string Json) (now : string) :
  truthy_property (cancelled_state state now) "active" = false.
Proof.
  unfold truthy_property, cancelled_state.
  rewrite lookup_insert_ne by done. rewrite lookup_insert_ne by done.
  by rewrite lookup_insert_eq.
Qed.

Lemma cancelled_state_phase (state : gmap string Json) (now : string) :
  cancelled_state state now !! "current_phase" = Some (js_string "cancelled").
Proof.
  unfold cancelled_state.
  rewrite lookup_insert_ne by done. by rewrite lookup_insert_eq.
Qed.

Lemma cancelled_state_other (state : gmap string Json) (now key : string) :
  key <> "active" -> key <> "current_phase" -> key <> "completed_at" ->
  cancelled_state state now !! key = state !! key.
Proof.
  intros. unfold cancelled_state. by rewrite !lookup_insert_ne.
Qed.

Lemma filter_is_active_ext (files files' : gmap string Doc) (states : list string) :
  (forall f, f ∈ states -> files' !! f = files !! f) ->
  List.filter (is_active files') states = List.filter (is_active files) states.
Proof.
  intros H. apply List.filter_ext_in. intros f Hf%list_elem_of_In.
  unfold is_active. by rewrite H.
Qed.

Lemma elem_of_filter_bool {A} (f : A -> bool) (l : list A) (x : A) :
  x ∈ List.filter f l <-> x ∈ l /\ f x = true.
Proof. rewrite !list_elem_of_In. apply List.filter_In. Qed.

Lemma NoDup_filter_bool {A} (f : A -> bool) (l : list A) :
  NoDup l -> NoDup (List.filter f l).
Proof.
  induction 1 as [| x l Hx Hl IH]; simpl; [constructor |].
  destruct (f x); [| done]. constructor; [| done].
  by intros [? _]%elem_of_filter_bool.
Qed.

Lemma filter_bool_nil {A} (f : A -> bool) (l : list A) :
  (forall x, x ∈ l -> f x = false) -> List.filter f l = [].
Proof.
  induction l as [| x l IH]; intros H; simpl; [done |].
  rewrite (H x) by left. apply IH. intros y Hy. apply H. by right.
Qed.

(** The loop over readable state files. *)
Lemma cancel_each_spec (env : Env) (clock : nat -> string) (states : list string) :
  NoDup states ->
  forall (n : nat) (w : World),
    (forall f, f ∈ states -> readable (docs w) f) ->
    (forall f, f ∈ states -> is_active (docs w) f = true ->
               writeFile_ok env f = true) ->
    let actives := List.filter (is_active (docs w)) states in
    exists w',
      cancel_each env clock states n w = (w', Ok (n + length actives)%nat)
      /\ console w' = (console w ++ map cancel_line actives)%list
      /\ (forall f, f ∉ actives -> docs w' !! f = docs w !! f)
      /\ (forall i f, actives !! i = Some f ->
            docs w' !! f
            = Some (Parsed (cancelled_state (state_of (docs w) f)
                              (clock (n + i)%nat)))).
Proof.
  induction states as [| file rest IH]; intros Hnodup n w Hread Hwrite; simpl.
  - exists w. unfold ret. rewrite Nat.add_0_r, app_nil_r. by repeat split.
  - apply NoDup_cons in Hnodup as [Hfresh Hnodup].
    destruct (Hread file ltac:(left)) as [state Hstate].
    assert (is_active (docs w) file = truthy_property state "active") as Hfile
      by (unfold is_active; by rewrite Hstate).
    unfold bind at 1. unfold read_state at 1. rewrite Hstate, Hfile.
    destruct (truthy_property state "active") eqn:Hactive.
    + unfold bind, write_state, console_log.
      rewrite (Hwrite file ltac:(left)); [| unfold is_active; by rewrite Hstate].
      set (w1 := {| docs := <[file := Parsed (cancelled_state state (clock n))]> (docs w);
                    console := (console w ++ [cancel_line file])%list |}).
      assert (forall f, f ∈ rest -> docs w1 !! f = docs w !! f) as Hsame.
      { intros f Hf. simpl. apply lookup_insert_ne. by intros ->. }
      destruct (IH Hnodup (S n) w1) as (w' & Hrun & Hout & Hkeep & Hnew).
      { intros f Hf. unfold readable. rewrite Hsame by done. apply Hread. by right. }
      { intros f Hf. unfold is_active. rewrite Hsame by done.
        apply Hwrite. by right. }
      rewrite (filter_is_active_ext _ _ _ Hsame) in Hrun, Hout, Hkeep, Hnew.
      exists w'. fold (cancel_line file). change (console_log _) with (console_log (cancel_line file)).
      split; [| split; [| split]].
      * simpl. etrans; [exact Hrun |]. do 2 f_equal. lia.
      * rewrite Hout. simpl. by rewrite <- app_assoc.
      * intros f Hf. apply not_elem_of_cons in Hf as [Hne Hf].
        rewrite (Hkeep f Hf). simpl. by apply lookup_insert_ne.
      * intros [| i] f Hi; simpl in Hi.
        -- injection Hi as <-.
           rewrite Hkeep.
           ++ simpl. rewrite lookup_insert_eq. unfold state_of. rewrite Hstate.
              by rewrite Nat.add_0_r.
           ++ intros [Hin _]%elem_of_filter_bool. done.
        -- rewrite (Hnew i f Hi). unfold state_of.
           assert (f ∈ rest) as Hf.
           { apply list_elem_of_lookup_2 in Hi.
             by apply elem_of_filter_bool in Hi as [? _]. }
           rewrite Hsame by done. do 4 f_equal. lia.
    + destruct (IH Hnodup n w) as (w' & Hrun & Hout & Hkeep & Hnew).
      { intros f Hf. apply Hread. by right. }
      { intros f Hf. apply Hwrite. by right. }
      exists w'. by repeat split.
Qed.



Lemma status_each_spec (states : list string) :
  forall w,
    (forall f, f ∈ states -> readable (docs w) f) ->
    status_each states w
    = ({| docs := docs w;
          console := (console w
                      ++ map (fun f => status_line f (state_of (docs w) f)) states)%list |},
       Ok tt).
Proof.
  induction states as [| file rest IH]; intros w Hread; simpl.
  - unfold ret. rewrite app_nil_r. by destruct w.
  - destruct (Hread file ltac:(left)) as [state Hstate].
    unfold bind, read_state, console_log. rewrite Hstate.
    rewrite IH; simpl; [| intros f Hf; apply Hread; by right].
    unfold state_of at 2. rewrite Hstate. by rewrite <- app_assoc.
Qed.



(** [cancelModes] on a directory whose state files can be read. *)
Lemma cancelModes_spec (env : Env) (clock : nat -> string) (w : World)
    (files : list string) :
  readdir_state env = Ok files ->
  NoDup files ->
  (forall f, f ∈ files -> is_state_file f = true -> readable (docs w) f) ->
  (forall f, writeFile_ok env f = true) ->
  let states := List.filter is_state_file files in
  let actives := List.filter (is_active (docs w)) states in
  exists w',
    cancelModes env clock w = (w', Ok tt)
    /\ console w'
       = (console w
          ++ match actives with
             | [] => ["No active modes to cancel."]
             | _ => map cancel_line actives
             end)%list
    /\ (forall f, f ∉ actives -> docs w' !! f = docs w !! f)
    /\ (forall i f, actives !! i = Some f ->
          docs w' !! f
          = Some (Parsed (cancelled_state (state_of (docs w) f) (clock i)))).
Proof.
  intros Hfiles Hnodup Hread Hwrite states actives.
  destruct (cancel_each_spec env clock states) with (n := 0%nat) (w := w)
    as (w' & Hrun & Hout & Hkeep & Hnew).
  { by apply NoDup_filter_bool. }
  { intros f [Hf Hstate]%elem_of_filter_bool. by apply Hread. }
  { intros f _ _. apply Hwrite. }
  fold actives in Hrun, Hout, Hkeep, Hnew.
  unfold cancelModes, try_catch, bind. rewrite Hfiles. fold states. rewrite Hrun.
  simpl. destruct actives as [| a actives'] eqn:Hactives; simpl.
  - eexists. split; [reflexivity |]. simpl.
    rewrite Hout. simpl. rewrite app_nil_r. by repeat split.
  - exists w'. by repeat split.
Qed.

(** X22.  [omx cancel] on a state directory whose state files can be read
    and written: every state file whose [active] is truthy gets
    [active = false], [current_phase = 'cancelled'] and [completed_at] set to
    the time of its turn, and keeps its other properties; one line is printed
    for each, in the order of the listing, or the line that there is nothing
    to cancel when there is none; no other file changes; afterwards no state
    file is active. *)
Theorem cancel_stops_every_active_mode (env : Env) (clock : nat -> string)
    (w : World) (files : list string) :
  readdir_state env = Ok files ->
  NoDup files ->
  (forall f, f ∈ files -> is_state_file f = true -> readable (docs w) f) ->
  (forall f, writeFile_ok env f = true) ->
  let states := List.filter is_state_file files in
  let actives := List.filter (is_active (docs w)) states in
  let run := cancelModes env clock w in
  snd run = Ok tt
  /\ console (fst run)
     = (console w
        ++ match actives with
           | [] => ["No active modes to cancel."]
           | _ => map cancel_line actives
           end)%list
  /\ (forall f, f ∉ actives -> docs (fst run) !! f = docs w !! f)
  /\ (forall i f key, actives !! i = Some f ->
        exists state,
          docs (fst run) !! f = Some (Parsed state)
          /\ state !! "active" = Some js_false
          /\ state !! "current_phase" = Some (js_string "cancelled")
          /\ state !! "completed_at" = Some (js_string (clock i))
          /\ (key <> "active" -> key <> "current_phase" -> key <> "completed_at" ->
              state !! key = state_of (docs w) f !! key))
  /\ (forall f, f ∈ states -> is_active (docs (fst run)) f = false).
Proof.
  intros Hfiles Hnodup Hread Hwrite states actives run.
  destruct (cancelModes_spec env clock w files Hfiles Hnodup Hread Hwrite)
    as (w' & Hrun & Hout & Hkeep & Hnew).
  fold states actives in Hout, Hkeep, Hnew. subst run. rewrite Hrun. simpl.
  split; [done |]. split; [done |]. split; [done |]. split.
  - intros i f key Hi. eexists. split; [by apply Hnew |].
    split; [| split; [| split]].
    + unfold cancelled_state. rewrite lookup_insert_ne by done.
      rewrite lookup_insert_ne by done. by rewrite lookup_insert_eq.
    + apply cancelled_state_phase.
    + unfold cancelled_state. by rewrite lookup_insert_eq.
    + apply cancelled_state_other.
  - intros f Hf. unfold is_active.
    destruct (decide (f ∈ actives)) as [Hin | Hout'].
    + apply list_elem_of_lookup_1 in Hin as [i Hi].
      rewrite (Hnew i f Hi). apply cancelled_state_inactive.
    + rewrite (Hkeep f Hout').
      destruct (is_active (docs w) f) eqn:Hactive; [| exact Hactive].
      destruct Hout'. by apply elem_of_filter_bool.
Qed.


Lemma two_modes_listing :
  NoDup ["ralph-state.json"; "notes.txt"; "team-state.json"]
  /\ forall f, f ∈ ["ralph-state.json"; "notes.txt"; "team-state.json"] ->
       is_state_file f = true -> readable (docs two_modes) f.
Proof.
  split; [apply (bool_decide_unpack _); vm_compute; exact I |].
  intros f Hf Hstate. unfold readable.
  repeat (apply elem_of_cons in Hf as [-> | Hf]);
    [| discriminate Hstate | | by apply elem_of_nil in Hf];
    vm_compute; eauto.
Qed.

Lemma cancel_stops_every_active_mode_witness :
  console (fst (cancelModes two_modes_env (fun _ => "2026-01-01T00:00:00.000Z")
                  two_modes))
  = ["Cancelled: team"].
Proof.
  apply (proj1 (proj2 (cancel_stops_every_active_mode two_modes_env
                         (fun _ => "2026-01-01T00:00:00.000Z") two_modes
                         ["ralph-state.json"; "notes.txt"; "team-state.json"]
                         eq_refl (proj1 two_modes_listing)
                         (proj2 two_modes_listing) (fun _ => eq_refl)))).
Defined.

(** X23.  After [omx cancel] (on a state directory whose state files can be
    read and written), [omx status] reports every mode as inactive, with
    phase [cancelled] for the modes that were active and the phase they had
    for the others; and a second [omx cancel] changes no file and prints only
    that there is nothing to cancel. *)
Theorem nothing_active_after_cancel (env : Env) (clock clock' : nat -> string)
    (w : World) (files : list string) :
  readdir_state env = Ok files ->
  NoDup files ->
  (forall f, f ∈ files -> is_state_file f = true -> readable (docs w) f) ->
  (forall f, writeFile_ok env f = true) ->
  let states := List.filter is_state_file files in
  let actives := List.filter (is_active (docs w)) states in
  let after := fst (cancelModes env clock w) in
  showStatus env after
  = ({| docs := docs after;
        console :=
          (console after
           ++ match states with
              | [] => ["No active modes."]
              | _ =>
                  map (fun f =>
                         inactive_line f
                           (if bool_decide (f ∈ actives) then "cancelled"
                            else phase_text (state_of (docs w) f))) states
              end)%list |}, Ok tt)
  /\ cancelModes env clock' after
     = ({| docs := docs after;
           console := (console after ++ ["No active modes to cancel."])%list |},
        Ok tt).
Proof.
  intros Hfiles Hnodup Hread Hwrite states actives after.
  destruct (cancelModes_spec env clock w files Hfiles Hnodup Hread Hwrite)
    as (w' & Hrun & _ & Hkeep & Hnew).
  fold states actives in Hkeep, Hnew.
  assert (after = w') as -> by (unfold after; by rewrite Hrun).
  assert (forall f, f ∈ states ->
            readable (docs w') f
            /\ truthy_property (state_of (docs w') f) "active" = false
            /\ phase_text (state_of (docs w') f)
               = if bool_decide (f ∈ actives) then "cancelled"
                 else phase_text (state_of (docs w) f)) as Hafter.
  { intros f Hf. case_bool_decide as Hin.
    - apply list_elem_of_lookup_1 in Hin as [i Hi].
      unfold readable, state_of. rewrite (Hnew i f Hi).
      split; [by eexists |]. split; [apply cancelled_state_inactive |].
      unfold phase_text, truthy_property. by rewrite cancelled_state_phase.
    - unfold readable, state_of. rewrite (Hkeep f Hin).
      apply elem_of_filter_bool in Hf as [Hf Hstate].
      split; [by apply Hread |]. split; [| done].
      destruct (Hread f Hf Hstate) as [state Hdoc]. rewrite Hdoc.
      destruct (truthy_property state "active") eqn:Hactive; [| done].
      destruct Hin. apply elem_of_filter_bool. split.
      + by apply elem_of_filter_bool.
      + unfold is_active. by rewrite Hdoc. }
  split.
  - unfold showStatus, try_catch, bind. rewrite Hfiles. fold states.
    destruct states as [| s0 states'] eqn:Hstates; [done |].
    change (length (s0 :: states') =? 0)%nat with false. cbv iota.
    rewrite status_each_spec by (intros f Hf; by apply Hafter).
    do 3 f_equal. apply map_ext_in. intros f Hf%list_elem_of_In.
    destruct (Hafter f Hf) as (_ & Hactive & Hphase).
    unfold status_line, inactive_line. by rewrite Hactive, Hphase.
  - destruct (cancelModes_spec env clock' w' files Hfiles Hnodup) as (w2 & -> & Hout & Hkeep2 & _).
    { intros f Hf Hstate. apply Hafter. by apply elem_of_filter_bool. }
    { done. }
    fold states in Hout, Hkeep2.
    assert (List.filter (is_active (docs w')) states = []) as Hnone.
    { apply filter_bool_nil. intros f Hf.
      destruct (Hafter f Hf) as ([state Hdoc] & Hactive & _).
      unfold is_active. unfold state_of in Hactive. by rewrite Hdoc in *. }
    rewrite Hnone in Hout, Hkeep2.
    assert (docs w2 = docs w') as Hdocs.
    { apply map_eq. intros f. apply Hkeep2, not_elem_of_nil. }
    destruct w2 as [docs2 console2]. simpl in *. by subst.
Qed.


Lemma nothing_active_after_cancel_witness :
  console (fst (showStatus two_modes_env
                  (fst (cancelModes two_modes_env
                          (fun _ => "2026-01-01T00:00:00.000Z") two_modes))))
  = ["Cancelled: team";
     "ralph: inactive (phase: complete)";
     "team: inactive (phase: cancelled)"].
Proof.
  rewrite (proj1 (nothing_active_after_cancel two_modes_env
                    (fun _ => "2026-01-01T00:00:00.000Z") (fun _ => "")
                    two_modes
                    ["ralph-state.json"; "notes.txt"; "team-state.json"]
                    eq_refl (proj1 two_modes_listing)
                    (proj2 two_modes_listing) (fun _ => eq_refl))).
  vm_compute. reflexivity.
Defined.



End CliMore.

(** ** Properties of the installer *)

Module SetupMore.
Import Setup.

(** A step of the loop without [--force] only adds paths. *)
Lemma install_each_keeps (env : Env) (srcDir dstDir ext : string)
    (options : SetupOptions) (files : list string) :
  force options = false \/ dryRun options = true ->
  forall count w path,
    is_Some (fs w !! path) ->
    fs (fst (install_each env srcDir dstDir ext options files count w)) !! path
    = fs w !! path.
Proof.
  intros Hmode. induction files as [| file rest IH]; intros count w path Hpath;
    [done |].
  cbn [install_each]. destruct (negb (Doctor.endsWith file ext)); [by apply IH |].
  cbv zeta. unfold bind at 1, stat.
  destruct (fs w !! Doctor.join srcDir file) as [node |] eqn:Hsrc; [| done].
  destruct (negb (isFile node)) eqn:Hkind; [by apply IH |].
  destruct (force options || negb (existsSync w (Doctor.join dstDir file)))
    eqn:Hinstall; [| by apply IH].
  unfold bind at 1.
  destruct (negb (dryRun options)) eqn:Hdry.
  - destruct Hmode as [Hforce | Hdry']; [| by rewrite Hdry' in Hdry].
    rewrite Hforce in Hinstall. simpl in Hinstall.
    apply negb_true_iff, bool_decide_eq_false in Hinstall.
    unfold copyFile.
    destruct (copyFile_error env _ _); [done |]. rewrite Hsrc.
    destruct node as [content |]; [| done].
    destruct (fs w !! Doctor.join dstDir file) as [[old |] |] eqn:Hdst; try done.
    + destruct Hinstall. by eexists.
    + unfold bind at 1.
      destruct (verbose options); unfold console_log, ret; rewrite IH; simpl;
        try (rewrite lookup_insert_ne; [done | by intros <-; rewrite Hdst in Hpath; destruct Hpath]);
        rewrite lookup_insert_ne; try done;
        by (intros <-; rewrite Hdst in Hpath; destruct Hpath).
  - unfold ret at 1. unfold bind at 1.
    destruct (verbose options); unfold console_log, ret; by rewrite IH.
Qed.


(** A dry run changes no file. *)
Lemma install_each_dry (env : Env) (srcDir dstDir ext : string)
    (options : SetupOptions) (files : list string) :
  dryRun options = true ->
  forall count w,
    fs (fst (install_each env srcDir dstDir ext options files count w)) = fs w.
Proof.
  intros Hdry. induction files as [| file rest IH]; intros count w; [done |].
  cbn [install_each]. destruct (negb (Doctor.endsWith file ext)); [by apply IH |].
  cbv zeta. unfold bind at 1, stat.
  destruct (fs w !! Doctor.join srcDir file) as [node |]; [| done].
  destruct (negb (isFile node)); [by apply IH |].
  destruct (force options || negb (existsSync w (Doctor.join dstDir file)));
    [| by apply IH].
  rewrite Hdry. unfold bind, ret, console_log. simpl.
  destruct (verbose options); by rewrite IH.
Qed.

Lemma install_each_settles (env : Env) (srcDir dstDir ext : string)
    (options : SetupOptions) (files : list string) :
  force options = false -> dryRun options = false ->
  forall count w w' n,
    install_each env srcDir dstDir ext options files count w = (w', Ok n) ->
    settled srcDir dstDir ext files w'.
Proof.
  intros Hforce Hdry. induction files as [| file rest IH];
    intros count w w' n Hrun; [by intros f Hf%elem_of_nil |].
  assert (forall count0 w0,
             install_each env srcDir dstDir ext options rest count0 w0 = (w', Ok n) ->
             forall node,
               fs w0 !! Doctor.join srcDir file = Some node ->
               (isFile node = true -> is_Some (fs w0 !! Doctor.join dstDir file)) ->
               settled srcDir dstDir ext (file :: rest) w') as Hrest.
  { intros count0 w0 Hrun0 node Hsrc Hdst f Hf Hext.
    apply elem_of_cons in Hf as [-> | Hf]; [| by apply (IH _ _ _ _ Hrun0)].
    pose proof (install_each_keeps env srcDir dstDir ext options rest
                  (or_introl Hforce) count0 w0) as Hkeep.
    rewrite Hrun0 in Hkeep. simpl in Hkeep.
    exists node. split; [rewrite Hkeep; by rewrite Hsrc |].
    intros Hfile. destruct (Hdst Hfile) as [old Hold].
    rewrite Hkeep; by rewrite Hold. }
  cbn [install_each] in Hrun.
  destruct (negb (Doctor.endsWith file ext)) eqn:Hext.
  { intros f Hf Hfext. apply elem_of_cons in Hf as [-> | Hf];
      [by rewrite Hfext in Hext | by apply (IH _ _ _ _ Hrun)]. }
  cbv zeta in Hrun. unfold bind at 1, stat in Hrun.
  destruct (fs w !! Doctor.join srcDir file) as [node |] eqn:Hsrc; [| done].
  destruct (negb (isFile node)) eqn:Hkind.
  { apply (Hrest _ _ Hrun node Hsrc). intros Hfile. by rewrite Hfile in Hkind. }
  rewrite Hforce, Hdry in Hrun. simpl in Hrun.
  destruct (existsSync w (Doctor.join dstDir file)) eqn:Hexists; simpl in Hrun.
  { apply (Hrest _ _ Hrun node Hsrc). intros _.
    by apply bool_decide_eq_true in Hexists. }
  unfold bind at 1, copyFile in Hrun.
  destruct (copyFile_error env _ _); [done |]. rewrite Hsrc in Hrun.
  destruct node as [content |]; [| done].
  apply bool_decide_eq_false in Hexists.
  destruct (fs w !! Doctor.join dstDir file) as [old |] eqn:Hdst;
    [destruct Hexists; by eexists |].
  unfold bind at 1 in Hrun.
  assert (exists w1, fs w1 = <[Doctor.join dstDir file := File content]> (fs w)
                     /\ install_each env srcDir dstDir ext options rest (S count) w1
                        = (w', Ok n)) as (w1 & Hfs & Hrun1).
  { destruct (verbose options); unfold console_log, ret in Hrun; simpl in Hrun;
      (eexists; split; [| exact Hrun]; reflexivity). }
  apply (Hrest _ _ Hrun1 (File content)).
  - rewrite Hfs. rewrite lookup_insert_ne; [done |].
    intros Hsame. by rewrite Hsame, Hsrc in Hdst.
  - intros _. rewrite Hfs, lookup_insert_eq. by eexists.
Qed.

Lemma install_each_settled (env : Env) (srcDir dstDir ext : string)
    (options : SetupOptions) (files : list string) :
  force options = false ->
  forall count w,
    settled srcDir dstDir ext files w ->
    install_each env srcDir dstDir ext options files count w = (w, Ok count).
Proof.
  intros Hforce. induction files as [| file rest IH]; intros count w Hsettled;
    [done |].
  assert (settled srcDir dstDir ext rest w) as Hrest.
  { intros f Hf. apply Hsettled. by right. }
  cbn [install_each]. destruct (negb (Doctor.endsWith file ext)) eqn:Hext;
    [by apply IH |].
  apply negb_false_iff in Hext.
  destruct (Hsettled file ltac:(left) Hext) as (node & Hsrc & Hdst).
  cbv zeta. unfold bind at 1, stat. rewrite Hsrc.
  destruct (isFile node) eqn:Hkind; simpl; [| by apply IH].
  rewrite Hforce. unfold existsSync.
  rewrite bool_decide_eq_true_2 by auto. simpl. by apply IH.
Qed.

(** X25.  [installDirectory] and the user's files: without [--force] no
    existing file or directory is changed (files are only added); with
    [--dry-run] no file changes at all; and after a run without [--force]
    that returned, a second run copies nothing, prints nothing and returns
    0. *)
Theorem installDirectory_keeps_existing_files (env : Env)
    (srcDir dstDir ext : string) (options : SetupOptions) (w : World) :
  let run := installDirectory env srcDir dstDir ext options w in
  (force options = false ->
   forall path, is_Some (fs w !! path) -> fs (fst run) !! path = fs w !! path)
  /\ (dryRun options = true -> fs (fst run) = fs w)
  /\ (force options = false -> dryRun options = false ->
      forall n, snd run = Ok n ->
        installDirectory env srcDir dstDir ext options (fst run)
        = (fst run, Ok 0%nat)).
Proof.
  unfold installDirectory.
  destruct (existsSync w srcDir) eqn:Hsrc; simpl; [| by rewrite Hsrc].
  assert (forall w0,
             bind (fun w1 : World => (w1, readdir env srcDir))
               (fun files => install_each env srcDir dstDir ext options files 0) w0
             = match readdir env srcDir with
               | Ok files => install_each env srcDir dstDir ext options files 0 w0
               | Throw err => (w0, Throw err)
               end) as Hbody
    by (intros w0; unfold bind; by destruct (readdir env srcDir)).
  rewrite !Hbody.
  destruct (readdir env srcDir) as [files | err] eqn:Hfiles; simpl;
    [| by rewrite Hsrc].
  split; [| split].
  - intros Hforce path Hpath. apply install_each_keeps; auto.
  - intros Hdry. by apply install_each_dry.
  - intros Hforce Hdry n Hn.
    destruct (install_each env srcDir dstDir ext options files 0 w)
      as [w' r] eqn:Hrun. simpl in *. subst r.
    assert (existsSync w' srcDir = true) as ->.
    { apply bool_decide_eq_true. apply bool_decide_eq_true in Hsrc.
      pose proof (install_each_keeps env srcDir dstDir ext options files
                    (or_introl Hforce) 0 w srcDir Hsrc) as Hkeep.
      rewrite Hrun in Hkeep. simpl in Hkeep. by rewrite Hkeep. }
    simpl.
    apply install_each_settled; [done |].
    by apply (install_each_settles env _ _ _ options files Hforce Hdry 0 w w' n).
Qed.

Lemma installDirectory_keeps_existing_files_witness :
  fs (fst (installDirectory prompts_env "/pkg/prompts" "/home/u/.codex/prompts"
             ".md" keep_options edited_prompt_world))
    !! "/home/u/.codex/prompts/architect.md"
  = Some (File "my own architect").
Proof.
  rewrite (proj1 (installDirectory_keeps_existing_files prompts_env "/pkg/prompts"
                    "/home/u/.codex/prompts" ".md" keep_options
                    edited_prompt_world) eq_refl); [reflexivity |].
  vm_compute. eauto.
Defined.


Lemma wanted_agrees (srcDir dstDir ext : string) (options : SetupOptions)
    (w w0 : World) (file : string) :
  fs w0 !! Doctor.join srcDir file = fs w !! Doctor.join srcDir file ->
  fs w0 !! Doctor.join dstDir file = fs w !! Doctor.join dstDir file ->
  wanted srcDir dstDir ext options w0 file = wanted srcDir dstDir ext options w file.
Proof. intros Hsrc Hdst. unfold wanted, existsSync. by rewrite Hsrc, Hdst. Qed.

Lemma join_inj (dir a b : string) : Doctor.join dir a = Doctor.join dir b -> a = b.
Proof.
  unfold Doctor.join. intros H. apply String.app_inj in H.
  by apply (String.app_inj "/") in H.
Qed.

(** The loop of a dry run, on files whose sources exist. *)
Lemma install_each_dry_spec (env : Env) (srcDir dstDir ext : string)
    (options : SetupOptions) (files : list string) :
  dryRun options = true ->
  forall count w,
    (forall f, f ∈ files -> Doctor.endsWith f ext = true ->
               is_Some (fs w !! Doctor.join srcDir f)) ->
    install_each env srcDir dstDir ext options files count w
    = ({| fs := fs w;
          console := (console w
                      ++ install_lines options
                           (List.filter (wanted srcDir dstDir ext options w) files))%list |},
       Ok (count + length (List.filter (wanted srcDir dstDir ext options w) files))%nat).
Proof.
  intros Hdry. induction files as [| file rest IH]; intros count w Hsrc.
  - simpl. unfold ret, install_lines. rewrite Nat.add_0_r.
    destruct (verbose options); simpl; rewrite app_nil_r; by destruct w.
  - assert (forall count0 w0, fs w0 = fs w ->
              install_each env srcDir dstDir ext options rest count0 w0
              = ({| fs := fs w;
                    console := (console w0
                                ++ install_lines options
                                     (List.filter (wanted srcDir dstDir ext options w) rest))%list |},
                 Ok (count0 + length (List.filter (wanted srcDir dstDir ext options w) rest))%nat))
      as Hrest.
    { intros count0 w0 Hfs. rewrite IH.
      - rewrite Hfs.
        by rewrite (List.filter_ext_in _ (wanted srcDir dstDir ext options w))
          by (intros f _; apply wanted_agrees; by rewrite Hfs).
      - intros f Hf Hext. rewrite Hfs. apply Hsrc; [by right | done]. }
    cbn [install_each List.filter].
    assert (wanted srcDir dstDir ext options w file
            = Doctor.endsWith file ext
              && match fs w !! Doctor.join srcDir file with
                 | Some (File _) => true
                 | _ => false
                 end
              && (force options || negb (existsSync w (Doctor.join dstDir file))))
      as -> by reflexivity.
    destruct (Doctor.endsWith file ext) eqn:Hext; simpl; [| by apply Hrest].
    destruct (Hsrc file ltac:(left) Hext) as [node Hnode].
    unfold bind at 1, stat. rewrite Hnode.
    destruct node as [content |]; simpl; [| by apply Hrest].
    destruct (force options || negb (existsSync w (Doctor.join dstDir file)));
      [| by apply Hrest].
    rewrite Hdry. unfold bind, ret, console_log. simpl.
    destruct (verbose options) eqn:Hverbose; rewrite Hrest by done;
      unfold install_lines; rewrite Hverbose; simpl;
      by rewrite ?Nat.add_succ_r, <- ?app_assoc.
Qed.


(** The loop of a real run that returns, when no listed source is a listed
    destination: it installs the files wanted in the world [w] it started
    from. *)
Lemma install_each_real_spec (env : Env) (srcDir dstDir ext : string)
    (options : SetupOptions) (w : World) :
  dryRun options = false ->
  forall files,
    NoDup files ->
    (forall a b, a ∈ files -> b ∈ files ->
                 Doctor.join dstDir a <> Doctor.join srcDir b) ->
    forall count wc w' n,
      (forall f, f ∈ files ->
         fs wc !! Doctor.join srcDir f = fs w !! Doctor.join srcDir f
         /\ fs wc !! Doctor.join dstDir f = fs w !! Doctor.join dstDir f) ->
      install_each env srcDir dstDir ext options files count wc = (w', Ok n) ->
      let installed := List.filter (wanted srcDir dstDir ext options w) files in
      n = (count + length installed)%nat
      /\ console w' = (console wc ++ install_lines options installed)%list
      /\ (forall f, f ∈ files -> Doctor.endsWith f ext = true ->
            is_Some (fs w !! Doctor.join srcDir f))
      /\ (forall f, f ∈ installed ->
            fs w' !! Doctor.join dstDir f = fs w !! Doctor.join srcDir f)
      /\ (forall p, (forall f, f ∈ installed -> p <> Doctor.join dstDir f) ->
            fs w' !! p = fs wc !! p).
Proof.
  intros Hdry. induction files as [| file rest IH];
    intros Hnodup Hapart count wc w' n Hagree Hrun installed.
  - simpl in Hrun. injection Hrun as <- <-. subst installed. simpl.
    unfold install_lines. rewrite Nat.add_0_r.
    repeat split; try done.
    + destruct (verbose options); simpl; by rewrite app_nil_r.
    + by intros f Hf%elem_of_nil.
    + by intros f Hf%elem_of_nil.
  - apply NoDup_cons in Hnodup as [Hfresh Hnodup].
    assert (forall a b, a ∈ rest -> b ∈ rest ->
              Doctor.join dstDir a <> Doctor.join srcDir b) as Hapart'.
    { intros a b Ha Hb. apply Hapart; by right. }
    destruct (Hagree file ltac:(left)) as [Hsrc Hdst].
    assert (wanted srcDir dstDir ext options w file
            = Doctor.endsWith file ext
              && match fs w !! Doctor.join srcDir file with
                 | Some (File _) => true
                 | _ => false
                 end
              && (force options || negb (existsSync wc (Doctor.join dstDir file))))
      as Hwanted by (unfold wanted, existsSync; by rewrite Hdst).
    (* the file is passed over *)
    assert (wanted srcDir dstDir ext options w file = false ->
            (Doctor.endsWith file ext = true ->
             is_Some (fs w !! Doctor.join srcDir file)) ->
            install_each env srcDir dstDir ext options rest count wc = (w', Ok n) ->
            n = (count + length installed)%nat
            /\ console w' = (console wc ++ install_lines options installed)%list
            /\ (forall f, f ∈ file :: rest -> Doctor.endsWith f ext = true ->
                  is_Some (fs w !! Doctor.join srcDir f))
            /\ (forall f, f ∈ installed ->
                  fs w' !! Doctor.join dstDir f = fs w !! Doctor.join srcDir f)
            /\ (forall p, (forall f, f ∈ installed -> p <> Doctor.join dstDir f) ->
                  fs w' !! p = fs wc !! p)) as Hskip.
    { intros Hnot Hstat Hrun'. subst installed. simpl. rewrite Hnot.
      destruct (IH Hnodup Hapart' count wc w' n) as (Hn & Hout & Hsrcs & Hnew & Hold);
        [intros f Hf; apply Hagree; by right | done |].
      split; [done |]. split; [done |]. split; [| by split].
      intros f [-> | Hf]%elem_of_cons; [done | by apply Hsrcs]. }
    cbn [install_each] in Hrun.
    destruct (Doctor.endsWith file ext) eqn:Hext; simpl in Hrun;
      [| apply Hskip; [by rewrite Hwanted | done | done]].
    unfold bind at 1, stat in Hrun. rewrite Hsrc in Hrun.
    destruct (fs w !! Doctor.join srcDir file) as [node |] eqn:Hnode; [| done].
    destruct node as [content |]; simpl in Hrun;
      [| apply Hskip; [by rewrite Hwanted | by eexists | done]].
    destruct (force options || negb (existsSync wc (Doctor.join dstDir file)))
      eqn:Hcond;
      [| apply Hskip; [by rewrite Hwanted, ?Hcond | by eexists | done]].
    rewrite Hdry in Hrun. simpl in Hrun.
    unfold bind at 1, copyFile in Hrun.
    destruct (copyFile_error env _ _); [done |]. rewrite Hsrc in Hrun.
    set (w1fs := <[Doctor.join dstDir file := File content]> (fs wc)) in *.
    assert (exists w1,
               fs w1 = w1fs
               /\ console w1 = (console wc ++ install_lines options [file])%list
               /\ install_each env srcDir dstDir ext options rest (S count) w1
                  = (w', Ok n)) as (w1 & Hfs1 & Hout1 & Hrun1).
    { unfold install_lines.
      destruct (fs wc !! Doctor.join dstDir file) as [[old |] |]; try done;
        unfold bind at 1 in Hrun;
        destruct (verbose options); unfold console_log, ret in Hrun;
        simpl in Hrun;
        (eexists; split; [| split; [| exact Hrun]]; simpl;
         [reflexivity | by rewrite ?app_nil_r]). }
    clear Hrun.
    destruct (IH Hnodup Hapart' (S count) w1 w' n) as (Hn & Hout & Hsrcs & Hnew & Hold);
      [| done |].
    { intros f Hf. rewrite Hfs1. unfold w1fs.
      rewrite !lookup_insert_ne.
      - apply Hagree. by right.
      - intros Hsame%join_inj. by subst.
      - apply Hapart; [by left | by right]. }
    subst installed. simpl. rewrite Hwanted, ?Hext, ?Hnode, ?Hcond. simpl.
    split; [lia |]. split; [| split; [| split]].
    + rewrite Hout, Hout1. unfold install_lines.
      destruct (verbose options); simpl; by rewrite <- app_assoc.
    + intros f [-> | Hf]%elem_of_cons;
        [intros _; rewrite Hnode; by eexists | by apply Hsrcs].
    + intros f [-> | Hf]%elem_of_cons; [| by apply Hnew].
      rewrite Hold, Hfs1; [unfold w1fs; by rewrite lookup_insert_eq |].
      intros f [Hf _]%CliMore.elem_of_filter_bool Hsame%join_inj. by subst.
    + intros p Hp. rewrite Hold, Hfs1.
      * unfold w1fs. apply lookup_insert_ne. intros <-. by apply (Hp file); [left |].
      * intros f Hf. apply Hp. by right.
Qed.

(** X26.  [--dry-run] tells what a run installs: when the listed sources
    are not destinations and the real run of [installDirectory] returns, the
    dry run from the same files prints the same lines and returns the same
    count without touching a file; the count is the number of listed files
    with the extension whose source is a regular file and whose destination
    is missing (or any, with [--force]); after the real run each of them has
    the content of its source, and every other path is as before. *)
Theorem dry_run_tells_what_is_installed (env : Env) (srcDir dstDir ext : string)
    (options : SetupOptions) (w w' : World) (files : list string) (n : nat) :
  existsSync w srcDir = true ->
  readdir env srcDir = Ok files ->
  NoDup files ->
  (forall a b, a ∈ files -> b ∈ files ->
               Doctor.join dstDir a <> Doctor.join srcDir b) ->
  installDirectory env srcDir dstDir ext (with_dryRun options false) w = (w', Ok n) ->
  let installed := List.filter (wanted srcDir dstDir ext options w) files in
  installDirectory env srcDir dstDir ext (with_dryRun options true) w
  = ({| fs := fs w; console := console w' |}, Ok n)
  /\ n = length installed
  /\ (forall f, f ∈ installed ->
        fs w' !! Doctor.join dstDir f = fs w !! Doctor.join srcDir f)
  /\ (forall p, (forall f, f ∈ installed -> p <> Doctor.join dstDir f) ->
        fs w' !! p = fs w !! p).
Proof.
  intros Hdir Hfiles Hnodup Hapart Hrun installed.
  unfold installDirectory in *. rewrite Hdir in *. simpl in *.
  unfold bind in *. rewrite Hfiles in *.
  destruct (install_each_real_spec env srcDir dstDir ext (with_dryRun options false)
              w eq_refl files Hnodup Hapart 0 w w' n ltac:(done) Hrun)
    as (Hn & Hout & Hsrcs & Hnew & Hold).
  rewrite (install_each_dry_spec env srcDir dstDir ext (with_dryRun options true)
             files eq_refl 0 w Hsrcs).
  split; [| by split]. by rewrite Hout, Hn.
Qed.

Lemma dry_run_tells_what_is_installed_witness :
  let real := installDirectory prompts_env "/pkg/prompts" "/home/u/.codex/prompts"
                ".md" (with_dryRun keep_options false) edited_prompt_world in
  installDirectory prompts_env "/pkg/prompts" "/home/u/.codex/prompts" ".md"
    (with_dryRun keep_options true) edited_prompt_world
  = ({| fs := fs edited_prompt_world; console := console (fst real) |}, Ok 1%nat).
Proof.
  apply (proj1 (dry_run_tells_what_is_installed prompts_env "/pkg/prompts"
                  "/home/u/.codex/prompts" ".md" keep_options
                  edited_prompt_world _
                  ["architect.md"; "README.txt"; "planner.md"] 1
                  eq_refl eq_refl
                  ltac:(apply (bool_decide_unpack _); vm_compute; exact I)
                  ltac:(intros a b Ha Hb Hsame;
                        apply (f_equal (String.substring 0 2)) in Hsame;
                        discriminate Hsame)
                  ltac:(vm_compute; reflexivity))).
Defined.

Lemma keeps_ret {A} (a : A) : keeps_files (ret a).
Proof. by intros w. Qed.

Lemma keeps_log (line : string) : keeps_files (console_log line).
Proof. by intros w. Qed.

Lemma keeps_bind {A B} (step : Eff World A) (next : A -> Eff World B) :
  keeps_files step -> (forall a, keeps_files (next a)) ->
  keeps_files (bind step next).
Proof.
  intros Hstep Hnext w. unfold bind. specialize (Hstep w).
  destruct (step w) as [w1 [a | err]]; simpl in *; [| done].
  by rewrite Hnext.
Qed.

Lemma keeps_log_if (b : bool) (line : string) :
  keeps_files (if b then console_log line else ret tt).
Proof. destruct b; [apply keeps_log | apply keeps_ret]. Qed.

Lemma make_dirs_dry (m : Machine) (options : SetupOptions) (dirs : list string) :
  dryRun options = true -> keeps_files (make_dirs m options dirs).
Proof.
  intros Hdry. induction dirs as [| dir rest IH]; [apply keeps_ret |].
  cbn [make_dirs]. rewrite Hdry. simpl negb. cbv iota.
  apply keeps_bind; [apply keeps_ret |]. intros _.
  apply keeps_bind; [apply keeps_log_if | by intros _].
Qed.

Lemma installDirectory_dry (env : Env) (srcDir dstDir ext : string)
    (options : SetupOptions) :
  dryRun options = true ->
  keeps_files (installDirectory env srcDir dstDir ext options).
Proof.
  intros Hdry w. unfold installDirectory.
  destruct (negb (existsSync w srcDir)); [done |].
  unfold bind. destruct (readdir env srcDir) as [files | err]; [| done].
  by apply install_each_dry.
Qed.

Lemma install_skills_each_dry (m : Machine) (srcDir dstDir : string)
    (options : SetupOptions) (entries : list (string * bool)) :
  dryRun options = true ->
  forall count, keeps_files (install_skills_each m srcDir dstDir options entries count).
Proof.
  intros Hdry. induction entries as [| [name isDirectory] rest IH]; intros count;
    [apply keeps_ret |].
  cbn [install_skills_each]. destruct (negb isDirectory); [apply IH |].
  cbv zeta. intros w.
  destruct (negb (existsSync w (Doctor.join (Doctor.join srcDir name) "SKILL.md")));
    [apply IH |].
  rewrite Hdry. simpl negb. cbv iota.
  apply keeps_bind; [apply keeps_ret |]. intros _.
  apply keeps_bind; [apply keeps_log_if | intros _; apply IH].
Qed.

Lemma installSkills_dry (m : Machine) (srcDir dstDir : string)
    (options : SetupOptions) :
  dryRun options = true -> keeps_files (installSkills m srcDir dstDir options).
Proof.
  intros Hdry w. unfold installSkills.
  destruct (negb (existsSync w srcDir)); [done |].
  unfold bind. destruct (readdir_withFileTypes m srcDir) as [entries | err]; [| done].
  by apply install_skills_each_dry.
Qed.

Lemma generate_agents_md_dry (m : Machine) (options : SetupOptions) :
  dryRun options = true -> keeps_files (generate_agents_md m options).
Proof.
  intros Hdry w. unfold generate_agents_md. cbv zeta.
  destruct (existsSync w _); [| done].
  destruct (force options || negb (existsSync w _)); [| done].
  rewrite Hdry. simpl negb. cbv iota.
  apply keeps_bind; [apply keeps_ret | intros _; apply keeps_log].
Qed.

Lemma setupNotifyHook_keeps (m : Machine) (options : SetupOptions) :
  keeps_files (setupNotifyHook m options).
Proof.
  intros w. unfold setupNotifyHook. cbv zeta.
  destruct (negb (existsSync w _)); apply keeps_log_if.
Qed.

(** X30.  [omx setup --dry-run] writes nothing: whatever the package and
    the machine hold, and whether or not the run returns, a run of [setup]
    with [dryRun] leaves every file and directory as it was (no [mkdir], no
    copy, no merge into [config.toml], no [AGENTS.md]). *)
Theorem setup_dry_run_writes_nothing (m : Machine) (options : SetupOptions)
    (w : World) :
  dryRun options = true ->
  fs (fst (setup m options w)) = fs w.
Proof.
  intros Hdry. revert w. change (keeps_files (setup m options)).
  unfold setup. rewrite Hdry. simpl negb. cbv iota.
  repeat (apply keeps_bind;
          [first [ apply keeps_log
                 | apply keeps_ret
                 | by apply make_dirs_dry
                 | by apply installDirectory_dry
                 | by apply installSkills_dry
                 | by apply generate_agents_md_dry
                 | apply setupNotifyHook_keeps ]
          | intros ?]).
  apply keeps_log.
Qed.

Lemma setup_dry_run_writes_nothing_witness :
  fs (fst (setup package_machine
             {| force := true; dryRun := true; verbose := true |}
             edited_prompt_world))
  = fs edited_prompt_world.
Proof.
  apply (setup_dry_run_writes_nothing package_machine
           {| force := true; dryRun := true; verbose := true |}
           edited_prompt_world).
  reflexivity.
Defined.

End SetupMore.

(** ** Properties of the update check *)

Module UpdateMore.
Import Update.

(** X27.  [isNewerVersion] is a strict order on the versions it can read:
    no version is newer than itself, two versions are never each newer than
    the other, and newer-than is transitive; and it answers [false] as soon
    as one of the two texts is not of the form [v?N.N.N]. *)
Theorem isNewerVersion_strict_order :
  (forall v, isNewerVersion v v = false)
  /\ (forall a b, isNewerVersion a b = true -> isNewerVersion b a = false)
  /\ (forall a b c, isNewerVersion a b = true -> isNewerVersion b c = true ->
        isNewerVersion a c = true)
  /\ (forall a b, parseSemver a = None \/ parseSemver b = None ->
        isNewerVersion a b = false).
Proof.
  unfold isNewerVersion. repeat split.
  - intros v. destruct (parseSemver v) as [[[v0 v1] v2] |]; [| done].
    rewrite !Z.eqb_refl. simpl. apply Z.ltb_irrefl.
  - intros a b.
    destruct (parseSemver a) as [[[a0 a1] a2] |]; [| done].
    destruct (parseSemver b) as [[[b0 b1] b2] |]; [| done].
    destruct (Z.eqb_spec b0 a0), (Z.eqb_spec a0 b0),
      (Z.eqb_spec b1 a1), (Z.eqb_spec a1 b1); simpl; lia.
  - intros a b c.
    destruct (parseSemver a) as [[[a0 a1] a2] |]; [| done].
    destruct (parseSemver b) as [[[b0 b1] b2] |]; [| done].
    destruct (parseSemver c) as [[[c0 c1] c2] |]; [| done].
    destruct (Z.eqb_spec b0 a0), (Z.eqb_spec c0 b0), (Z.eqb_spec c0 a0),
      (Z.eqb_spec b1 a1), (Z.eqb_spec c1 b1), (Z.eqb_spec c1 a1); simpl; lia.
  - intros a b [-> | ->]; [done |]. by destruct (parseSemver a) as [[[? ?] ?] |].
Qed.


Lemma chars_append (a b : string) :
  list_ascii_of_string (a ++ b)
  = (list_ascii_of_string a ++ list_ascii_of_string b)%list.
Proof.
  induction a as [| c a IH]; [done |].
  rewrite GeneratorMore.append_cons. simpl. by rewrite IH.
Qed.

Lemma take_digits_split (s : string) :
  s = fst (take_digits s) ++ snd (take_digits s)
  /\ Doctor.all_digits (fst (take_digits s)).
Proof.
  induction s as [| c s [IHs IHd]]; [split; [done | by intros c []] |].
  cbn [take_digits]. destruct (Doctor.digit_of c) eqn:Hc.
  - destruct (take_digits s) as [digits after]. simpl in *. split.
    + rewrite GeneratorMore.append_cons. by f_equal.
    + intros c' [<- | Hin]; [by rewrite Hc | by apply IHd].
  - split; [done | by intros c' []].
Qed.

Lemma take_digits_append (digits rest : string) :
  Doctor.all_digits digits ->
  match rest with
  | EmptyString => True
  | String c _ => Doctor.digit_of c = None
  end ->
  take_digits (digits ++ rest) = (digits, rest).
Proof.
  intros Hdigits Hrest. induction digits as [| c digits IH].
  - change ("" ++ rest) with rest. destruct rest as [| c rest]; [done |].
    cbn [take_digits]. by rewrite Hrest.
  - rewrite GeneratorMore.append_cons. cbn [take_digits].
    destruct (Doctor.digit_of c) eqn:Hc; [| by destruct (Hdigits c); [left |]].
    rewrite IH; [done |]. intros c' Hc'. apply Hdigits. by right.
Qed.

Lemma digit_not_space (c : ascii) :
  Doctor.digit_of c <> None -> LeaderNudge.is_space c = false.
Proof.
  unfold Doctor.digit_of, LeaderNudge.is_space.
  destruct (Nat.leb_spec 48 (nat_of_ascii c)), (Nat.leb_spec (nat_of_ascii c) 57);
    simpl; try done.
  intros _. apply orb_false_iff. split.
  - apply Nat.eqb_neq. lia.
  - apply andb_false_iff. right. apply Nat.leb_gt. lia.
Qed.

Lemma string_snoc (s : string) :
  s <> "" ->
  exists t c, s = t ++ String c "" /\ In c (list_ascii_of_string s).
Proof.
  induction s as [| c s IH]; [done |]. intros _.
  destruct s as [| d s].
  - exists "", c. split; [done | by left].
  - destruct IH as (t & l & Hs & Hl); [done |].
    exists (String c t), l. split.
    + rewrite GeneratorMore.append_cons. by rewrite <- Hs.
    + by right.
Qed.

(** A text that begins and ends with a character that is not white space is
    left as it is by [trim]. *)
Lemma trim_unchanged (c l : ascii) (body : string) :
  LeaderNudge.is_space c = false -> LeaderNudge.is_space l = false ->
  LeaderNudge.trim (String c (body ++ String l "")) = String c (body ++ String l "").
Proof.
  intros Hc Hl. unfold LeaderNudge.trim. cbn [LeaderNudge.trimStart]. rewrite Hc.
  rewrite GeneratorMore.rev_cons, GeneratorMore.rev_append.
  change (String.rev (String l "")) with (String l "").
  rewrite !GeneratorMore.append_cons. cbn [LeaderNudge.trimStart]. rewrite Hl.
  rewrite <- !GeneratorMore.append_cons.
  change (String l "") with (String.rev (String l "")) at 1.
  rewrite <- GeneratorMore.rev_append, <- GeneratorMore.rev_cons.
  apply GeneratorMore.rev_involutive.
Qed.

Lemma pretty_nat_shape (n : nat) :
  exists c body, pretty n = String c body /\ Doctor.digit_of c <> None.
Proof.
  pose proof (DoctorMore.digits_value_pretty n) as Hvalue.
  pose proof (DoctorMore.pretty_nat_digits n) as Hdigits.
  destruct (pretty n) as [| c body]; [discriminate Hvalue |].
  exists c, body. split; [done |]. apply Hdigits. by left.
Qed.

Lemma Number_pretty (n : nat) :
  Z.of_nat n < 2 ^ 53 -> Number (pretty n) = Z.of_nat n.
Proof.
  intros Hn. unfold Number. rewrite DoctorMore.digits_value_pretty. simpl default.
  unfold to_double. by destruct (Z.ltb_spec (Z.of_nat n) (2 ^ 53)); [| lia].
Qed.

Lemma digits_dot_pretty (n : nat) (rest : string) :
  digits_dot (pretty n ++ "." ++ rest) = Some (pretty n, rest).
Proof.
  unfold digits_dot.
  rewrite take_digits_append; [| apply DoctorMore.pretty_nat_digits | done].
  by destruct (pretty_nat_shape n) as (c & body & -> & _).
Qed.

Lemma version_text_trim (a b c : nat) (lead : string) :
  lead = "" \/ lead = "v" ->
  LeaderNudge.trim (lead ++ version_text a b c) = lead ++ version_text a b c.
Proof.
  intros Hlead. unfold version_text.
  destruct (string_snoc (pretty c)) as (t & l & Hc & Hl).
  { by destruct (pretty_nat_shape c) as (? & ? & -> & _). }
  assert (LeaderNudge.is_space l = false) as Hspace
    by (apply digit_not_space, (DoctorMore.pretty_nat_digits c), Hl).
  destruct (pretty_nat_shape a) as (d & body & Ha & Hd).
  rewrite Hc, Ha.
  destruct Hlead as [-> | ->].
  - change ("" ++ ?x) with x. rewrite GeneratorMore.append_cons.
    replace (body ++ "." ++ pretty b ++ "." ++ t ++ String l "")
      with ((body ++ "." ++ pretty b ++ "." ++ t) ++ String l "")
      by (by rewrite !GeneratorMore.append_assoc).
    apply trim_unchanged; [by apply digit_not_space | done].
  - rewrite GeneratorMore.append_cons. change ("" ++ ?x) with x.
    replace (String d body ++ "." ++ pretty b ++ "." ++ t ++ String l "")
      with ((String d body ++ "." ++ pretty b ++ "." ++ t) ++ String l "")
      by (by rewrite !GeneratorMore.append_assoc).
    by apply trim_unchanged.
Qed.

Lemma parseSemver_version_text (a b c : nat) (lead : string) :
  lead = "" \/ lead = "v" ->
  Z.of_nat a < 2 ^ 53 -> Z.of_nat b < 2 ^ 53 -> Z.of_nat c < 2 ^ 53 ->
  parseSemver (lead ++ version_text a b c)
  = Some (Z.of_nat a, Z.of_nat b, Z.of_nat c).
Proof.
  intros Hlead Ha Hb Hc. unfold parseSemver.
  rewrite version_text_trim by done. cbv zeta.
  assert (match lead ++ version_text a b c with
          | String "v" rest => rest
          | _ => lead ++ version_text a b c
          end = version_text a b c) as ->.
  { destruct Hlead as [-> | ->]; [| done].
    change ("" ++ ?x) with x. unfold version_text.
    destruct (pretty_nat_shape a) as (d & body & -> & Hd).
    rewrite GeneratorMore.append_cons.
    by destruct d as [[] [] [] [] [] [] [] []]. }
  unfold version_text. rewrite !digits_dot_pretty.
  rewrite <- (GeneratorMore.append_nil_r (pretty c)).
  rewrite take_digits_append; [| apply DoctorMore.pretty_nat_digits | done].
  destruct (pretty_nat_shape c) as (d & body & Hshape & _).
  rewrite Hshape. rewrite <- Hshape. by rewrite !Number_pretty.
Qed.


Lemma digits_dot_split (s digits rest : string) :
  digits_dot s = Some (digits, rest) ->
  s = digits ++ "." ++ rest /\ Doctor.all_digits digits.
Proof.
  unfold digits_dot. destruct (take_digits_split s) as [Hs Hd].
  destruct (take_digits s) as [d after]. simpl in *.
  destruct d as [| c d]; [done |].
  destruct after as [| dot after]; [done |].
  destruct (Ascii.eqb_spec dot ".") as [-> | Hdot].
  - intros [= <- <-]. by split.
  - by destruct dot as [[] [] [] [] [] [] [] []].
Qed.

(** Only digits, dots and a [v] occur in a text that is read as a version. *)
Lemma parseSemver_chars (s : string) (c : ascii) :
  is_Some (parseSemver s) ->
  In c (list_ascii_of_string (LeaderNudge.trim s)) ->
  Doctor.digit_of c <> None \/ c = "."%char \/ c = "v"%char.
Proof.
  unfold parseSemver. cbv zeta.
  set (body := match LeaderNudge.trim s with
               | String "v" rest => rest
               | _ => LeaderNudge.trim s
               end).
  assert (LeaderNudge.trim s = body \/ LeaderNudge.trim s = String "v" body) as Hbody.
  { subst body. destruct (LeaderNudge.trim s) as [| x rest]; [by left |].
    destruct (Ascii.eqb_spec x "v") as [-> | Hx]; [by right |].
    left. by destruct x as [[] [] [] [] [] [] [] []]. }
  destruct (digits_dot body) as [[major s1] |] eqn:H1; [| by intros []].
  destruct (digits_dot s1) as [[minor s2] |] eqn:H2; [| by intros []].
  destruct (take_digits_split s2) as [Hs2 Hd2].
  destruct (take_digits s2) as [patch after]. simpl in *.
  destruct patch as [| p patch]; [by intros [] |].
  destruct after; [| by intros []]. intros _.
  apply digits_dot_split in H1 as [-> Hmajor], H2 as [-> Hminor].
  rewrite GeneratorMore.append_nil_r in Hs2. subst s2.
  assert (forall x, In x (list_ascii_of_string
                            (major ++ "." ++ minor ++ "." ++ String p patch)) ->
                    Doctor.digit_of x <> None \/ x = "."%char \/ x = "v"%char)
    as Hchars.
  { intros x. rewrite !chars_append. rewrite !in_app_iff.
    intros [H | [[<- | []] | [H | [[<- | []] | H]]]]; auto. }
  destruct Hbody as [-> | ->]; [apply Hchars |].
  intros [<- | Hin]; auto.
Qed.

Lemma chars_rev (s : string) :
  list_ascii_of_string (String.rev s) = rev (list_ascii_of_string s).
Proof.
  induction s as [| c s IH]; [done |].
  rewrite GeneratorMore.rev_cons, chars_append, IH. reflexivity.
Qed.

Lemma trimStart_keeps (c : ascii) (s : string) :
  LeaderNudge.is_space c = false ->
  In c (list_ascii_of_string s) ->
  In c (list_ascii_of_string (LeaderNudge.trimStart s)).
Proof.
  intros Hc. induction s as [| d s IH]; [done |].
  cbn [LeaderNudge.trimStart]. destruct (LeaderNudge.is_space d) eqn:Hd; [| done].
  intros [-> | Hin]; [congruence | by apply IH].
Qed.

(** [trim] removes white space only. *)
Lemma trim_keeps (c : ascii) (s : string) :
  LeaderNudge.is_space c = false ->
  In c (list_ascii_of_string s) ->
  In c (list_ascii_of_string (LeaderNudge.trim s)).
Proof.
  intros Hc Hin. unfold LeaderNudge.trim.
  rewrite chars_rev, <- in_rev. apply trimStart_keeps; [done |].
  rewrite chars_rev, <- in_rev. by apply trimStart_keeps.
Qed.

(** X28.  [isNewerVersion] reads the three numbers: for versions written as
    [major.minor.patch] with numbers below [2 ^ 53], the latest is newer
    exactly when it is greater by major, then minor, then patch; a leading
    [v] on either side makes no difference.  A text of ASCII characters that
    holds, after trimming, any character other than digits, dots and [v] (a
    pre-release suffix, say) is never newer and nothing is newer than it;
    and so for any text that holds an ASCII character other than white
    space, digits, dots and [v]. *)
Theorem isNewerVersion_reads_numbers (a0 a1 a2 b0 b1 b2 : nat) :
  Forall (fun n => Z.of_nat n < 2 ^ 53) [a0; a1; a2; b0; b1; b2] ->
  (isNewerVersion (version_text a0 a1 a2) (version_text b0 b1 b2) = true
   <-> older (a0, a1, a2) (b0, b1, b2))
  /\ isNewerVersion ("v" ++ version_text a0 a1 a2) (version_text b0 b1 b2)
     = isNewerVersion (version_text a0 a1 a2) (version_text b0 b1 b2)
  /\ isNewerVersion (version_text a0 a1 a2) ("v" ++ version_text b0 b1 b2)
     = isNewerVersion (version_text a0 a1 a2) (version_text b0 b1 b2)
  /\ (forall text other c,
        LeaderNudge.is_ascii_text text = true ->
        In c (list_ascii_of_string (LeaderNudge.trim text)) ->
        Doctor.digit_of c = None -> c <> "."%char -> c <> "v"%char ->
        isNewerVersion text other = false /\ isNewerVersion other text = false)
  /\ (forall text other c,
        In c (list_ascii_of_string text) ->
        (nat_of_ascii c < 128)%nat -> LeaderNudge.is_space c = false ->
        Doctor.digit_of c = None -> c <> "."%char -> c <> "v"%char ->
        isNewerVersion text other = false /\ isNewerVersion other text = false).
Proof.
  intros Hsmall.
  apply Forall_cons in Hsmall as [Ha0 Hsmall]. apply Forall_cons in Hsmall as [Ha1 Hsmall].
  apply Forall_cons in Hsmall as [Ha2 Hsmall]. apply Forall_cons in Hsmall as [Hb0 Hsmall].
  apply Forall_cons in Hsmall as [Hb1 Hsmall]. apply Forall_cons in Hsmall as [Hb2 _].
  pose proof (parseSemver_version_text a0 a1 a2 "" (or_introl eq_refl) Ha0 Ha1 Ha2) as Ha.
  pose proof (parseSemver_version_text b0 b1 b2 "" (or_introl eq_refl) Hb0 Hb1 Hb2) as Hb.
  pose proof (parseSemver_version_text a0 a1 a2 "v" (or_intror eq_refl) Ha0 Ha1 Ha2) as Hva.
  pose proof (parseSemver_version_text b0 b1 b2 "v" (or_intror eq_refl) Hb0 Hb1 Hb2) as Hvb.
  change ("" ++ ?x) with x in Ha, Hb.
  assert (forall text other c,
             In c (list_ascii_of_string (LeaderNudge.trim text)) ->
             Doctor.digit_of c = None -> c <> "."%char -> c <> "v"%char ->
             isNewerVersion text other = false /\ isNewerVersion other text = false)
    as Hodd.
  { intros text other c Hc Hdigit Hdot Hv. unfold isNewerVersion.
    assert (parseSemver text = None) as ->.
    { destruct (parseSemver text) eqn:Htext; [| done].
      by destruct (parseSemver_chars text c) as [? | [? | ?]]. }
    split; [done |]. by destruct (parseSemver other) as [[[? ?] ?] |]. }
  split; [| split; [| split; [| split]]].
  - unfold isNewerVersion. rewrite Ha, Hb. unfold older.
    destruct (Z.eqb_spec (Z.of_nat b0) (Z.of_nat a0)),
      (Z.eqb_spec (Z.of_nat b1) (Z.of_nat a1)); simpl;
      rewrite Z.ltb_lt; lia.
  - unfold isNewerVersion. by rewrite Ha, Hb, Hva.
  - unfold isNewerVersion. by rewrite Ha, Hb, Hvb.
  - intros text other c _. apply Hodd.
  - intros text other c Hin _ Hspace. apply Hodd. by apply trim_keeps.
Qed.

Lemma isNewerVersion_reads_numbers_witness :
  isNewerVersion (version_text 0 9 12) (version_text 0 10 0) = true
  <-> older (0, 9, 12)%nat (0, 10, 0)%nat.
Proof.
  apply (proj1 (isNewerVersion_reads_numbers 0 9 12 0 10 0
                  ltac:(repeat constructor; by vm_compute))).
Defined.


(** X29.  The update check is guarded.  With [OMX_AUTO_UPDATE=0], or less
    than twelve hours after the last check, a launch does nothing: no fetch,
    no write, no line, no install.  [npm install -g] runs only when the check
    is enabled and due, both versions are known, the latest is newer than the
    current one, and the user, if asked, agreed; and by then the state file
    was written with the time of this check.  After a check that returned,
    the next launch within twelve hours does nothing (when the clock's ISO
    text parses back to the clock's milliseconds). *)
Theorem update_install_is_guarded (env : Env) :
  let run := maybeCheckAndPromptUpdate env [] in
  let due := shouldCheckForUpdates (Date_parse env) (nowMs env)
               (readUpdateState env) CHECK_INTERVAL_MS in
  (OMX_AUTO_UPDATE env = Some "0" \/ due = false -> run = ([], Ok tt))
  /\ (existsb is_installed (fst run) = true ->
      OMX_AUTO_UPDATE env <> Some "0"
      /\ due = true
      /\ (exists current latest,
            getCurrentVersion env = Some current
            /\ fetchLatestVersion env = Some latest
            /\ isNewerVersion current latest = true)
      /\ (OMX_AUTO_UPDATE_PROMPT env = Some "1" -> askYesNo env = true)
      /\ exists seen,
           StateWritten {| last_checked_at := Some (toISOString env (nowMs env));
                           last_seen_latest := seen |} ∈ fst run)
  /\ (forall laterMs,
        snd run = Ok tt -> fst run <> [] ->
        toISOString env (nowMs env) <> "" ->
        Date_parse env (toISOString env (nowMs env)) = Some (nowMs env) ->
        laterMs - nowMs env < CHECK_INTERVAL_MS ->
        maybeCheckAndPromptUpdate (next_launch env (fst run) laterMs) []
        = ([], Ok tt)).
Proof.
  intros run due.
  pose (next := fun effects laterMs =>
                  maybeCheckAndPromptUpdate (next_launch env effects laterMs) []).
  assert (forall laterMs,
             toISOString env (nowMs env) <> "" ->
             Date_parse env (toISOString env (nowMs env)) = Some (nowMs env) ->
             laterMs - nowMs env < CHECK_INTERVAL_MS ->
             forall effects seen,
               last (omap (fun e => match e with
                                    | StateWritten s => Some s
                                    | _ => None
                                    end) effects)
               = Some {| last_checked_at := Some (toISOString env (nowMs env));
                         last_seen_latest := seen |} ->
               next effects laterMs = ([], Ok tt)) as Hnext.
  { intros laterMs Hiso Hparse Hsoon effects seen Hlast.
    unfold next, maybeCheckAndPromptUpdate, next_launch. simpl.
    destruct (bool_decide (OMX_AUTO_UPDATE env = Some "0")); [done |].
    rewrite Hlast. simpl. unfold LeaderNudge.truthy.
    destruct (String.eqb_spec (toISOString env (nowMs env)) ""); [done |].
    simpl. rewrite Hparse.
    by destruct (Z.leb_spec CHECK_INTERVAL_MS (laterMs - nowMs env)); [lia |]. }
  change (forall laterMs,
             snd run = Ok tt -> fst run <> [] ->
             toISOString env (nowMs env) <> "" ->
             Date_parse env (toISOString env (nowMs env)) = Some (nowMs env) ->
             laterMs - nowMs env < CHECK_INTERVAL_MS ->
             maybeCheckAndPromptUpdate (next_launch env (fst run) laterMs) []
             = ([], Ok tt))
    with (forall laterMs,
             snd run = Ok tt -> fst run <> [] ->
             toISOString env (nowMs env) <> "" ->
             Date_parse env (toISOString env (nowMs env)) = Some (nowMs env) ->
             laterMs - nowMs env < CHECK_INTERVAL_MS ->
             next (fst run) laterMs = ([], Ok tt)).
  clearbody next.
  subst run due.
  unfold maybeCheckAndPromptUpdate, writeUpdateState, bind, emit, ret.
  case_bool_decide as Hoff.
  { split; [done |]. split; [intros H; discriminate H |]. by intros laterMs _ []. }
  destruct (shouldCheckForUpdates _ _ _ _) eqn:Hdue; simpl.
  2: { split; [done |]. split; [intros H; discriminate H |]. by intros laterMs _ []. }
  split; [by intros [? | ?] |].
  destruct (writeUpdateState_ok env); simpl;
    [| split; [intros H; discriminate H | by intros laterMs H]].
  destruct (getCurrentVersion env) as [current |]; simpl;
    [| split; [intros H; discriminate H |];
       intros laterMs _ _ Hiso Hparse Hsoon; by eapply Hnext].
  destruct (LeaderNudge.truthy current); simpl;
    [| split; [intros H; discriminate H |];
       intros laterMs _ _ Hiso Hparse Hsoon; by eapply Hnext].
  destruct (fetchLatestVersion env) as [latest |]; simpl;
    [| split; [intros H; discriminate H |];
       intros laterMs _ _ Hiso Hparse Hsoon; by eapply Hnext].
  destruct (LeaderNudge.truthy latest) eqn:Hlatest; simpl;
    [| split; [intros H; discriminate H |];
       intros laterMs _ _ Hiso Hparse Hsoon; by eapply Hnext].
  destruct (isNewerVersion current latest) eqn:Hnewer; simpl;
    [| split; [intros H; discriminate H |];
       intros laterMs _ _ Hiso Hparse Hsoon; by eapply Hnext].
  case_bool_decide as Hprompt; simpl.
  - destruct (askYesNo env) eqn:Hanswer; simpl;
      [| split; [intros H; discriminate H |];
         intros laterMs _ _ Hiso Hparse Hsoon; by eapply Hnext].
    destruct (ok (runGlobalUpdate env)); simpl;
      (split; [| intros laterMs _ _ Hiso Hparse Hsoon; by eapply Hnext]);
      intros _; (split; [done |]); (split; [done |]);
      (split; [by exists current, latest |]); (split; [done |]);
      eexists; apply list_elem_of_In; simpl; right; left; reflexivity.
  - destruct (ok (runGlobalUpdate env)); simpl;
      (split; [| intros laterMs _ _ Hiso Hparse Hsoon; by eapply Hnext]);
      intros _; (split; [done |]); (split; [done |]);
      (split; [by exists current, latest |]); (split; [done |]);
      eexists; apply list_elem_of_In; simpl; right; left; reflexivity.
Qed.

Lemma update_install_is_guarded_witness :
  isNewerVersion "0.9.12" "0.10.0" = true.
Proof.
  destruct (proj1 (proj2 (update_install_is_guarded outdated_env))
              ltac:(vm_compute; reflexivity))
    as (_ & _ & (current & latest & Hcurrent & Hlatest & Hnewer) & _).
  injection Hcurrent as <-. injection Hlatest as <-. exact Hnewer.
Defined.

End UpdateMore.
